(** * simulate.py: the deterministic view-count simulation engine

    A shallow embedding of [simulate.py] (parse_tick, the LCG of
    rng_from_seed, seed_for_post, normalize_weights and the per-post loop of
    simulate) and the properties of the engine that the specification states.
    With it the dashboard's rule for the id of a new post ([app.py],
    [streamlit_app.py]).

    Python values are modelled as the interpreter has them: [int] is [Z],
    [float] is IEEE 754 binary64 through the Standard Library's [SpecFloat]
    (round to nearest, ties to even), an exception is a value of [exn] carried
    by [result], and the file written by [csv.writer] is a list of lines. *)

From Stdlib Require Import ZArith List Bool Lia String Ascii QArith DecimalString.
From Stdlib Require Import DecimalPos DecimalZ.
From Stdlib Require Import Qpower Qabs Lqa.
From Stdlib Require Import Sorting.Sorted.
From Stdlib Require Import Floats.SpecFloat.
Import ListNotations.

Local Open Scope Z_scope.

(** ** Exceptions and results *)

Module Py.

(** The exception classes the engine can raise. *)
Inductive exn : Type :=
| ValueError
| KeyError
| OverflowError
| ZeroDivisionError.

Inductive result (A : Type) : Type :=
| Ok (a : A)
| Raise (e : exn).
Arguments Ok {A} a.
Arguments Raise {A} e.

Definition bind {A B : Type} (r : result A) (k : A -> result B) : result B :=
  match r with
  | Ok a => k a
  | Raise e => Raise e
  end.

Definition is_ok {A : Type} (r : result A) : bool :=
  match r with Ok _ => true | Raise _ => false end.

End Py.
Export Py.

Declare Scope py_scope.
Delimit Scope py_scope with py.
Notation "'let?' x ':=' c 'in' k" := (Py.bind c (fun x => k))
  (at level 10, x pattern, c at level 100, k at level 200) : py_scope.
Local Open Scope py_scope.

(** ** Python floats: IEEE 754 binary64 *)

Module F64.

Definition prec : Z := 53.
Definition emax : Z := 1024.

Definition float : Type := spec_float.

Definition mul : float -> float -> float := SFmul prec emax.
Definition add : float -> float -> float := SFadd prec emax.
Definition ltb : float -> float -> bool := SFltb.
Definition leb : float -> float -> bool := SFleb.

Definition is_zero (x : float) : bool :=
  match x with S754_zero _ => true | _ => false end.

(** The integer [z] as an exact, not yet rounded, floating-point datum. *)
Definition exact (z : Z) : float :=
  match z with
  | Z0 => S754_zero false
  | Zpos p => S754_finite false p 0
  | Zneg p => S754_finite true p 0
  end.

(** A result that rounded to an infinity is Python's OverflowError. *)
Definition finite_or_overflow (x : float) : result float :=
  match x with
  | S754_infinity _ => Raise OverflowError
  | _ => Ok x
  end.

(** [float(z)] for an int [z], as the implicit conversion of int operands
    does it: correctly rounded, OverflowError when too large. *)
Definition of_int (z : Z) : result float :=
  finite_or_overflow (binary_normalize prec emax z 0 false).

(** [a / b] on two ints: the correctly rounded quotient. *)
Definition int_truediv (a b : Z) : result float :=
  if b =? 0 then Raise ZeroDivisionError
  else finite_or_overflow (SFdiv prec emax (exact a) (exact b)).

(** [x / y] on two floats. *)
Definition truediv (x y : float) : result float :=
  if is_zero y then Raise ZeroDivisionError
  else Ok (SFdiv prec emax x y).

(** [int(x)]: truncation toward zero. *)
Definition to_int (x : float) : result Z :=
  match x with
  | S754_zero _ => Ok 0
  | S754_finite s m e =>
      Ok (cond_Zopp s (if 0 <=? e then Zpos m * 2 ^ e
                       else Zpos m / 2 ^ (- e)))
  | S754_infinity _ => Raise OverflowError
  | S754_nan => Raise ValueError
  end.

(** [math.floor(x)]. *)
Definition floor (x : float) : result Z :=
  match x with
  | S754_zero _ => Ok 0
  | S754_finite s m e =>
      Ok (if 0 <=? e then cond_Zopp s (Zpos m) * 2 ^ e
          else cond_Zopp s (Zpos m) / 2 ^ (- e))
  | S754_infinity _ => Raise OverflowError
  | S754_nan => Raise ValueError
  end.

(** [max(x, y)] of the builtin: the first argument unless the second is
    greater. *)
Definition max (x y : float) : float := if ltb x y then y else x.

(** C's [modf] as [datetime] uses it: the integral part as an int and the
    fractional part, both exact and with the sign of [x]. *)
Definition modf (x : float) : result (Z * float) :=
  match x with
  | S754_zero _ => Ok (0, x)
  | S754_finite s m e =>
      if 0 <=? e then Ok (cond_Zopp s (Zpos m * 2 ^ e), S754_zero s)
      else Ok (cond_Zopp s (Zpos m / 2 ^ (- e)),
               binary_normalize prec emax
                 (cond_Zopp s (Zpos m mod 2 ^ (- e))) e s)
  | S754_infinity _ => Raise OverflowError
  | S754_nan => Raise ValueError
  end.

(** Not below zero: a zero, a positive finite number, plus infinity, or
    a NaN (which no comparison puts below zero). *)
Definition not_negative (x : float) : bool :=
  match x with
  | S754_zero _ => true
  | S754_finite s _ _ => negb s
  | S754_infinity s => negb s
  | S754_nan => true
  end.

(** The literals the engine uses. *)
Definition zero : float := S754_zero false.
Definition one : float := S754_finite false 4503599627370496 (-52).
Definition twenty_four : float := S754_finite false 6755399441055744 (-48).

End F64.

(** ** Strings: the [str] methods the engine calls

    Text is ASCII here: [strip] removes the ASCII white space characters that
    [str.strip] removes and [lower] maps [A-Z] to [a-z]. *)

Module Str.

Definition code (c : ascii) : Z := Z.of_N (N_of_ascii c).

Definition is_space (c : ascii) : bool :=
  let n := code c in
  ((9 <=? n) && (n <=? 13)) || ((28 <=? n) && (n <=? 32)).

Definition is_digit (c : ascii) : bool :=
  let n := code c in (48 <=? n) && (n <=? 57).

Definition lower_char (c : ascii) : ascii :=
  let n := code c in
  if (65 <=? n) && (n <=? 90) then ascii_of_N (Z.to_N (n + 32)) else c.

Fixpoint lstrip_chars (s : list ascii) : list ascii :=
  match s with
  | c :: s' => if is_space c then lstrip_chars s' else s
  | [] => []
  end.

Definition strip_chars (s : list ascii) : list ascii :=
  rev (lstrip_chars (rev (lstrip_chars s))).

Definition strip (s : string) : string :=
  string_of_list_ascii (strip_chars (list_ascii_of_string s)).

Definition lower (s : string) : string :=
  string_of_list_ascii (map lower_char (list_ascii_of_string s)).

(** [s.endswith(c)] for a one-character suffix. *)
Definition endswith (s : string) (c : ascii) : bool :=
  match rev (list_ascii_of_string s) with
  | d :: _ => Ascii.eqb d c
  | [] => false
  end.

(** The slice [s[:-1]]. *)
Definition drop_last (s : string) : string :=
  string_of_list_ascii (removelast (list_ascii_of_string s)).

(** [str(z)] of an int. *)
Definition of_Z (z : Z) : string := NilZero.string_of_int (Z.to_int z).

End Str.

(** ** [float(s)] on a string

    The grammar of the builtin: optional white space around an optional sign
    and either [inf], [infinity], [nan] (in any case) or a decimal numeral with
    optional fraction and exponent, single underscores allowed between
    digits. The value is the correctly rounded binary64; a numeral too large
    becomes an infinity without an error. Around an ASCII text [float] skips
    the white space of C only, a smaller set than [str.strip] removes. *)

Module FloatParse.

Import Str.

(** The white space [float] skips: the space and [\t], [\n], [\v], [\f],
    [\r]. *)
Definition is_c_space (c : ascii) : bool :=
  let n := code c in ((9 <=? n) && (n <=? 13)) || (n =? 32).

Fixpoint skip_spaces (s : list ascii) : list ascii :=
  match s with
  | c :: s' => if is_c_space c then skip_spaces s' else s
  | [] => []
  end.

Definition trim (s : list ascii) : list ascii :=
  rev (skip_spaces (rev (skip_spaces s))).

(** Underscores may only stand between two digits; they are removed. *)
Fixpoint remove_underscores (prev : option ascii) (s : list ascii)
  : option (list ascii) :=
  match s with
  | [] =>
      match prev with
      | Some "_"%char => None
      | _ => Some []
      end
  | c :: s' =>
      if Ascii.eqb c "_" then
        match prev with
        | Some p => if is_digit p then remove_underscores (Some c) s' else None
        | None => None
        end
      else
        match prev with
        | Some "_"%char =>
            if is_digit c
            then option_map (cons c) (remove_underscores (Some c) s')
            else None
        | _ => option_map (cons c) (remove_underscores (Some c) s')
        end
  end.

(** Reads a run of digits: the number read so far, how many digits, and
    the rest of the text. *)
Fixpoint read_digits (s : list ascii) (acc cnt : Z) : Z * Z * list ascii :=
  match s with
  | c :: s' =>
      if is_digit c then read_digits s' (10 * acc + (code c - 48)) (cnt + 1)
      else (acc, cnt, s)
  | [] => (acc, cnt, [])
  end.

Definition read_sign (s : list ascii) : bool * list ascii :=
  match s with
  | "-"%char :: s' => (true, s')
  | "+"%char :: s' => (false, s')
  | _ => (false, s)
  end.

(** The correctly rounded value of [(-1)^neg * m * 10^e10]. *)
Definition of_decimal (neg : bool) (m e10 : Z) : F64.float :=
  if m =? 0 then S754_zero neg
  else if 0 <=? e10
       then binary_normalize F64.prec F64.emax
              (cond_Zopp neg (m * 10 ^ e10)) 0 false
       else SFdiv F64.prec F64.emax
              (F64.exact (cond_Zopp neg m)) (F64.exact (10 ^ (- e10))).

(** The optional exponent part; nothing may follow it. *)
Definition read_exponent (s : list ascii) : option Z :=
  match s with
  | [] => Some 0
  | c :: s' =>
      if Ascii.eqb (lower_char c) "e" then
        let '(neg, s1) := read_sign s' in
        match read_digits s1 0 0 with
        | (x, cnt, []) => if 0 <? cnt then Some (cond_Zopp neg x) else None
        | _ => None
        end
      else None
  end.

Definition read_number (neg : bool) (s : list ascii) : option F64.float :=
  let '(ip, n1, s1) := read_digits s 0 0 in
  let '(m, n2, s2) :=
    match s1 with
    | "."%char :: s1' => read_digits s1' ip 0
    | _ => (ip, 0, s1)
    end in
  if 0 <? n1 + n2 then
    match read_exponent s2 with
    | Some x => Some (of_decimal neg m (x - n2))
    | None => None
    end
  else None.

Definition is_word (w : string) (s : list ascii) : bool :=
  String.eqb (string_of_list_ascii (map lower_char s)) w.

Definition py_float (s : string) : result F64.float :=
  match remove_underscores None (trim (list_ascii_of_string s)) with
  | None => Raise ValueError
  | Some txt =>
      let '(neg, body) := read_sign txt in
      if is_word "inf" body || is_word "infinity" body
      then Ok (S754_infinity neg)
      else if is_word "nan" body then Ok S754_nan
      else match read_number neg body with
           | Some x => Ok x
           | None => Raise ValueError
           end
  end.

End FloatParse.

(** ** [datetime.timedelta] and [datetime.datetime]

    A [timedelta] is its count of microseconds; a [datetime] is its wall-clock
    reading in microseconds since 0001-01-01 00:00:00 with its [tzinfo]. Both
    constructors refuse values outside the ranges of the library. *)

Module Datetime.

Definition timedelta : Type := Z.

Definition US_PER_SECOND : Z := 1000000.
Definition US_PER_MINUTE : Z := 60000000.
Definition US_PER_HOUR : Z := 3600000000.
Definition US_PER_DAY : Z := 86400000000.
Definition MAX_DELTA_DAYS : Z := 999999999.

(** The range check every new [timedelta] passes through. *)
Definition new_delta (us : Z) : result timedelta :=
  let days := us / US_PER_DAY in
  if (- MAX_DELTA_DAYS <=? days) && (days <=? MAX_DELTA_DAYS)
  then Ok us else Raise OverflowError.

(** Rounding of the fraction of a microsecond that is left over: to the
    nearest, a tie toward the even total. *)
Definition round_leftover (y : Z) (l : F64.float) : Z :=
  match l with
  | S754_finite s m e =>
      match 2 * Zpos m ?= 2 ^ (- e) with
      | Lt => 0
      | Gt => cond_Zopp s 1
      | Eq => if Z.odd y then cond_Zopp s 1 else 0
      end
  | _ => 0
  end.

(** [timedelta(unit=x)] for a float [x], [factor] microseconds per unit. *)
Definition delta_of_float (factor : Z) (x : F64.float) : result timedelta :=
  let? (ip, fp) := F64.modf x in
  let sum := ip * factor in
  if F64.is_zero fp then new_delta sum
  else
    let? ffactor := F64.of_int factor in
    let? (ip2, fp2) := F64.modf (F64.mul ffactor fp) in
    let y := sum + ip2 in
    new_delta (y + round_leftover y fp2).

(** [timedelta(seconds=n)] for an int [n]. *)
Definition delta_of_seconds (n : Z) : result timedelta :=
  new_delta (n * US_PER_SECOND).

Definition delta_sub (a b : timedelta) : result timedelta := new_delta (a - b).

(** [td.total_seconds()]. *)
Definition total_seconds (td : timedelta) : result F64.float :=
  F64.int_truediv td US_PER_SECOND.

(** The [tzinfo] a start time can carry: the engine's configured zone
    object, attached to a naive start time, or the fixed offset that
    [fromisoformat] read from the text. *)
Inductive tzinfo : Type :=
| TzEngine
| TzFixed (utcoffset : timedelta).

Record datetime : Type := mkDatetime { dt_wall : Z; dt_tz : tzinfo }.

(** One past 9999-12-31 23:59:59.999999. *)
Definition MAX_WALL : Z := 3652059 * US_PER_DAY.

Definition shift_wall (w : Z) (d : timedelta) : result Z :=
  let w' := w + d in
  if (0 <=? w') && (w' <? MAX_WALL) then Ok w' else Raise OverflowError.

(** [t + step]. *)
Definition dt_add (t : datetime) (step : timedelta) : result datetime :=
  let? w := shift_wall (dt_wall t) step in
  Ok (mkDatetime w (dt_tz t)).

Definition hour_of_wall (w : Z) : Z := (w / US_PER_HOUR) mod 24.

(** [t.astimezone(tz).hour], [zone] giving the configured zone's offset
    from UTC at a UTC reading. A datetime that already carries the
    configured zone object is returned as it is. *)
Definition astimezone_hour (zone : Z -> timedelta) (t : datetime) : result Z :=
  match dt_tz t with
  | TzEngine => Ok (hour_of_wall (dt_wall t))
  | TzFixed off =>
      let? utc := shift_wall (dt_wall t) (- off) in
      let? loc := shift_wall utc (zone utc) in
      Ok (hour_of_wall loc)
  end.

End Datetime.
Import Datetime.

(** ** [parse_tick] *)

Definition parse_tick (s : string) : result timedelta :=
  let s := Str.lower (Str.strip s) in
  if Str.endswith s "h" then
    let? hours := FloatParse.py_float (Str.drop_last s) in
    delta_of_float US_PER_HOUR hours
  else if Str.endswith s "m" then
    let? minutes := FloatParse.py_float (Str.drop_last s) in
    delta_of_float US_PER_MINUTE minutes
  else if Str.endswith s "s" then
    let? seconds := FloatParse.py_float (Str.drop_last s) in
    delta_of_float US_PER_SECOND seconds
  else Raise ValueError.

(** ** The linear congruential generator of [rng_from_seed] *)

Definition MASK64 : Z := 0xFFFFFFFFFFFFFFFF.

(** [RNG.__init__]: the state is the seed's low 64 bits, or the fixed
    constant when those are zero. *)
Definition rng_from_seed (seed_int : Z) : Z :=
  let s := Z.land seed_int MASK64 in
  if s =? 0 then 0xDEADBEEFCAFEBABE else s.

Definition lcg_next (state : Z) : Z :=
  Z.land (6364136223846793005 * state + 1) MASK64.

(** [RNG.randint_inclusive]: the state after the call (it is advanced before
    anything can fail) and the value returned. *)
Definition randint_inclusive (state a b : Z) : Z * result Z :=
  let state' := lcg_next state in
  let span := b - a + 1 in
  (state',
   let? frac := F64.int_truediv state' (2 ^ 64) in
   let? fspan := F64.of_int span in
   let? k := F64.to_int (F64.mul frac fspan) in
   Ok (a + k)).

(** [RNG.rand]. *)
Definition rand (state : Z) : Z * result F64.float :=
  let state' := lcg_next state in
  (state', F64.int_truediv state' (2 ^ 64)).

(** ** [hashlib.sha256]

    SHA-256 over a list of bytes, as FIPS 180-4 defines it; words are [Z]
    below [2^32]. *)

Module SHA256.

Definition w32 (x : Z) : Z := Z.land x 0xFFFFFFFF.

Definition rotr (n x : Z) : Z :=
  Z.lor (Z.shiftr x n) (w32 (Z.shiftl x (32 - n))).

(** The constants are fractional bits of roots of the first primes:
    [iroot k n] is the integer part of the [k]-th root of [n], found bit by
    bit from the top. *)
Definition is_prime (n : Z) : bool :=
  forallb (fun d => negb (n mod d =? 0))
          (map Z.of_nat (seq 2 (Z.to_nat n - 2))).

Definition primes : list Z := filter is_prime (map Z.of_nat (seq 2 310)).

Definition iroot (k n : Z) : Z :=
  fold_left (fun r b => if (r + 2 ^ b) ^ k <=? n then r + 2 ^ b else r)
            (map Z.of_nat (rev (seq 0 48))) 0.

(** The first 32 fractional bits of the cube roots of the first 64 primes. *)
Definition K : list Z :=
  Eval vm_compute in map (fun p => w32 (iroot 3 (p * 2 ^ 96))) (firstn 64 primes).

(** The first 32 fractional bits of the square roots of the first 8 primes. *)
Definition H0 : list Z :=
  Eval vm_compute in map (fun p => w32 (iroot 2 (p * 2 ^ 64))) (firstn 8 primes).

(** Big-endian bytes of [x], [n] of them. *)
Fixpoint be_bytes (n : nat) (x : Z) : list Z :=
  match n with
  | O => []
  | S n' => Z.land (Z.shiftr x (8 * Z.of_nat n')) 255 :: be_bytes n' x
  end.

(** [int.from_bytes(bs, "big", signed=False)]. *)
Definition from_be_bytes (bs : list Z) : Z :=
  fold_left (fun acc b => 256 * acc + b) bs 0.

(** The message, the bit 1, zeros up to 56 modulo 64, the bit length. *)
Definition pad (msg : list Z) : list Z :=
  let n := Z.of_nat (List.length msg) in
  let zeros := Z.to_nat ((55 - n) mod 64) in
  msg ++ [128] ++ repeat 0 zeros ++ be_bytes 8 (8 * n).

Fixpoint words (n : nat) (bs : list Z) : list Z :=
  match n with
  | O => []
  | S n' => from_be_bytes (firstn 4 bs) :: words n' (skipn 4 bs)
  end.

Definition sigma0 (x : Z) : Z :=
  Z.lxor (Z.lxor (rotr 7 x) (rotr 18 x)) (Z.shiftr x 3).
Definition sigma1 (x : Z) : Z :=
  Z.lxor (Z.lxor (rotr 17 x) (rotr 19 x)) (Z.shiftr x 10).
Definition Sigma0 (x : Z) : Z :=
  Z.lxor (Z.lxor (rotr 2 x) (rotr 13 x)) (rotr 22 x).
Definition Sigma1 (x : Z) : Z :=
  Z.lxor (Z.lxor (rotr 6 x) (rotr 11 x)) (rotr 25 x).
Definition Ch (x y z : Z) : Z :=
  Z.lxor (Z.land x y) (Z.land (Z.lxor x 0xFFFFFFFF) z).
Definition Maj (x y z : Z) : Z :=
  Z.lxor (Z.lxor (Z.land x y) (Z.land x z)) (Z.land y z).

(** The message schedule, newest word first: [rw] holds W[t-1], W[t-2], ... *)
Fixpoint schedule (n : nat) (rw : list Z) : list Z :=
  match n with
  | O => rw
  | S n' =>
      let w := w32 (nth 15 rw 0 + sigma0 (nth 14 rw 0)
                    + nth 6 rw 0 + sigma1 (nth 1 rw 0)) in
      schedule n' (w :: rw)
  end.

Definition round (h : list Z) (kw : Z * Z) : list Z :=
  match h with
  | [a; b; c; d; e; f; g; hh] =>
      let t1 := w32 (hh + Sigma1 e + Ch e f g + fst kw + snd kw) in
      let t2 := w32 (Sigma0 a + Maj a b c) in
      [w32 (t1 + t2); a; b; c; w32 (d + t1); e; f; g]
  | _ => h
  end.

Definition compress (h : list Z) (block : list Z) : list Z :=
  let w := rev (schedule 48 (rev (words 16 block))) in
  let h' := fold_left round (combine K w) h in
  map (fun xy => w32 (fst xy + snd xy)) (combine h h').

Fixpoint blocks (n : nat) (h : list Z) (bs : list Z) : list Z :=
  match n with
  | O => h
  | S n' => blocks n' (compress h (firstn 64 bs)) (skipn 64 bs)
  end.

Definition digest (msg : list Z) : list Z :=
  let m := pad msg in
  flat_map (be_bytes 4) (blocks (List.length m / 64) H0 m).

End SHA256.

(** [s.encode("utf-8")] of a text whose characters are its bytes. *)
Definition encode (s : string) : list Z :=
  map Str.code (list_ascii_of_string s).

(** ** [seed_for_post] *)

Definition seed_for_post (global_seed : Z) (post_id : string) (seed_offset : Z)
  : Z :=
  let text := (Str.of_Z global_seed ++ "|" ++ post_id ++ "|"
               ++ Str.of_Z seed_offset)%string in
  let h := SHA256.digest (encode text) in
  SHA256.from_be_bytes (firstn 8 h).

(** ** Dictionaries with string keys, in insertion order *)

Definition dict (V : Type) : Type := list (string * V).

Fixpoint dict_get {V : Type} (d : dict V) (k : string) : option V :=
  match d with
  | [] => None
  | (k', v) :: d' => if String.eqb k' k then Some v else dict_get d' k
  end.

Definition dict_keys {V : Type} (d : dict V) : list string := map fst d.
Definition dict_values {V : Type} (d : dict V) : list V := map snd d.

(** ** [normalize_weights]

    The function only adds, divides and compares with zero, so it is written
    over an interface of these operations, which the binary64 floats that
    Python runs it on provide. Keys are the strings ["0"] to ["23"] and
    values floats, as the source notes, so [str(k)] and [float(v)] leave
    them as they are. *)

Class PyReal (F : Type) : Type := {
  r_of_int : Z -> F;
  r_add : F -> F -> F;
  r_div : F -> F -> F;
  r_le0 : F -> bool
}.

#[export] Instance F64_real : PyReal F64.float := {
  r_of_int z := binary_normalize F64.prec F64.emax z 0 false;
  r_add := F64.add;
  r_div := SFdiv F64.prec F64.emax;
  r_le0 x := F64.leb x F64.zero
}.

Section Weights.

Context {F : Type} `{PyReal F}.

(** [sum(...)]: from the int 0, left to right. *)
Definition py_sum (vs : list F) : F := fold_left r_add vs (r_of_int 0).

Definition uniform_weight : F := r_div (r_of_int 1) (r_of_int 24).

(** The division is reached only with a total that is not zero. *)
Definition normalize_weights (wdict : dict F) : dict F :=
  let total := py_sum (dict_values wdict) in
  if r_le0 total then
    map (fun h => (Str.of_Z (Z.of_nat h), uniform_weight)) (seq 0 24)
  else
    map (fun kv => (fst kv, r_div (snd kv) total)) wdict.

End Weights.

Definition mean_weight_norm : F64.float :=
  SFdiv F64.prec F64.emax F64.one F64.twenty_four.

(** [normalize_weights] on floats with every division as Python performs
    it: [x / y] raises ZeroDivisionError on a [y] that is zero. *)
Fixpoint divide_values (total : F64.float) (wdict : dict F64.float)
  : result (dict F64.float) :=
  match wdict with
  | [] => Ok []
  | (k, v) :: rest =>
      let? q := F64.truediv v total in
      let? rest' := divide_values total rest in
      Ok ((k, q) :: rest')
  end.

Definition normalize_weights_checked (wdict : dict F64.float)
  : result (dict F64.float) :=
  let total := py_sum (dict_values wdict) in
  if F64.leb total F64.zero then
    let? u := F64.truediv F64.one F64.twenty_four in
    Ok (map (fun h => (Str.of_Z (Z.of_nat h), u)) (seq 0 24))
  else divide_values total wdict.

(** ** The engine's inputs and output *)

(** An entry of the stage table, which is keyed by the stage id as text. *)
Record stage_cfg : Type := mkStage { views_min : Z; views_max : Z }.

(** The value of [tick_duration]: one duration text, or a mapping with
    optional [min] and [max]. *)
Inductive tick_cfg : Type :=
| TickText (s : string)
| TickDict (tmin tmax : option string).

(** The engine parameters. [timezone] is the zone that [ZoneInfo] makes of
    the configured name, given by its offset from UTC at each UTC reading;
    a key the file may leave out is an [option]. *)
Record engine_cfg : Type := mkEngine {
  timezone : Z -> timedelta;
  tick_duration : option tick_cfg;
  increment_min : Z;
  increment_max : Z;
  hourly_weights : dict F64.float;
  limits_max_hours : option Z;
  limits_system_hour_cap : option Z
}.

(** What [datetime.fromisoformat] read: the wall-clock reading and the UTC
    offset when the text has one. *)
Record start_time : Type := mkStart { start_wall : Z; start_offset : option timedelta }.

(** A row of the posts file; [seed_offset] may be missing. *)
Record post : Type := mkPost {
  post_id : string;
  stage : string;
  start_datetime : start_time;
  seed_offset : option Z
}.

(** A data line as handed to [writer.writerow]; [row_datetime] is the text of
    [isoformat_tz], kept as the count of whole seconds it prints. *)
Record row : Type := mkRow {
  row_no : Z;
  row_post_id : string;
  views_inc : Z;
  cum_views : Z;
  row_datetime : Z
}.

Inductive line : Type :=
| Header
| Data (r : row).

(** The output file: what it holds, and whether a handle on it is open. *)
Record out_file : Type := mkOut { out_lines : list line; out_open : bool }.

(** [dt.strftime("%Y-%m-%d %H:%M:%S")]: the wall-clock reading, to the second. *)
Definition isoformat_tz (dt : datetime) : Z := dt_wall dt / US_PER_SECOND.

(** ** The per-post loop of [simulate] *)

Inductive tick_spec : Type :=
| Fixed (tick_fixed : timedelta)
| Ranged (tick_min tick_max : timedelta).

(** What the loop body reads and never writes. *)
Record loop_env : Type := mkEnv {
  env_tz : Z -> timedelta;
  env_tick : tick_spec;
  env_inc_min : Z;
  env_inc_max : Z;
  env_weights : dict F64.float;
  env_cap : option Z;
  env_post_id : string;
  env_target : Z
}.

(** What the loop body updates. *)
Record loop_state : Type := mkLoop {
  ls_rng : Z;
  ls_cum : Z;
  ls_t : datetime;
  ls_row_no : Z
}.

(** How one pass through the body ends. *)
Inductive control : Type :=
| Continue
| BreakNoRemaining
| BreakTarget
| Fail (e : exn).

(** [int(math.floor(max(0.0, base * (w / MW))))]. *)
Definition weighted_increment (w : F64.float) (base : Z) : result Z :=
  let? ratio := F64.truediv w mean_weight_norm in
  let? fbase := F64.of_int base in
  F64.floor (F64.max F64.zero (F64.mul fbase ratio)).

Definition apply_cap (cap : option Z) (inc : Z) : Z :=
  match cap with
  | Some c => Z.min inc c
  | None => inc
  end.

(** The bounds, except when finishing with what remains. *)
Definition clamp_increment (inc_min inc_max remaining inc : Z) : Z :=
  if remaining <=? inc_min then remaining
  else Z.min (Z.min (Z.max inc inc_min) inc_max) remaining.

(** The interval to the next tick, with the generator's state after it. *)
Definition next_step (spec : tick_spec) (rng : Z) : Z * result timedelta :=
  match spec with
  | Fixed d => (rng, Ok d)
  | Ranged lo hi =>
      match (let? d := delta_sub hi lo in total_seconds d) with
      | Raise e => (rng, Raise e)
      | Ok span_seconds =>
          match total_seconds lo with
          | Raise e => (rng, Raise e)
          | Ok lo_seconds =>
              let (rng', u) := rand rng in
              (rng',
               let? u := u in
               let step_seconds := F64.add lo_seconds (F64.mul u span_seconds) in
               let? n := F64.to_int step_seconds in
               delta_of_seconds n)
          end
      end
  end.

Definition set_rng (s : loop_state) (rng : Z) : loop_state :=
  mkLoop rng (ls_cum s) (ls_t s) (ls_row_no s).

(** One pass through the body of [for k in range(max_hours)]: the state
    after it, the row written if any, and how the pass ends. *)
Definition tick (e : loop_env) (s : loop_state)
  : loop_state * list row * control :=
  match astimezone_hour (env_tz e) (ls_t s) with
  | Raise x => (s, [], Fail x)
  | Ok hour_local =>
      let w := match dict_get (env_weights e) (Str.of_Z hour_local) with
               | Some w => w
               | None => uniform_weight
               end in
      let (rng1, base) := randint_inclusive (ls_rng s) (env_inc_min e) (env_inc_max e) in
      let s1 := set_rng s rng1 in
      match (let? base := base in weighted_increment w base) with
      | Raise x => (s1, [], Fail x)
      | Ok inc =>
          let inc := apply_cap (env_cap e) inc in
          let remaining := env_target e - ls_cum s1 in
          if remaining <=? 0 then (s1, [], BreakNoRemaining)
          else
            let inc := clamp_increment (env_inc_min e) (env_inc_max e) remaining inc in
            let '(s2, rows) :=
              if 0 <? inc then
                let next_cum := ls_cum s1 + inc in
                (mkLoop (ls_rng s1) next_cum (ls_t s1) (ls_row_no s1 + 1),
                 [mkRow (ls_row_no s1) (env_post_id e) inc next_cum
                        (isoformat_tz (ls_t s1))])
              else (s1, []) in
            if (0 <? inc) && (env_target e <=? ls_cum s2) then (s2, rows, BreakTarget)
            else
              let (rng2, step) := next_step (env_tick e) (ls_rng s2) in
              let s3 := set_rng s2 rng2 in
              match (let? step := step in dt_add (ls_t s3) step) with
              | Raise x => (s3, rows, Fail x)
              | Ok t' => (mkLoop (ls_rng s3) (ls_cum s3) t' (ls_row_no s3), rows, Continue)
              end
      end
  end.

(** How the loop of one post ends. *)
Inductive loop_exit : Type :=
| RangeExhausted
| NoRemaining
| TargetReached
| Raised (e : exn).

Record loop_result : Type := mkResult {
  lr_state : loop_state;
  lr_rows : list row;
  lr_exit : loop_exit;
  lr_passes : nat
}.

(** [for k in range(n)] over the body: the state it leaves, the rows written
    in order, how it ended and how many passes it made. The body does not
    read [k]. *)
Fixpoint for_range (n : nat) (e : loop_env) (s : loop_state) : loop_result :=
  match n with
  | O => mkResult s [] RangeExhausted 0
  | S n' =>
      match tick e s with
      | (s', rows, Continue) =>
          let r := for_range n' e s' in
          mkResult (lr_state r) (rows ++ lr_rows r) (lr_exit r) (S (lr_passes r))
      | (s', rows, BreakNoRemaining) => mkResult s' rows NoRemaining 1
      | (s', rows, BreakTarget) => mkResult s' rows TargetReached 1
      | (s', rows, Fail x) => mkResult s' rows (Raised x) 1
      end
  end.

(** ** [simulate] *)

(** What [simulate] computes from the configuration before the first post. *)
Record run_env : Type := mkRun {
  run_seed : Z;
  run_stage_map : dict stage_cfg;
  run_tz : Z -> timedelta;
  run_tick : tick_spec;
  run_inc_min : Z;
  run_inc_max : Z;
  run_weights_norm : dict F64.float;
  run_max_hours : Z;
  run_cap : option Z
}.

Definition or_default {A : Type} (o : option A) (d : A) : A :=
  match o with Some a => a | None => d end.

(** A start time without a zone is given the engine's. *)
Definition localize (st : start_time) : datetime :=
  mkDatetime (start_wall st)
    (match start_offset st with
     | None => TzEngine
     | Some off => TzFixed off
     end).

Definition post_env (g : run_env) (p : post) (target : Z) : loop_env :=
  mkEnv (run_tz g) (run_tick g) (run_inc_min g) (run_inc_max g)
        (run_weights_norm g) (run_cap g) (post_id p) target.

(** The generator of a post as it stands before the target is drawn. *)
Definition post_rng (g : run_env) (p : post) : Z :=
  rng_from_seed (seed_for_post (run_seed g) (post_id p)
                   (or_default (seed_offset p) 0)).

(** The body of [for r in rows], from row number [no]: the rows written,
    the next row number and whether an exception left the body. *)
Definition simulate_post (g : run_env) (p : post) (no : Z)
  : list row * Z * result unit :=
  match dict_get (run_stage_map g) (Str.strip (stage p)) with
  | None => ([], no, Raise KeyError)
  | Some sc =>
      match randint_inclusive (post_rng g p) (views_min sc) (views_max sc) with
      | (_, Raise x) => ([], no, Raise x)
      | (rng, Ok target) =>
          let r := for_range (Z.to_nat (run_max_hours g)) (post_env g p target)
                     (mkLoop rng 0 (localize (start_datetime p)) no) in
          (lr_rows r, ls_row_no (lr_state r),
           match lr_exit r with
           | Raised x => Raise x
           | _ => Ok tt
           end)
      end
  end.

Fixpoint simulate_posts (g : run_env) (ps : list post) (no : Z)
  : list row * result unit :=
  match ps with
  | [] => ([], Ok tt)
  | p :: ps' =>
      match simulate_post g p no with
      | (rows, no', Ok _) =>
          let (rows', res) := simulate_posts g ps' no' in (rows ++ rows', res)
      | (rows, _, Raise x) => (rows, Raise x)
      end
  end.

(** The tick durations of the configuration; an inverted range is swapped. *)
Definition tick_spec_of (cfg : option tick_cfg) : result tick_spec :=
  match or_default cfg (TickText "1h"%string) with
  | TickDict tmin tmax =>
      let? tick_min := parse_tick (or_default tmin "1h"%string) in
      let? tick_max := parse_tick (or_default tmax "1h"%string) in
      Ok (if tick_max <? tick_min then Ranged tick_max tick_min
          else Ranged tick_min tick_max)
  | TickText s =>
      let? tick_fixed := parse_tick s in
      Ok (Fixed tick_fixed)
  end.

Definition run_env_of (stages_cfg : dict stage_cfg) (engine : engine_cfg)
  (seed : Z) (spec : tick_spec) : run_env :=
  mkRun seed stages_cfg (timezone engine) spec
        (increment_min engine) (increment_max engine)
        (normalize_weights (hourly_weights engine))
        (or_default (limits_max_hours engine) 336)
        (limits_system_hour_cap engine).

(** [simulate], the files named by its arguments given by what they hold:
    the stage table, the engine parameters, the posts, and the output file
    as the run finds it. The result is the output file as the run leaves
    it, and [Ok] or the exception that ended the run. *)
Definition simulate (stages_cfg : dict stage_cfg) (engine : engine_cfg)
  (posts : list post) (seed : Z) (out : out_file) : out_file * result unit :=
  match tick_spec_of (tick_duration engine) with
  | Raise x => (out, Raise x)
  | Ok spec =>
      let g := run_env_of stages_cfg engine seed spec in
      match simulate_posts g posts 1 with
      | (rows, Ok _) => (mkOut (Header :: map Data rows) false, Ok tt)
      | (rows, Raise x) => (mkOut (Header :: map Data rows) true, Raise x)
      end
  end.

(** ** The dashboard's id for a new post

    Both dashboards compute the id of the next post from the ids of the
    posts they hold: one more than the largest id written in digits, or
    1001 when there is none. *)

Fixpoint all_digits (s : string) : bool :=
  match s with
  | EmptyString => true
  | String c s' => Str.is_digit c && all_digits s'
  end.

(** [s.isdigit()]: not empty, and every character a digit. *)
Definition isdigit (s : string) : bool :=
  match s with
  | EmptyString => false
  | _ => all_digits s
  end.

(** The longest numeral that [int] converts: the interpreter's default limit
    on the conversion between integers and text. *)
Definition MAX_STR_DIGITS : Z := 4300.

(** [int(s)] for a text of decimal digits. *)
Definition int_of_digits (s : string) : result Z :=
  if MAX_STR_DIGITS <? Z.of_nat (String.length s) then Raise ValueError
  else match NilZero.uint_of_string s with
       | Some d => Ok (Z.of_uint d)
       | None => Raise ValueError
       end.

(** [[int(post['post_id']) for post in posts_data if post['post_id'].isdigit()]],
    the posts given by their ids. *)
Fixpoint existing_ids (post_ids : list string) : result (list Z) :=
  match post_ids with
  | [] => Ok []
  | i :: rest =>
      if isdigit i then
        let? n := int_of_digits i in
        let? ns := existing_ids rest in
        Ok (n :: ns)
      else existing_ids rest
  end.

(** [next_id]: 1001 without posts or without an id in digits, otherwise
    [max(existing_ids) + 1]. *)
Definition next_id (post_ids : list string) : result Z :=
  match post_ids with
  | [] => Ok 1001
  | _ =>
      let? ids := existing_ids post_ids in
      match ids with
      | [] => Ok 1001
      | n :: ns => Ok (fold_left Z.max ns n + 1)
      end
  end.

(** [str(n)]: ValueError for an int of more decimal digits than the
    interpreter converts, that is from [10 ^ MAX_STR_DIGITS] on. *)
Definition py_str (n : Z) : result string :=
  if 10 ^ MAX_STR_DIGITS <=? Z.abs n then Raise ValueError
  else Ok (Str.of_Z n).

(** The id as the form for one new post shows it:
    [str(max(existing_ids) + 1) if existing_ids else "1001"]. *)
Definition next_id_text (post_ids : list string) : result string :=
  match post_ids with
  | [] => Ok "1001"%string
  | _ =>
      let? ids := existing_ids post_ids in
      match ids with
      | [] => Ok "1001"%string
      | n :: ns => py_str (fold_left Z.max ns n + 1)
      end
  end.

(** ** What the properties speak of *)

(** The suffixes [parse_tick] knows, each with its unit in microseconds. *)
Definition tick_units : list (ascii * Z) :=
  [ ("h"%char, US_PER_HOUR); ("m"%char, US_PER_MINUTE); ("s"%char, US_PER_SECOND) ].

(** The generator as a pass leaves it after drawing its base increment. *)
Definition pass_rng (e : loop_env) (s : loop_state) : Z :=
  fst (randint_inclusive (ls_rng s) (env_inc_min e) (env_inc_max e)).

(** The hour-weighted increment a pass computes before the cap and the
    clamp: the first lines of the loop body. *)
Definition pass_increment (e : loop_env) (s : loop_state) : result Z :=
  let? hour_local := astimezone_hour (env_tz e) (ls_t s) in
  let w := match dict_get (env_weights e) (Str.of_Z hour_local) with
           | Some w => w
           | None => uniform_weight
           end in
  let? base := snd (randint_inclusive (ls_rng s) (env_inc_min e) (env_inc_max e)) in
  weighted_increment w base.

(** What a pass that gets as far as the clamp does with the increment [inc]
    it settles on: the row it writes, and the state it leaves. *)
Definition written (e : loop_env) (s : loop_state) (inc : Z) : list row :=
  if 0 <? inc
  then [mkRow (ls_row_no s) (env_post_id e) inc (ls_cum s + inc)
              (isoformat_tz (ls_t s))]
  else [].

(** Every way [tick] can end. Either it stops before the clamp, with
    nothing written and nothing changed but the generator: the target is
    already reached, or an exception was raised. Or it clamps some
    hour-weighted increment [inc0], writes the row of the clamped increment
    when that is positive, and then breaks on the target, fails, or moves
    the clock by the next step. *)
Definition tick_post (e : loop_env) (s s' : loop_state) (rows : list row)
  (c : control) : Prop :=
  (rows = [] /\ ls_cum s' = ls_cum s /\ ls_t s' = ls_t s /\
   ls_row_no s' = ls_row_no s /\
   ((c = BreakNoRemaining /\ env_target e <= ls_cum s) \/ exists x, c = Fail x))
  \/
  (exists inc0 : Z,
      let inc := clamp_increment (env_inc_min e) (env_inc_max e)
                   (env_target e - ls_cum s) (apply_cap (env_cap e) inc0) in
      pass_increment e s = Ok inc0 /\
      ls_cum s < env_target e /\
      rows = written e s inc /\
      ls_cum s' = (if 0 <? inc then ls_cum s + inc else ls_cum s) /\
      ls_row_no s' = (if 0 <? inc then ls_row_no s + 1 else ls_row_no s) /\
      ((c = BreakTarget /\ 0 < inc /\ env_target e <= ls_cum s + inc /\
        ls_t s' = ls_t s)
       \/ ((exists x, c = Fail x) /\ ls_t s' = ls_t s)
       \/ (c = Continue /\ (0 < inc -> ls_cum s + inc < env_target e) /\
           exists step,
             snd (next_step (env_tick e) (pass_rng e s)) = Ok step /\
             dt_add (ls_t s) step = Ok (ls_t s')))).

(** Every configured duration is a non-negative length of time. *)
Definition durations_nonneg (spec : tick_spec) : Prop :=
  match spec with
  | Fixed d => 0 <= d
  | Ranged lo hi => 0 <= lo /\ 0 <= hi
  end.

(** A range is used lower end first. *)
Definition range_ordered (spec : tick_spec) : Prop :=
  match spec with
  | Fixed _ => True
  | Ranged lo hi => lo <= hi
  end.

(** Row [r1] comes before row [r2] of the same post. *)
Definition row_before (r1 r2 : row) : Prop :=
  cum_views r1 < cum_views r2 /\ row_datetime r1 <= row_datetime r2.

(** The row numbers [no], [no + 1], ..., [n] of them. *)
Definition count_from (no : Z) (n : nat) : list Z :=
  map (fun k => no + Z.of_nat k) (seq 0 n).

(** The totals that run up from [start] as the increments [incs] are
    added one after the other. *)
Fixpoint running_totals (start : Z) (incs : list Z) : list Z :=
  match incs with
  | [] => []
  | inc :: incs' => (start + inc) :: running_totals (start + inc) incs'
  end.

(** The row [r] with its number moved by [d]. *)
Definition renumber (d : Z) (r : row) : row :=
  mkRow (row_no r + d) (row_post_id r) (views_inc r) (cum_views r)
        (row_datetime r).

(** The loop state [s] with its row counter moved by [d]. *)
Definition shift_row_no (d : Z) (s : loop_state) : loop_state :=
  mkLoop (ls_rng s) (ls_cum s) (ls_t s) (ls_row_no s + d).

(** *** The numerals of [float]

    What [float] accepts, said without the parser: around the numeral the
    white space of C; in it, underscores only between two digits; and
    without them an optional sign before [inf], [infinity] or [nan] in any
    case, or before decimal digits with an optional point and an optional
    exponent, at least one digit before or after the point. *)

Definition is_sign (l : list ascii) : Prop :=
  l = [] \/ l = ["+"%char] \/ l = ["-"%char].

Definition digits (l : list ascii) : Prop :=
  Forall (fun c => Str.is_digit c = true) l.

Definition ends_in_digit (l : list ascii) : Prop :=
  exists l' d, l = l' ++ [d] /\ Str.is_digit d = true.

Definition starts_with_digit (l : list ascii) : Prop :=
  exists d l', l = d :: l' /\ Str.is_digit d = true.

Definition underscores_between_digits (l : list ascii) : Prop :=
  forall a b, l = a ++ "_"%char :: b -> ends_in_digit a /\ starts_with_digit b.

Definition without_underscores (l : list ascii) : list ascii :=
  filter (fun c => negb (Ascii.eqb c "_")) l.

Definition exponent_part (l : list ascii) : Prop :=
  l = [] \/
  exists c sg ds, l = c :: sg ++ ds /\ Str.lower_char c = "e"%char /\
                  is_sign sg /\ ds <> [] /\ digits ds.

Definition decimal_numeral (l : list ascii) : Prop :=
  exists ip fp ex,
    digits ip /\ digits fp /\ exponent_part ex /\
    ((l = ip ++ ex /\ ip <> []) \/
     (l = ip ++ "."%char :: fp ++ ex /\ (ip <> [] \/ fp <> []))).

Definition special_numeral (l : list ascii) : Prop :=
  In (string_of_list_ascii (map Str.lower_char l))
     ["inf"; "infinity"; "nan"]%string.

Definition float_literal (t : string) : Prop :=
  let l := FloatParse.trim (list_ascii_of_string t) in
  underscores_between_digits l /\
  exists sg body,
    without_underscores l = sg ++ body /\ is_sign sg /\
    (special_numeral body \/ decimal_numeral body).

(** The character before the text still to be read. *)
Definition prev_of (a : list ascii) : option ascii :=
  match rev a with
  | [] => None
  | c :: _ => Some c
  end.

Definition is_under (prev : option ascii) : bool :=
  match prev with
  | Some p => Ascii.eqb p "_"
  | None => false
  end.

(** What is asked of the text [b] still to be read after [a]: every
    underscore in it stands between digits, and a digit comes first if
    [a] ends in an underscore. *)
Definition under_ok (a b : list ascii) : Prop :=
  (forall x y, b = x ++ "_"%char :: y ->
               ends_in_digit (a ++ x) /\ starts_with_digit y) /\
  (is_under (prev_of a) = true -> starts_with_digit b).

(** Every character is one of the 128 of ASCII. *)
Definition is_ascii (s : string) : bool :=
  forallb (fun c => Str.code c <? 128) (list_ascii_of_string s).

(** The rational number that a finite float stands for; 0 for the others. *)
Definition F2Q (x : F64.float) : Q :=
  match x with
  | S754_finite s m e => inject_Z (cond_Zopp s (Zpos m)) * 2 ^ e
  | _ => 0
  end.

(** A float that is neither an infinity nor a NaN. *)
Definition is_finite (x : F64.float) : bool :=
  match x with
  | S754_zero _ | S754_finite _ _ _ => true
  | _ => false
  end.

(** A weight that is not negative: a zero, or a positive number that
    binary64 holds. *)
Definition nonneg_weight (x : F64.float) : bool :=
  match x with
  | S754_zero _ => true
  | S754_finite false m e => bounded F64.prec F64.emax m e
  | _ => false
  end.

(** The unit in the last place of 1.0, and the smallest positive float. *)
Definition ULP1 : Q := 2 ^ (-52).
Definition ETA : Q := 2 ^ (-1074).

(** The floats the sums and quotients of [normalize_weights] work on: a
    zero, or a positive number whose exponent is not below the smallest. *)
Definition good (x : F64.float) : Prop :=
  match x with
  | S754_zero _ => True
  | S754_finite s _ e => s = false /\ (-1074 <= e)%Z
  | _ => False
  end.

(** The sum of the numbers that floats stand for, free of rounding. *)
Definition value_sum (vs : list F64.float) : Q :=
  fold_right (fun v a => (F2Q v + a)%Q) 0%Q vs.

(** [q] to the power [n]. *)
Fixpoint Qpown (q : Q) (n : nat) : Q :=
  match n with
  | O => 1%Q
  | S k => (q * Qpown q k)%Q
  end.

(** The text [seed_for_post] hashes: the seed, the post id and the offset
    with a bar between them. *)
Definition seed_text (global_seed : Z) (post_id : string) (seed_offset : Z)
  : string :=
  (Str.of_Z global_seed ++ "|" ++ post_id ++ "|" ++ Str.of_Z seed_offset)%string.

(** A text with a bar in it. *)
Fixpoint has_bar (s : string) : bool :=
  match s with
  | EmptyString => false
  | String c s' => Ascii.eqb c "|" || has_bar s'
  end.

(** The exceptions of arithmetic on floats, ints and dates other than a
    division by zero. *)
Definition arithmetic_exn (x : exn) : Prop :=
  x = ValueError \/ x = OverflowError.

(** ** Concrete inputs

    Configurations, posts and states on which the definitions above are
    evaluated further down. *)

Module Examples.

Definition lit (s : string) : F64.float :=
  match FloatParse.py_float s with
  | Ok x => x
  | Raise _ => S754_nan
  end.

(** The hourly weights the dashboard starts from. *)
Definition default_weights : dict F64.float :=
  map (fun kv => (fst kv, lit (snd kv)))
    [ ("0", "0.01"); ("1", "0.01"); ("2", "0.01"); ("3", "0.01");
      ("4", "0.01"); ("5", "0.02"); ("6", "0.03"); ("7", "0.05");
      ("8", "0.07"); ("9", "0.07"); ("10", "0.06"); ("11", "0.06");
      ("12", "0.08"); ("13", "0.06"); ("14", "0.05"); ("15", "0.05");
      ("16", "0.05"); ("17", "0.06"); ("18", "0.07"); ("19", "0.07");
      ("20", "0.07"); ("21", "0.09"); ("22", "0.04"); ("23", "0.02") ]%string.

(** Only hour 9 carries weight. *)
Definition hour9_only : dict F64.float := [ ("9"%string, F64.one) ].

(** All 24 hours present, every hour but 9 at weight zero. *)
Definition zero_but_hour9 : dict F64.float :=
  map (fun h => (Str.of_Z (Z.of_nat h),
                 if Nat.eqb h 9 then F64.one else F64.zero)) (seq 0 24).

(** Two weights whose float sum overflows. *)
Definition huge_weights : dict F64.float :=
  [ ("0"%string, lit "1e308"); ("1"%string, lit "1e308") ].

(** Weights with a negative one among them: 2^53, 0.75 and 3 - 2^53. *)
Definition signed_weights : dict F64.float :=
  [ ("0"%string, lit "9007199254740992"); ("1"%string, lit "0.75");
    ("2"%string, lit "-9007199254740989") ].

(** The zone "UTC". *)
Definition utc : Z -> timedelta := fun _ => 0.

(** 2025-01-01 00:00:00, 739251 days after 0001-01-01. *)
Definition new_year_2025 : Z := 739251 * US_PER_DAY.

(** A seed whose first generator step lands on the largest state. *)
Definition top_seed : Z := 9137839865990459062.

(** Stage 1 draws its target from 10 to 50, stage 2 has the target 10. *)
Definition stages : dict stage_cfg :=
  [ ("1"%string, mkStage 10 50); ("2"%string, mkStage 10 10) ].

Definition uniform_weights : dict F64.float :=
  map (fun h => (Str.of_Z (Z.of_nat h), F64.one)) (seq 0 24).

(** Hourly ticks, increments from 5 to 10, every hour weighted alike. *)
Definition engine_fixed : engine_cfg :=
  mkEngine utc (Some (TickText "1h")) 5 10 uniform_weights None None.

(** Ticks drawn from a range given upper end first, over at most 336
    passes, with an hourly cap of 3 below the smallest increment 5. *)
Definition engine_ranged : engine_cfg :=
  mkEngine utc (Some (TickDict (Some "90m"%string) (Some "15m"%string)))
           5 100 default_weights (Some 336) (Some 3).

(** Hourly ticks, increments from 5 to 10, an hourly cap of 7. *)
Definition engine_capped : engine_cfg :=
  mkEngine utc (Some (TickText "1h")) 5 10 uniform_weights None (Some 7).

(** Hourly ticks where only hour 9 carries weight. *)
Definition engine_zero : engine_cfg :=
  mkEngine utc (Some (TickText "1h")) 5 10 zero_but_hour9 None None.

Definition post1 : post :=
  mkPost "p1" "1" (mkStart new_year_2025 None) None.
Definition post2 : post :=
  mkPost "p2" "2" (mkStart new_year_2025 None) None.
(** A post of a stage the table does not have. *)
Definition post9 : post :=
  mkPost "p9" "99" (mkStart new_year_2025 None) None.

Definition run_fixed : run_env :=
  run_env_of stages engine_fixed 42 (Fixed US_PER_HOUR).
Definition run_ranged : run_env :=
  run_env_of stages engine_ranged 42 (Ranged 900000000 5400000000).
Definition run_zero : run_env :=
  run_env_of stages engine_zero 42 (Fixed US_PER_HOUR).

(** The state in which the loop of [post1] starts under [run_fixed], whose
    target is 17. *)
Definition start1 : loop_state :=
  mkLoop 3533187389298662792 0 (localize (start_datetime post1)) 1.

(** A file left by an earlier run. *)
Definition stale_file : out_file :=
  mkOut [Header; Data (mkRow 1 "old" 3 3 0)] false.

End Examples.

(** * Properties *)

(** ** The library functions on known values *)

(** The digests of the empty text and of ["abc"] that FIPS 180-4 gives. *)
Example sha256_known_digests :
  SHA256.from_be_bytes (SHA256.digest (encode ""))
  = 0xe3b0c44298fc1c149afbf4c8996fb92427ae41e4649b934ca495991b7852b855 /\
  SHA256.from_be_bytes (SHA256.digest (encode "abc"))
  = 0xba7816bf8f01cfea414140de5dae2223b00361a396177a9cb410ff61f20015ad.
Proof. vm_compute. split; reflexivity. Qed.

(** The seed of the text ["42|p1|0"]. *)
Example seed_for_post_example :
  seed_for_post 42 "p1" 0 = 6323945634780438531.
Proof. vm_compute. reflexivity. Qed.

(** [1 / 10] and [float("0.1")] are the double nearest to one tenth,
    [float("1e400")] is an infinity, and [2**64 - 1] divided by [2**64]
    rounds to 1.0. *)
Example float_known_values :
  F64.int_truediv 1 10 = Ok (S754_finite false 7205759403792794 (-56)) /\
  FloatParse.py_float "0.1" = Ok (S754_finite false 7205759403792794 (-56)) /\
  FloatParse.py_float "1e400" = Ok (S754_infinity false) /\
  FloatParse.py_float "1_000" = F64.of_int 1000 /\
  FloatParse.py_float "1__0" = Raise ValueError /\
  F64.int_truediv (2 ^ 64 - 1) (2 ^ 64) = Ok F64.one /\
  F64.of_int (2 ^ 53 + 1) = Ok (S754_finite false 4503599627370496 1) /\
  F64.of_int (2 ^ 1024) = Raise OverflowError.
Proof. vm_compute. repeat split; reflexivity. Qed.

(** [timedelta] rounds a float to the microsecond, ties to even. *)
Example timedelta_rounding :
  delta_of_float US_PER_SECOND (Examples.lit "0.0000005") = Ok 0 /\
  delta_of_float US_PER_SECOND (Examples.lit "0.0000015") = Ok 2 /\
  delta_of_float US_PER_SECOND (Examples.lit "-0.0000015") = Ok (-2) /\
  delta_of_float US_PER_HOUR (Examples.lit "0.1") = Ok 360000000 /\
  delta_of_float US_PER_HOUR (Examples.lit "2.4e16") = Raise OverflowError.
Proof. vm_compute. repeat split; reflexivity. Qed.

(** The local hour of a start time: read off the wall clock when the time
    carries the engine's zone, converted through UTC when it came with an
    offset of its own (here 00:30 at +09:00, which is 15:30 in UTC). *)
Example astimezone_hour_examples :
  astimezone_hour Examples.utc
    (localize (mkStart (Examples.new_year_2025 + 30 * US_PER_MINUTE) None))
  = Ok 0 /\
  astimezone_hour Examples.utc
    (localize (mkStart (Examples.new_year_2025 + 30 * US_PER_MINUTE)
                 (Some (9 * US_PER_HOUR))))
  = Ok 15 /\
  astimezone_hour Examples.utc
    (localize (mkStart US_PER_HOUR (Some (9 * US_PER_HOUR))))
  = Raise OverflowError.
Proof. vm_compute. repeat split; reflexivity. Qed.

(** The uniform scenario: seed 42, one post of stage 1 (10 to 50 views),
    increments from 5 to 10 on hourly ticks with every hour weighted alike.
    The target drawn is 17; four rows an hour apart reach it. *)
Example simulate_uniform_scenario :
  simulate Examples.stages Examples.engine_fixed [Examples.post1] 42
    Examples.stale_file
  = (mkOut [ Header;
             Data (mkRow 1 "p1" 6 6 63871286400);
             Data (mkRow 2 "p1" 5 11 63871290000);
             Data (mkRow 3 "p1" 5 16 63871293600);
             Data (mkRow 4 "p1" 1 17 63871297200) ]
           false,
     Ok tt).
Proof. vm_compute. reflexivity. Qed.

(** ** Signs of floating-point results *)

Module F64Facts.

Import F64.

Lemma binary_round_aux_sign (m e : Z) (l : location) :
  not_negative (binary_round_aux prec emax false m e l) = true.
Proof.
  unfold binary_round_aux.
  destruct (shr_fexp prec emax m e l) as [mrs' e'].
  destruct (shr_fexp prec emax _ e' loc_Exact) as [mrs'' e''].
  destruct (shr_m mrs''); trivial.
  destruct (e'' <=? emax - prec); reflexivity.
Qed.

Lemma binary_round_sign (m : positive) (e : Z) :
  not_negative (binary_round prec emax false m e) = true.
Proof.
  unfold binary_round.
  destruct (shl_align m e _) as [mz ez].
  apply binary_round_aux_sign.
Qed.

Lemma binary_normalize_sign (z e : Z) :
  0 <= z -> not_negative (binary_normalize prec emax z e false) = true.
Proof.
  intros Hz. destruct z as [|p|p]; simpl.
  - reflexivity.
  - apply binary_round_sign.
  - lia.
Qed.

Lemma finite_or_overflow_sign (x y : float) :
  not_negative x = true -> finite_or_overflow x = Ok y -> not_negative y = true.
Proof.
  destruct x; simpl; intros Hx Hy; inversion Hy; subst; exact Hx.
Qed.

Lemma of_int_sign (z : Z) (x : float) :
  0 <= z -> of_int z = Ok x -> not_negative x = true.
Proof.
  intros Hz. apply finite_or_overflow_sign, binary_normalize_sign, Hz.
Qed.

Lemma div_exact_sign (a b : Z) :
  0 <= a -> 0 < b -> not_negative (SFdiv prec emax (exact a) (exact b)) = true.
Proof.
  intros Ha Hb.
  destruct a as [|p|p]; destruct b as [|q|q]; try lia; simpl; trivial.
  destruct (SFdiv_core_binary prec emax (Z.pos p) 0 (Z.pos q) 0) as [[mz ez] lz].
  apply binary_round_aux_sign.
Qed.

Lemma int_truediv_sign (a b : Z) (x : float) :
  0 <= a -> 0 < b -> int_truediv a b = Ok x -> not_negative x = true.
Proof.
  intros Ha Hb. unfold int_truediv.
  destruct (b =? 0); [discriminate|].
  apply finite_or_overflow_sign, div_exact_sign; assumption.
Qed.

Lemma mul_sign (x y : float) :
  not_negative x = true -> not_negative y = true ->
  not_negative (mul x y) = true.
Proof.
  destruct x as [sx|sx| |sx mx ex]; destruct y as [sy|sy| |sy my ey];
    simpl; intros Hx Hy; trivial;
    try (destruct sx; try discriminate); try (destruct sy; try discriminate);
    simpl; trivial.
  apply binary_round_aux_sign.
Qed.

Lemma add_sign (x y : float) :
  not_negative x = true -> not_negative y = true ->
  not_negative (add x y) = true.
Proof.
  destruct x as [sx|sx| |sx mx ex]; destruct y as [sy|sy| |sy my ey];
    simpl; intros Hx Hy; trivial;
    try (destruct sx; try discriminate); try (destruct sy; try discriminate);
    simpl; trivial.
  apply binary_round_sign.
Qed.

Lemma trunc_magnitude_nonneg (m : positive) (e : Z) :
  0 <= (if 0 <=? e then Z.pos m * 2 ^ e else Z.pos m / 2 ^ (- e)).
Proof.
  destruct (0 <=? e) eqn:He.
  - apply Z.mul_nonneg_nonneg; [lia|]. apply Z.pow_nonneg. lia.
  - apply Z.div_pos; [lia|]. apply Z.pow_pos_nonneg; lia.
Qed.

Lemma to_int_sign (x : float) (k : Z) :
  not_negative x = true -> to_int x = Ok k -> 0 <= k.
Proof.
  destruct x as [s|s| |s m e]; unfold to_int, not_negative;
    intros Hx Hk; try discriminate.
  - replace k with 0 by congruence. lia.
  - destruct s; [discriminate|].
    pose proof (trunc_magnitude_nonneg m e) as Hm.
    unfold cond_Zopp in Hk.
    replace k with (if 0 <=? e then Z.pos m * 2 ^ e else Z.pos m / 2 ^ (- e))
      by congruence.
    exact Hm.
Qed.

End F64Facts.

(** ** The generator *)

Lemma lcg_next_range (state : Z) : 0 <= lcg_next state < 2 ^ 64.
Proof.
  unfold lcg_next, MASK64.
  change 0xFFFFFFFFFFFFFFFF with (Z.ones 64).
  rewrite Z.land_ones by lia.
  apply Z.mod_pos_bound. lia.
Qed.

(** A draw that returns advances the state once and is not below [a],
    provided the range is not empty. *)
Lemma randint_inclusive_lower (state a b state' v : Z) :
  a <= b ->
  randint_inclusive state a b = (state', Ok v) ->
  state' = lcg_next state /\ a <= v.
Proof.
  intros Hab Hr. cbv beta zeta delta [randint_inclusive] in Hr.
  pose proof (f_equal fst Hr) as Hs. pose proof (f_equal snd Hr) as Hv.
  cbn [fst snd] in Hs, Hv. clear Hr. split; [congruence|].
  destruct (F64.int_truediv (lcg_next state) (2 ^ 64)) as [frac|] eqn:Hfrac;
    cbn [Py.bind] in Hv; [|discriminate].
  destruct (F64.of_int (b - a + 1)) as [fspan|] eqn:Hspan;
    cbn [Py.bind] in Hv; [|discriminate].
  destruct (F64.to_int (F64.mul frac fspan)) as [k|] eqn:Hk;
    cbn [Py.bind] in Hv; [|discriminate].
  injection Hv as <-.
  assert (Hfrac' : F64.not_negative frac = true).
  { apply (F64Facts.int_truediv_sign (lcg_next state) (2 ^ 64));
      [apply lcg_next_range | reflexivity | exact Hfrac]. }
  assert (Hspan' : F64.not_negative fspan = true).
  { apply (F64Facts.of_int_sign (b - a + 1)); [lia | exact Hspan]. }
  pose proof (F64Facts.to_int_sign _ _ (F64Facts.mul_sign _ _ Hfrac' Hspan') Hk).
  lia.
Qed.

(** C6, at the input where the code leaves the range: after the seed
    9137839865990459062 the first step of the generator reaches the state
    2^64 - 1, whose quotient by 2^64 rounds to the float 1.0, and
    randint_inclusive(1, 6) returns 7. *)
Theorem randint_inclusive_above_range :
  randint_inclusive (rng_from_seed Examples.top_seed) 1 6
  = (2 ^ 64 - 1, Ok 7).
Proof. vm_compute. reflexivity. Qed.

(** ** Weight normalisation *)

Section WeightFacts.

Context {F : Type} `{PyReal F}.

Lemma normalize_weights_keys (wdict : dict F) :
  r_le0 (py_sum (dict_values wdict)) = false ->
  dict_keys (normalize_weights wdict) = dict_keys wdict.
Proof.
  intros Hpos. unfold normalize_weights. rewrite Hpos.
  unfold dict_keys. rewrite map_map. reflexivity.
Qed.

Lemma normalize_weights_values (wdict : dict F) :
  r_le0 (py_sum (dict_values wdict)) = false ->
  dict_values (normalize_weights wdict)
  = map (fun v => r_div v (py_sum (dict_values wdict))) (dict_values wdict).
Proof.
  intros Hpos. unfold normalize_weights. rewrite Hpos.
  unfold dict_values. rewrite !map_map. reflexivity.
Qed.

End WeightFacts.


(** ** Rounding *)

Module Rounding.

Import F64.

Lemma digits2_pos_bounds (p : positive) :
  2 ^ (Zpos (digits2_pos p) - 1) <= Zpos p < 2 ^ Zpos (digits2_pos p).
Proof.
  induction p as [p IH|p IH|]; cbn [digits2_pos].
  - rewrite Pos2Z.inj_succ, Z.pow_succ_r by lia.
    replace (Z.succ (Z.pos (digits2_pos p)) - 1)
      with (Z.succ (Z.pos (digits2_pos p) - 1)) by lia.
    rewrite Z.pow_succ_r by lia. lia.
  - rewrite Pos2Z.inj_succ, Z.pow_succ_r by lia.
    replace (Z.succ (Z.pos (digits2_pos p)) - 1)
      with (Z.succ (Z.pos (digits2_pos p) - 1)) by lia.
    rewrite Z.pow_succ_r by lia. lia.
  - cbn. lia.
Qed.

Lemma Zdigits2_bounds (m : Z) :
  0 < m -> 2 ^ (Zdigits2 m - 1) <= m < 2 ^ Zdigits2 m.
Proof.
  destruct m as [|p|p]; try lia. intros _. apply digits2_pos_bounds.
Qed.

Lemma Zdigits2_nonneg (m : Z) : 0 <= Zdigits2 m.
Proof. destruct m; cbn; lia. Qed.

(** The digits of a number below a power of two. *)
Lemma Zdigits2_le (m d : Z) : 0 <= m < 2 ^ d -> 0 <= d -> Zdigits2 m <= d.
Proof.
  intros [Hm Hlt] Hd. destruct (Z.eq_dec m 0) as [->|Hne]; [exact Hd|].
  destruct (Zdigits2_bounds m ltac:(lia)) as [Hlo _].
  destruct (Z_le_gt_dec (Zdigits2 m) d) as [Hle|Hgt]; [exact Hle|].
  assert (2 ^ d <= 2 ^ (Zdigits2 m - 1)) by (apply Z.pow_le_mono_r; lia).
  lia.
Qed.

Lemma shr_1_m (mrs : shr_record) :
  0 <= shr_m mrs -> shr_m (shr_1 mrs) = shr_m mrs / 2.
Proof.
  destruct mrs as [m r s]. cbn [shr_m shr_1]. intros Hm.
  destruct m as [|[p|p|]|p]; cbn [shr_m]; try lia.
  - reflexivity.
  - rewrite Pos2Z.inj_xI. apply Z.div_unique with 1; lia.
  - rewrite Pos2Z.inj_xO. apply Z.div_unique with 0; lia.
  - reflexivity.
Qed.

Lemma iter_shr_1_m (p : positive) (mrs : shr_record) :
  0 <= shr_m mrs ->
  shr_m (iter_pos shr_1 p mrs) = shr_m mrs / 2 ^ Zpos p.
Proof.
  revert mrs. induction p as [p IH|p IH|]; intros mrs Hm; cbn [iter_pos].
  - assert (H1 : 0 <= shr_m (shr_1 mrs)).
    { rewrite shr_1_m by exact Hm. apply Z.div_pos; lia. }
    assert (H2 : 0 <= shr_m (iter_pos shr_1 p (shr_1 mrs))).
    { rewrite IH by exact H1. apply Z.div_pos; [exact H1|].
      apply Z.pow_pos_nonneg; lia. }
    rewrite IH by exact H2. rewrite IH by exact H1.
    rewrite shr_1_m by exact Hm.
    assert (Hp : 0 < 2 ^ Z.pos p) by (apply Z.pow_pos_nonneg; lia).
    assert (Hpow : 2 ^ Z.pos p~1 = 2 * 2 ^ Z.pos p * 2 ^ Z.pos p).
    { rewrite <- Z.mul_assoc, <- Z.pow_add_r, <- Z.pow_succ_r by lia.
      f_equal. lia. }
    rewrite !Z.div_div by lia. rewrite Hpow. f_equal. lia.
  - assert (H1 : 0 <= shr_m (iter_pos shr_1 p mrs)).
    { rewrite IH by exact Hm. apply Z.div_pos; [exact Hm|].
      apply Z.pow_pos_nonneg; lia. }
    rewrite IH by exact H1. rewrite IH by exact Hm.
    assert (Hp : 0 < 2 ^ Z.pos p) by (apply Z.pow_pos_nonneg; lia).
    assert (Hpow : 2 ^ Z.pos p~0 = 2 ^ Z.pos p * 2 ^ Z.pos p).
    { rewrite <- Z.pow_add_r by lia. f_equal. lia. }
    rewrite Z.div_div by lia. rewrite Hpow. reflexivity.
  - rewrite shr_1_m by exact Hm. reflexivity.
Qed.

(** [shr_fexp]: the mantissa is divided by two as often as the exponent
    has to go up. *)
Lemma shr_fexp_spec (m e : Z) (l : location) :
  0 <= m ->
  let k := Z.max 0 (fexp prec emax (Zdigits2 m + e) - e) in
  shr_m (fst (shr_fexp prec emax m e l)) = m / 2 ^ k /\
  snd (shr_fexp prec emax m e l) = e + k /\
  (k = 0 -> fst (shr_fexp prec emax m e l) = shr_record_of_loc m l).
Proof.
  intros Hm k. unfold shr_fexp, shr. subst k.
  assert (Hrec : shr_m (shr_record_of_loc m l) = m)
    by (destruct l as [|[]]; reflexivity).
  destruct (fexp prec emax (Zdigits2 m + e) - e) as [|p|p] eqn:Hk;
    cbn [fst snd].
  - rewrite Z.max_id. cbn. rewrite Z.div_1_r, Z.add_0_r. auto.
  - replace (Z.max 0 (Z.pos p)) with (Z.pos p) by lia.
    rewrite iter_shr_1_m by (rewrite Hrec; exact Hm).
    rewrite Hrec. repeat split. lia.
  - replace (Z.max 0 (Z.neg p)) with 0 by lia.
    cbn. rewrite Z.div_1_r, Z.add_0_r. auto.
Qed.

Lemma round_nearest_even_cases (m : Z) (l : location) :
  round_nearest_even m l = m \/ round_nearest_even m l = m + 1.
Proof.
  destruct l as [|[]]; cbn [round_nearest_even]; auto.
  destruct (Z.even m); auto.
Qed.

Lemma loc_of_record_of_loc (m : Z) (l : location) :
  loc_of_shr_record (shr_record_of_loc m l) = l.
Proof. destruct l as [|[]]; reflexivity. Qed.

Lemma fexp_eq (e : Z) : fexp prec emax e = Z.max (e - 53) (-1074).
Proof. reflexivity. Qed.

Lemma pow2_pos (k : Z) : 0 <= k -> 0 < 2 ^ k.
Proof. intros Hk. apply Z.pow_pos_nonneg; lia. Qed.

(** After the first shift the mantissa has at most [prec] digits. *)
Lemma shifted_mantissa_bounds (mx ex : Z) :
  0 <= mx ->
  ex <= fexp prec emax (Zdigits2 mx + ex) ->
  let E := fexp prec emax (Zdigits2 mx + ex) in
  let m' := mx / 2 ^ (E - ex) in
  0 <= m' < 2 ^ 53 /\
  (0 < mx -> -1074 < E -> 2 ^ 52 <= m') /\
  (mx = 0 -> E = -1074).
Proof.
  intros Hmx Hex E m'. subst E m'. rewrite fexp_eq in *.
  set (d := Zdigits2 mx) in *.
  set (k := Z.max (d + ex - 53) (-1074) - ex) in *.
  assert (Hk : 0 <= k) by lia.
  pose proof (pow2_pos k Hk) as Hpk.
  pose proof (Zdigits2_nonneg mx) as Hd. fold d in Hd.
  split; [split|split].
  - apply Z.div_pos; lia.
  - destruct (Z.eq_dec mx 0) as [->|Hne].
    { rewrite Z.div_0_l by lia. lia. }
    destruct (Zdigits2_bounds mx ltac:(lia)) as [_ Hhi]. fold d in Hhi.
    apply Z.div_lt_upper_bound; [lia|].
    rewrite <- Z.pow_add_r by lia.
    eapply Z.lt_le_trans; [exact Hhi|]. apply Z.pow_le_mono_r; lia.
  - intros Hpos Hnorm.
    destruct (Zdigits2_bounds mx Hpos) as [Hlo _]. fold d in Hlo.
    assert (Hkd : k = d - 53) by lia.
    apply Z.div_le_lower_bound; [lia|].
    rewrite <- Z.pow_add_r by lia.
    eapply Z.le_trans; [|exact Hlo]. apply Z.pow_le_mono_r; lia.
  - intros ->. subst d. cbn [Zdigits2] in *. lia.
Qed.

(** The second shift of [binary_round_aux]: nothing, or one place when the
    rounding carried into a new digit. *)
Lemma second_shift_spec (r E : Z) :
  0 <= r <= 2 ^ 53 -> -1074 <= E ->
  let m := shr_m (fst (shr_fexp prec emax r E loc_Exact)) in
  let e := snd (shr_fexp prec emax r E loc_Exact) in
  E <= e /\ m * 2 ^ (e - E) = r /\
  (r < 2 ^ 53 -> e = E) /\ (r = 2 ^ 53 -> e = E + 1).
Proof.
  intros Hr HE m e.
  destruct (shr_fexp_spec r E loc_Exact ltac:(lia)) as (Hm & He & _).
  cbv zeta in Hm, He. fold m in Hm. fold e in He.
  rewrite fexp_eq in Hm, He.
  destruct (Z.eq_dec r (2 ^ 53)) as [Heq|Hne].
  - assert (Hd : Zdigits2 r = 54) by (rewrite Heq; reflexivity).
    rewrite Hd in Hm, He.
    replace (Z.max 0 (Z.max (54 + E - 53) (-1074) - E)) with 1 in Hm, He
      by lia.
    rewrite Hm, He, Heq.
    replace (E + 1 - E) with 1 by lia.
    split; [lia|]. split; [reflexivity|]. split; lia.
  - assert (Hd : Zdigits2 r <= 53) by (apply Zdigits2_le; lia).
    replace (Z.max 0 (Z.max (Zdigits2 r + E - 53) (-1074) - E)) with 0
      in Hm, He by lia.
    rewrite Z.pow_0_r, Z.div_1_r in Hm. rewrite Hm, He.
    replace (E + 0 - E) with 0 by lia. rewrite Z.pow_0_r.
    split; [lia|]. split; [lia|]. split; lia.
Qed.

(** What [binary_round_aux] returns, for a mantissa whose exponent is not
    above the one that its digits ask for: the mantissa cut down to the
    exponent [E], or one more, as zero, as a float, or as an infinity. *)
Lemma binary_round_aux_spec (sx : bool) (mx ex : Z) (lx : location) :
  0 <= mx ->
  ex <= fexp prec emax (Zdigits2 mx + ex) ->
  let E := fexp prec emax (Zdigits2 mx + ex) in
  let m' := mx / 2 ^ (E - ex) in
  exists r,
    (r = m' \/ r = m' + 1) /\
    (lx = loc_Exact -> E = ex -> r = mx) /\
    ((r = 0 /\ binary_round_aux prec emax sx mx ex lx = S754_zero sx) \/
     (exists m e,
         binary_round_aux prec emax sx mx ex lx = S754_finite sx m e /\
         E <= e /\ Zpos m * 2 ^ (e - E) = r /\ e <= 971) \/
     (binary_round_aux prec emax sx mx ex lx = S754_infinity sx /\
      exists e, E <= e /\ 971 < e /\ 2 ^ 52 * 2 ^ (e - E) <= r)).
Proof.
  intros Hmx Hex E m'.
  destruct (shifted_mantissa_bounds mx ex Hmx Hex) as (Hm' & Hnorm & Hzero).
  cbv zeta in Hm', Hnorm, Hzero. fold E in Hm', Hnorm, Hzero.
  fold m' in Hm', Hnorm.
  assert (HE : -1074 <= E) by (subst E; rewrite fexp_eq; lia).
  unfold binary_round_aux.
  destruct (shr_fexp_spec mx ex lx Hmx) as (H1m & H1e & H1k).
  cbv zeta in H1m, H1e, H1k.
  replace (Z.max 0 (fexp prec emax (Zdigits2 mx + ex) - ex)) with (E - ex)
    in H1m, H1e, H1k by (fold E; lia).
  fold m' in H1m.
  destruct (shr_fexp prec emax mx ex lx) as [mrs' e'].
  cbn [fst snd] in H1m, H1e, H1k.
  assert (He' : e' = E) by lia. clear H1e. subst e'.
  set (r := round_nearest_even (shr_m mrs') (loc_of_shr_record mrs')).
  assert (Hr : r = m' \/ r = m' + 1).
  { subst r. rewrite <- H1m. apply round_nearest_even_cases. }
  assert (Hr53 : 0 <= r <= 2 ^ 53) by lia.
  destruct (second_shift_spec r E Hr53 HE) as (H2e & H2m & H2lt & H2eq).
  cbv zeta in H2e, H2m, H2lt, H2eq.
  destruct (shr_fexp prec emax r E loc_Exact) as [mrs'' e''].
  cbn [fst snd] in H2e, H2m, H2lt, H2eq.
  exists r. split; [exact Hr|]. split.
  { intros -> HEx. subst r. rewrite H1k by lia.
    rewrite loc_of_record_of_loc. cbn [round_nearest_even]. reflexivity. }
  assert (Hpe : 0 < 2 ^ (e'' - E)) by (apply pow2_pos; lia).
  destruct (shr_m mrs'') as [|m|m] eqn:Hm''.
  - left. split; [lia|reflexivity].
  - right. change (emax - prec) with 971.
    destruct (e'' <=? 971) eqn:Hov.
    + left. exists m, e''. apply Z.leb_le in Hov. auto.
    + right. apply Z.leb_gt in Hov. split; [reflexivity|].
      exists e''. split; [exact H2e|]. split; [exact Hov|].
      destruct (Z.eq_dec r (2 ^ 53)) as [Heq|Hne].
      * rewrite (H2eq Heq). replace (E + 1 - E) with 1 by lia.
        rewrite Heq. reflexivity.
      * rewrite (H2lt ltac:(lia)) in *.
        replace (E - E) with 0 by lia. rewrite Z.pow_0_r, Z.mul_1_r.
        destruct (Z.eq_dec mx 0) as [Hz|Hnz]; [specialize (Hzero Hz); lia|].
        specialize (Hnorm ltac:(lia) ltac:(lia)). lia.
  - exfalso. lia.
Qed.

Lemma Zdigits2_unique (m d : Z) :
  2 ^ (d - 1) <= m < 2 ^ d -> 0 < d -> Zdigits2 m = d.
Proof.
  intros [Hlo Hhi] Hd.
  assert (Hm : 0 < m).
  { pose proof (pow2_pos (d - 1) ltac:(lia)). lia. }
  destruct (Zdigits2_bounds m Hm) as [Hlo' Hhi'].
  pose proof (Zdigits2_nonneg m) as Hn.
  destruct (Z.lt_trichotomy (Zdigits2 m) d) as [Hlt|[Heq|Hgt]];
    [exfalso|exact Heq|exfalso].
  - assert (2 ^ Zdigits2 m <= 2 ^ (d - 1)) by (apply Z.pow_le_mono_r; lia).
    lia.
  - assert (2 ^ d <= 2 ^ (Zdigits2 m - 1)) by (apply Z.pow_le_mono_r; lia).
    lia.
Qed.

Lemma Zdigits2_shift (m k : Z) :
  0 < m -> 0 <= k -> Zdigits2 (m * 2 ^ k) = Zdigits2 m + k.
Proof.
  intros Hm Hk. destruct (Zdigits2_bounds m Hm) as [Hlo Hhi].
  assert (Hd : 0 < Zdigits2 m) by (destruct m; cbn; lia).
  pose proof (pow2_pos k Hk) as Hpk.
  apply Zdigits2_unique; [|lia]. split.
  - replace (Zdigits2 m + k - 1) with (Zdigits2 m - 1 + k) by lia.
    rewrite Z.pow_add_r by lia. nia.
  - rewrite Z.pow_add_r by lia. nia.
Qed.

Lemma iter_xO (m d : positive) :
  Zpos (Pos.iter xO m d) = Zpos m * 2 ^ Zpos d.
Proof.
  induction d as [|d IH] using Pos.peano_ind.
  - cbn [Pos.iter]. rewrite Pos2Z.inj_xO. change (2 ^ 1) with 2. lia.
  - rewrite Pos.iter_succ, Pos2Z.inj_xO, IH, Pos2Z.inj_succ.
    rewrite Z.pow_succ_r by lia. lia.
Qed.

(** [shl_align]: the mantissa at the smaller of the two exponents. *)
Lemma shl_align_spec (mx : positive) (ex ex' : Z) :
  snd (shl_align mx ex ex') = Z.min ex ex' /\
  Zpos (fst (shl_align mx ex ex'))
  = Zpos mx * 2 ^ (ex - Z.min ex ex').
Proof.
  unfold shl_align. destruct (ex' - ex) as [|d|d] eqn:Hd; cbn [fst snd].
  - replace (Z.min ex ex') with ex by lia.
    rewrite Z.sub_diag, Z.pow_0_r. lia.
  - replace (Z.min ex ex') with ex by lia.
    rewrite Z.sub_diag, Z.pow_0_r. lia.
  - replace (Z.min ex ex') with ex' by lia.
    rewrite iter_xO. split; [reflexivity|]. f_equal. f_equal. lia.
Qed.

(** The quotient that [SFdiv] hands to the rounding: the mantissa is the
    whole part of the first mantissa, shifted, over the second, and it has
    digits enough for its exponent. *)
Lemma div_core_spec (m1 m2 : positive) (e1 e2 : Z) :
  let res := SFdiv_core_binary prec emax (Zpos m1) e1 (Zpos m2) e2 in
  let q := fst (fst res) in
  let e' := snd (fst res) in
  0 <= q /\ e' <= fexp prec emax (Zdigits2 q + e') /\
  exists s, 0 <= s /\ e1 = s + e' + e2 /\
            q * Zpos m2 <= Zpos m1 * 2 ^ s < (q + 1) * Zpos m2.
Proof.
  unfold SFdiv_core_binary. cbv zeta.
  set (d1 := Zdigits2 (Zpos m1)). set (d2 := Zdigits2 (Zpos m2)).
  set (D := d1 + e1 - (d2 + e2)).
  set (e' := Z.min (fexp prec emax D) (e1 - e2)).
  set (s := e1 - e2 - e').
  assert (Hs : 0 <= s) by (subst s e'; lia).
  set (m' := match s with
             | 0 => Z.pos m1
             | Z.pos _ => Z.shiftl (Z.pos m1) s
             | Z.neg _ => 0
             end).
  assert (Hm' : m' = Zpos m1 * 2 ^ s).
  { subst m'. destruct s as [|p|p] eqn:Hsp; [cbn; lia| |lia].
    apply Z.shiftl_mul_pow2. lia. }
  pose proof (Z_div_mod m' (Zpos m2) ltac:(lia)) as Hdiv.
  destruct (Z.div_eucl m' (Z.pos m2)) as [q r]. cbn [fst snd].
  destruct Hdiv as [Heq Hr]. rewrite Hm' in Heq.
  pose proof (pow2_pos s Hs) as Hps.
  assert (Hq : 0 <= q) by nia.
  split; [exact Hq|]. split.
  - assert (He' : e' = Z.min (Z.max (D - 53) (-1074)) (e1 - e2))
      by (subst e'; rewrite fexp_eq; reflexivity).
    assert (Hse : s = e1 - e2 - e') by reflexivity.
    clearbody e' s. rewrite fexp_eq.
    destruct (Z_le_gt_dec (D - 53) (-1074)) as [Hsub|Hnorm]; [lia|].
    assert (Hs53 : 53 + d2 - d1 <= s) by (subst D; lia).
    destruct (Zdigits2_bounds (Zpos m1) ltac:(lia)) as [Hlo1 _].
    destruct (Zdigits2_bounds (Zpos m2) ltac:(lia)) as [_ Hhi2].
    fold d1 in Hlo1. fold d2 in Hhi2.
    assert (Hd1 : 0 < d1) by (subst d1; cbn; lia).
    assert (Hd2 : 0 < d2) by (subst d2; cbn; lia).
    assert (Hbig : 2 ^ 52 * 2 ^ d2 <= Zpos m1 * 2 ^ s).
    { rewrite <- Z.pow_add_r by lia.
      apply Z.le_trans with (2 ^ (d1 - 1) * 2 ^ s).
      - rewrite <- Z.pow_add_r by lia. apply Z.pow_le_mono_r; lia.
      - apply Z.mul_le_mono_nonneg_r; lia. }
    assert (Hq52 : 2 ^ 52 <= q) by nia.
    destruct (Zdigits2_bounds q ltac:(lia)) as [_ Hhiq].
    assert (Hdq : 53 <= Zdigits2 q).
    { destruct (Z_le_gt_dec 53 (Zdigits2 q)) as [H|H]; [exact H|].
      pose proof (Zdigits2_nonneg q).
      assert (2 ^ Zdigits2 q <= 2 ^ 52) by (apply Z.pow_le_mono_r; lia).
      lia. }
    lia.
  - exists s. split; [exact Hs|]. split; [subst s; lia|]. nia.
Qed.

End Rounding.

Module RoundingError.

Import F64 Rounding.

Local Open Scope Q_scope.

Lemma Qpow2_pos (e : Z) : 0 < 2 ^ e.
Proof. apply Qpower_0_lt. reflexivity. Qed.

Lemma Qpow2_add (a b : Z) : 2 ^ (a + b) == 2 ^ a * 2 ^ b.
Proof. apply Qpower_plus. discriminate. Qed.

Lemma Qpow2_inject (k : Z) : (0 <= k)%Z -> inject_Z (2 ^ k) == 2 ^ k.
Proof. intros Hk. apply (Zpower_Qpower 2 k Hk). Qed.

Lemma Qpow2_le (a b : Z) : (a <= b)%Z -> 2 ^ a <= 2 ^ b.
Proof. intros Hab. apply Qpower_le_compat_l; [exact Hab|discriminate]. Qed.

Lemma good_nonneg (x : float) : good x -> 0 <= F2Q x.
Proof.
  destruct x as [s|s| |s m e]; cbn [good F2Q]; try (intros; apply Qle_refl).
  intros [-> _]. cbn [cond_Zopp].
  apply Qmult_le_0_compat; [|apply Qlt_le_weak, Qpow2_pos].
  change 0 with (inject_Z 0). rewrite <- Zle_Qle. lia.
Qed.

(** The value of a mantissa at an exponent, and how it moves between two
    exponents. *)
Lemma scale_mantissa (m r : Z) (e E : Z) :
  (E <= e)%Z -> (m * 2 ^ (e - E))%Z = r ->
  inject_Z m * 2 ^ e == inject_Z r * 2 ^ E.
Proof.
  intros Hle <-. rewrite inject_Z_mult, Qpow2_inject by lia.
  replace e with ((e - E) + E)%Z at 1 by lia.
  rewrite Qpow2_add. ring.
Qed.

(** Faithful rounding: what [binary_round_aux] makes of a number [X] that
    lies from the mantissa to the next one at the exponent given. *)
Lemma binary_round_aux_value (mx ex : Z) (lx : location) (X : Q) :
  (0 <= mx)%Z ->
  (ex <= fexp prec emax (Zdigits2 mx + ex))%Z ->
  inject_Z mx * 2 ^ ex <= X -> X <= inject_Z (mx + 1) * 2 ^ ex ->
  let E := fexp prec emax (Zdigits2 mx + ex) in
  let R := binary_round_aux prec emax false mx ex lx in
  (R = S754_infinity false /\ 2 ^ 1023 <= X) \/
  (good R /\
   (lx = loc_Exact -> E = ex -> F2Q R == inject_Z mx * 2 ^ ex) /\
   F2Q R <= X + 2 ^ E /\ X - 2 ^ E <= F2Q R /\
   (E = (-1074)%Z \/ 2 ^ E <= ULP1 * X)).
Proof.
  intros Hmx Hex HXlo HXhi E R.
  destruct (binary_round_aux_spec false mx ex lx Hmx Hex)
    as (r & Hr & Hexact & Hres).
  cbv zeta in Hr, Hexact, Hres. fold E in Hr, Hexact, Hres.
  fold R in Hres.
  destruct (shifted_mantissa_bounds mx ex Hmx Hex) as (Hm' & Hnorm & Hzero).
  cbv zeta in Hm', Hnorm, Hzero. fold E in Hm', Hnorm, Hzero.
  set (m' := (mx / 2 ^ (E - ex))%Z) in *.
  set (k := (E - ex)%Z) in *.
  assert (Hk : (0 <= k)%Z) by (subst k E; lia).
  pose proof (Qpow2_pos E) as HP. pose proof (Qpow2_pos ex) as Hpex.
  assert (HPk : 2 ^ E == inject_Z (2 ^ k) * 2 ^ ex).
  { rewrite Qpow2_inject by exact Hk. rewrite <- Qpow2_add.
    subst k. replace (E - ex + ex)%Z with E by lia. reflexivity. }
  assert (Hpk : (0 < 2 ^ k)%Z) by (apply pow2_pos; exact Hk).
  (* the number lies between m' and m' + 1 at the exponent E *)
  assert (Hlo : inject_Z m' * 2 ^ E <= X).
  { eapply Qle_trans; [|exact HXlo]. rewrite HPk, Qmult_assoc.
    apply Qmult_le_compat_r; [|apply Qlt_le_weak, Hpex].
    rewrite <- inject_Z_mult, <- Zle_Qle. subst m'.
    rewrite Z.mul_comm. apply Z.mul_div_le. exact Hpk. }
  assert (Hhi : X <= inject_Z (m' + 1) * 2 ^ E).
  { eapply Qle_trans; [exact HXhi|]. rewrite HPk, Qmult_assoc.
    apply Qmult_le_compat_r; [|apply Qlt_le_weak, Hpex].
    rewrite <- inject_Z_mult, <- Zle_Qle. subst m'.
    pose proof (Z.mul_succ_div_gt mx (2 ^ k) Hpk). lia. }
  rewrite inject_Z_plus in Hhi. change (inject_Z 1) with 1 in Hhi.
  assert (Hrel : E = (-1074)%Z \/ 2 ^ E <= ULP1 * X).
  { destruct (Z.eq_dec mx 0) as [Hz|Hnz]; [left; apply Hzero, Hz|].
    destruct (Z.eq_dec E (-1074)) as [He|Hne]; [left; exact He|]. right.
    assert (HE : (-1074 <= E)%Z) by (subst E; rewrite fexp_eq; lia).
    specialize (Hnorm ltac:(lia) ltac:(lia)).
    assert (H52 : inject_Z (2 ^ 52) * 2 ^ E <= X).
    { eapply Qle_trans; [|exact Hlo].
      apply Qmult_le_compat_r; [|apply Qlt_le_weak, HP].
      rewrite <- Zle_Qle. exact Hnorm. }
    assert (Hu : ULP1 * X == X / inject_Z (2 ^ 52)).
    { unfold ULP1. change (2 ^ (-52)) with (/ inject_Z (2 ^ 52)).
      unfold Qdiv. ring. }
    rewrite Hu. apply Qle_shift_div_l; [reflexivity|].
    rewrite Qmult_comm. exact H52. }
  assert (Hvalue : forall m e, (E <= e)%Z -> (Zpos m * 2 ^ (e - E))%Z = r ->
             F2Q (S754_finite false m e) == inject_Z r * 2 ^ E).
  { intros m e Hle Hm. cbn [F2Q cond_Zopp]. apply scale_mantissa; assumption. }
  assert (Hrq : inject_Z r == inject_Z m' \/ inject_Z r == inject_Z m' + 1).
  { destruct Hr as [->| ->]; [left; reflexivity|right].
    rewrite inject_Z_plus. reflexivity. }
  destruct Hres as [[Hr0 HR]|[(m & e & HR & Hle & Hm & Hfin)|(HR & e & Hle & Hov & Hbig)]].
  - right. rewrite HR. cbn [good F2Q]. split; [exact I|].
    split.
    { intros Hl He. rewrite <- (Hexact Hl He), Hr0. ring. }
    subst r. change (inject_Z 0) with 0 in Hrq.
    split; [|split; [|exact Hrel]]; destruct Hrq as [Hq|Hq]; nra.
  - right. rewrite HR. split.
    { cbn [good]. split; [reflexivity|].
      assert ((-1074 <= E)%Z) by (subst E; rewrite fexp_eq; lia). lia. }
    rewrite (Hvalue m e Hle Hm). split.
    { intros Hl He. rewrite (Hexact Hl He), He. reflexivity. }
    split; [|split; [|exact Hrel]]; destruct Hrq as [Hq|Hq]; rewrite Hq; nra.
  - left. split; [exact HR|].
    assert (Hbq : inject_Z (2 ^ 52) * 2 ^ e <= inject_Z r * 2 ^ E).
    { rewrite (scale_mantissa (2 ^ 52) (2 ^ 52 * 2 ^ (e - E)) e E Hle eq_refl).
      apply Qmult_le_compat_r; [|apply Qlt_le_weak, HP].
      rewrite <- Zle_Qle. exact Hbig. }
    assert (He : 2 ^ 972 <= 2 ^ e) by (apply Qpow2_le; lia).
    assert (HEe : 2 ^ E <= 2 ^ e) by (apply Qpow2_le; exact Hle).
    assert (H1024 : inject_Z (2 ^ 52) * 2 ^ 972 == 2 ^ 1024) by reflexivity.
    assert (H1023 : 2 * 2 ^ 1023 == 2 ^ 1024) by reflexivity.
    set (c := inject_Z (2 ^ 52)) in *.
    assert (Hc : 2 <= c) by (subst c; vm_compute; discriminate).
    pose proof (Qpow2_pos e) as Hpe.
    destruct Hrq as [Hq|Hq]; rewrite Hq in Hbq; nra.
Qed.

Lemma ULP1_small : 0 < ULP1 /\ ULP1 < 1.
Proof. split; reflexivity. Qed.

(** [binary_round] of a positive mantissa whose exponent is not below the
    smallest: the value, up to a relative error of one unit in the last
    place, or an infinity for a value from [2 ^ 1023] on. *)
Lemma binary_round_value (m : positive) (e : Z) :
  (-1074 <= e)%Z ->
  let X := inject_Z (Zpos m) * 2 ^ e in
  let R := binary_round prec emax false m e in
  (R = S754_infinity false /\ 2 ^ 1023 <= X) \/
  (good R /\ (1 - ULP1) * X <= F2Q R /\ F2Q R <= (1 + ULP1) * X).
Proof.
  intros He X R. subst R. unfold binary_round.
  set (F := fexp prec emax (Z.pos (digits2_pos m) + e)).
  destruct (shl_align_spec m e F) as [Hez Hmz].
  destruct (shl_align m e F) as [mz ez]. cbn [fst snd] in Hez, Hmz.
  assert (Hle : (ez <= e)%Z) by lia.
  assert (Hdig : (Zdigits2 (Zpos mz) + ez = Zpos (digits2_pos m) + e)%Z).
  { rewrite Hmz, Hez.
    rewrite Zdigits2_shift by lia. cbn [Zdigits2]. lia. }
  assert (HF : fexp prec emax (Zdigits2 (Zpos mz) + ez) = F)
    by (rewrite Hdig; reflexivity).
  assert (HX : inject_Z (Zpos mz) * 2 ^ ez == X).
  { symmetry. subst X. apply scale_mantissa; [exact Hle|].
    rewrite Hmz, Hez. reflexivity. }
  assert (HX0 : 0 <= X).
  { subst X. apply Qmult_le_0_compat; [|apply Qlt_le_weak, Qpow2_pos].
    change 0 with (inject_Z 0). rewrite <- Zle_Qle. lia. }
  pose proof (Qpow2_pos ez) as Hpez.
  destruct (binary_round_aux_value (Zpos mz) ez loc_Exact X)
    as [Hinf|(Hgood & Hexact & Hhi & Hlo & Hrel)].
  - lia.
  - rewrite HF. lia.
  - rewrite HX. apply Qle_refl.
  - rewrite inject_Z_plus, <- HX. change (inject_Z 1) with 1. nra.
  - left. exact Hinf.
  - right. split; [exact Hgood|]. rewrite HF in *.
    pose proof ULP1_small as [Hu0 Hu1].
    destruct Hrel as [Hmin|Hrel].
    + assert (Heq : F = ez) by (subst F; rewrite fexp_eq in *; lia).
      rewrite (Hexact eq_refl Heq), HX. split; nra.
    + split; nra.
Qed.

(** The sum of two floats that are not negative. *)
Lemma add_value (x y : float) :
  good x -> good y ->
  (SFadd prec emax x y = S754_infinity false /\ 2 ^ 1023 <= F2Q x + F2Q y) \/
  (good (SFadd prec emax x y) /\
   (1 - ULP1) * (F2Q x + F2Q y) <= F2Q (SFadd prec emax x y) /\
   F2Q (SFadd prec emax x y) <= (1 + ULP1) * (F2Q x + F2Q y)).
Proof.
  pose proof ULP1_small as [Hu0 Hu1].
  destruct x as [sx|sx| |sx mx ex]; destruct y as [sy|sy| |sy my ey];
    cbn [good]; try contradiction.
  - intros _ _. right. destruct sx, sy; cbn; repeat split; lra.
  - intros _ Hy. right.
    pose proof (good_nonneg (S754_finite sy my ey) Hy) as H0.
    cbn [SFadd]. split; [exact Hy|]. cbn [F2Q] in *. split; nra.
  - intros Hx _. right.
    pose proof (good_nonneg (S754_finite sx mx ex) Hx) as H0.
    cbn [SFadd]. split; [exact Hx|]. cbn [F2Q] in *. split; nra.
  - intros [-> Hex] [-> Hey]. cbn [SFadd cond_Zopp F2Q].
    set (ez := Z.min ex ey).
    destruct (shl_align_spec mx ex ez) as [_ Hax].
    destruct (shl_align_spec my ey ez) as [_ Hay].
    replace (Z.min ex ez) with ez in Hax by lia.
    replace (Z.min ey ez) with ez in Hay by lia.
    set (a := fst (shl_align mx ex ez)) in *.
    set (b := fst (shl_align my ey ez)) in *.
    change (Z.pos a + Z.pos b)%Z with (Z.pos (a + b)).
    cbn [binary_normalize].
    assert (Hsum : inject_Z (Z.pos (a + b)) * 2 ^ ez
                   == inject_Z (Z.pos mx) * 2 ^ ex
                      + inject_Z (Z.pos my) * 2 ^ ey).
    { rewrite Pos2Z.inj_add, inject_Z_plus, Qmult_plus_distr_l.
      rewrite (scale_mantissa (Z.pos mx) (Z.pos a) ex ez) by (subst ez; lia).
      rewrite (scale_mantissa (Z.pos my) (Z.pos b) ey ez) by (subst ez; lia).
      reflexivity. }
    destruct (binary_round_value (a + b) ez ltac:(subst ez; lia))
      as [[Hinf Hbig]|(Hgood & Hlo & Hhi)].
    + left. split; [exact Hinf|]. rewrite <- Hsum. exact Hbig.
    + right. split; [exact Hgood|]. rewrite <- Hsum. split; assumption.
Qed.

(** The quotient of a float that is not negative by a positive one. *)
Lemma div_value (x : float) (m2 : positive) (e2 : Z) :
  good x ->
  let y := S754_finite false m2 e2 in
  (SFdiv prec emax x y = S754_infinity false /\ 2 ^ 1023 <= F2Q x / F2Q y) \/
  (good (SFdiv prec emax x y) /\
   (1 - ULP1) * (F2Q x / F2Q y) - ETA <= F2Q (SFdiv prec emax x y) /\
   F2Q (SFdiv prec emax x y) <= (1 + ULP1) * (F2Q x / F2Q y) + ETA).
Proof.
  pose proof ULP1_small as [Hu0 Hu1].
  assert (Heta : 0 < ETA) by apply Qpow2_pos.
  intros Hx y.
  assert (HY : 0 < F2Q y).
  { subst y. cbn [F2Q cond_Zopp].
    apply Qmult_lt_0_compat; [reflexivity|apply Qpow2_pos]. }
  destruct x as [sx|sx| |sx m1 e1]; cbn [good] in Hx; try contradiction.
  - right. subst y. cbn [SFdiv F2Q good]. split; [exact I|].
    unfold Qdiv. rewrite !Qmult_0_l, Qmult_0_r. split; lra.
  - destruct Hx as [-> He1]. subst y. cbn [SFdiv xorb].
    destruct (div_core_spec m1 m2 e1 e2)
      as (Hq & Hexp & s & Hs & He & Hdiv).
    cbv zeta in Hq, Hexp, Hdiv.
    destruct (SFdiv_core_binary prec emax (Z.pos m1) e1 (Z.pos m2) e2)
      as [[q e'] l]. cbn [fst snd] in Hq, Hexp, He, Hdiv.
    set (X := F2Q (S754_finite false m1 e1)) in *.
    set (Y := F2Q (S754_finite false m2 e2)) in *.
    assert (HXY : X == inject_Z (Zpos m1 * 2 ^ s) * 2 ^ e' * 2 ^ e2).
    { subst X. cbn [F2Q cond_Zopp]. rewrite He.
      rewrite inject_Z_mult, Qpow2_inject, !Qpow2_add by exact Hs. ring. }
    assert (HYq : Y == inject_Z (Zpos m2) * 2 ^ e2) by reflexivity.
    pose proof (Qpow2_pos e') as Hpe'. pose proof (Qpow2_pos e2) as Hpe2.
    assert (HP : 0 < 2 ^ e' * 2 ^ e2) by (apply Qmult_lt_0_compat; assumption).
    assert (Hlo : inject_Z q * 2 ^ e' <= X / Y).
    { apply Qle_shift_div_l; [exact HY|]. rewrite HXY, HYq.
      setoid_replace (inject_Z q * 2 ^ e' * (inject_Z (Z.pos m2) * 2 ^ e2))
        with (inject_Z (q * Z.pos m2) * (2 ^ e' * 2 ^ e2))
        by (rewrite inject_Z_mult; ring).
      rewrite <- Qmult_assoc.
      apply Qmult_le_compat_r; [|apply Qlt_le_weak, HP].
      rewrite <- Zle_Qle. apply Hdiv. }
    assert (Hhi : X / Y <= inject_Z (q + 1) * 2 ^ e').
    { apply Qle_shift_div_r; [exact HY|]. rewrite HXY, HYq.
      setoid_replace (inject_Z (q + 1) * 2 ^ e' * (inject_Z (Z.pos m2) * 2 ^ e2))
        with (inject_Z ((q + 1) * Z.pos m2) * (2 ^ e' * 2 ^ e2))
        by (rewrite inject_Z_mult; ring).
      rewrite <- Qmult_assoc.
      apply Qmult_le_compat_r; [|apply Qlt_le_weak, HP].
      rewrite <- Zle_Qle. lia. }
    assert (HX0 : 0 <= X / Y).
    { eapply Qle_trans; [|exact Hlo].
      apply Qmult_le_0_compat; [|apply Qlt_le_weak, Hpe'].
      change 0 with (inject_Z 0). rewrite <- Zle_Qle. exact Hq. }
    destruct (binary_round_aux_value q e' l (X / Y) Hq Hexp Hlo Hhi)
      as [Hinf|(Hgood & _ & Hup & Hdown & Hrel)].
    + left. exact Hinf.
    + right. split; [exact Hgood|].
      destruct Hrel as [Hmin|Hrel].
      * rewrite Hmin in Hup, Hdown. fold ETA in Hup, Hdown. split; nra.
      * pose proof (Qpow2_pos (fexp prec emax (Zdigits2 q + e'))).
        split; nra.
Qed.

End RoundingError.

(** ** Sums and quotients of weights *)

Module WeightSums.

Import F64 Rounding RoundingError.

Local Open Scope Q_scope.

Lemma nonneg_weight_good (x : float) : nonneg_weight x = true -> good x.
Proof.
  destruct x as [s|s| |[|] m e]; cbn [nonneg_weight good]; try discriminate;
    [trivial|].
  intros Hb. split; [reflexivity|].
  unfold bounded, canonical_mantissa in Hb.
  apply andb_prop in Hb. destruct Hb as [Hc _].
  apply Z.eqb_eq in Hc. rewrite fexp_eq in Hc. lia.
Qed.

Lemma forallb_nonneg_good (vs : list float) :
  forallb nonneg_weight vs = true -> Forall good vs.
Proof.
  intros Hall. apply Forall_forall. intros v Hv.
  apply nonneg_weight_good.
  rewrite forallb_forall in Hall. apply Hall, Hv.
Qed.

Lemma value_sum_nonneg (vs : list float) : Forall good vs -> 0 <= value_sum vs.
Proof.
  induction 1 as [|v vs Hv _ IH]; cbn [value_sum fold_right].
  - apply Qle_refl.
  - fold (value_sum vs). pose proof (good_nonneg v Hv). lra.
Qed.

Lemma value_le_sum (vs : list float) (v : float) :
  Forall good vs -> In v vs -> F2Q v <= value_sum vs.
Proof.
  induction 1 as [|w vs Hw Hvs IH]; intros Hin; [destruct Hin|].
  cbn [value_sum fold_right]. fold (value_sum vs).
  pose proof (good_nonneg w Hw). pose proof (value_sum_nonneg vs Hvs).
  destruct Hin as [->|Hin]; [lra|]. specialize (IH Hin). lra.
Qed.

Lemma add_to_infinity (vs : list float) :
  Forall good vs ->
  fold_left (SFadd prec emax) vs (S754_infinity false) = S754_infinity false.
Proof.
  induction 1 as [|v vs Hv _ IH]; cbn [fold_left]; [reflexivity|].
  destruct v as [s|s| |s m e]; cbn [good] in Hv; try contradiction;
    cbn [SFadd]; exact IH.
Qed.

Lemma Qpown_up (n : nat) : 1 <= Qpown (1 + ULP1) n.
Proof.
  pose proof ULP1_small as [Hu0 _].
  induction n as [|n IH]; cbn [Qpown]; [apply Qle_refl|]. nra.
Qed.

Lemma Qpown_down (n : nat) :
  0 < Qpown (1 - ULP1) n /\ Qpown (1 - ULP1) n <= 1.
Proof.
  pose proof ULP1_small as [Hu0 Hu1].
  induction n as [|n [IH0 IH1]]; cbn [Qpown]; [split; lra|]. split; nra.
Qed.

Lemma Qpown_up_le (n m : nat) :
  (n <= m)%nat -> Qpown (1 + ULP1) n <= Qpown (1 + ULP1) m.
Proof.
  pose proof ULP1_small as [Hu0 _].
  induction 1 as [|m _ IH]; [apply Qle_refl|]. cbn [Qpown].
  pose proof (Qpown_up m). nra.
Qed.

Lemma Qpown_down_le (n m : nat) :
  (n <= m)%nat -> Qpown (1 - ULP1) m <= Qpown (1 - ULP1) n.
Proof.
  pose proof ULP1_small as [Hu0 Hu1].
  induction 1 as [|m _ IH]; [apply Qle_refl|]. cbn [Qpown].
  pose proof (Qpown_down m) as [H0 H1]. nra.
Qed.

(** A float sum of numbers that are not negative: it overflows, or it is
    the exact sum up to one rounding for each number. *)
Lemma sum_value (vs : list float) :
  forall acc, good acc -> Forall good vs ->
  (fold_left (SFadd prec emax) vs acc = S754_infinity false /\
   2 ^ 1023 <= Qpown (1 + ULP1) (List.length vs) * (F2Q acc + value_sum vs)) \/
  (good (fold_left (SFadd prec emax) vs acc) /\
   Qpown (1 - ULP1) (List.length vs) * (F2Q acc + value_sum vs)
   <= F2Q (fold_left (SFadd prec emax) vs acc) /\
   F2Q (fold_left (SFadd prec emax) vs acc)
   <= Qpown (1 + ULP1) (List.length vs) * (F2Q acc + value_sum vs)).
Proof.
  pose proof ULP1_small as [Hu0 Hu1].
  induction vs as [|v vs IH]; intros acc Hacc Hall.
  - right. cbn [fold_left List.length Qpown value_sum fold_right].
    split; [exact Hacc|]. split; lra.
  - inversion Hall as [|v' vs' Hv Hvs]; subst v' vs'.
    cbn [fold_left List.length Qpown value_sum fold_right].
    fold (value_sum vs).
    pose proof (good_nonneg acc Hacc) as Ha0.
    pose proof (good_nonneg v Hv) as Hv0.
    pose proof (value_sum_nonneg vs Hvs) as Hs0.
    pose proof (Qpown_up (List.length vs)) as Hp.
    pose proof (Qpown_down (List.length vs)) as [Hm0 Hm1].
    set (P := Qpown (1 + ULP1) (List.length vs)) in *.
    set (M := Qpown (1 - ULP1) (List.length vs)) in *.
    set (S := value_sum vs) in *.
    destruct (add_value acc v Hacc Hv) as [[Hinf Hbig]|(Hg & Hlo & Hhi)].
    + left. rewrite Hinf. split; [apply add_to_infinity, Hvs|].
      assert (Hstep : F2Q acc + F2Q v <= (1 + ULP1) * P * (F2Q acc + (F2Q v + S))).
      { assert (H1 : 1 <= (1 + ULP1) * P) by nra.
        assert (H2 : 0 <= F2Q acc + (F2Q v + S)) by lra.
        assert (H3 : 1 * (F2Q acc + (F2Q v + S))
                     <= (1 + ULP1) * P * (F2Q acc + (F2Q v + S)))
          by (apply Qmult_le_compat_r; assumption).
        lra. }
      lra.
    + set (a' := SFadd prec emax acc v) in *.
      pose proof (good_nonneg a' Hg) as Ha'0.
      assert (Hup : P * (F2Q a' + S) <= (1 + ULP1) * P * (F2Q acc + (F2Q v + S))).
      { assert (H1 : F2Q a' + S <= (1 + ULP1) * (F2Q acc + (F2Q v + S))) by nra.
        assert (H2 : P * (F2Q a' + S) <= P * ((1 + ULP1) * (F2Q acc + (F2Q v + S))))
          by (apply Qmult_le_l; [lra|exact H1]).
        lra. }
      assert (Hdown : (1 - ULP1) * M * (F2Q acc + (F2Q v + S)) <= M * (F2Q a' + S)).
      { assert (H1 : (1 - ULP1) * (F2Q acc + (F2Q v + S)) <= F2Q a' + S) by nra.
        assert (H2 : M * ((1 - ULP1) * (F2Q acc + (F2Q v + S))) <= M * (F2Q a' + S))
          by (apply Qmult_le_l; [lra|exact H1]).
        lra. }
      destruct (IH a' Hg Hvs) as [[Hinf Hbig]|(Hg' & Hlo' & Hhi')].
      * left. split; [exact Hinf|]. fold P S in Hbig. lra.
      * right. split; [exact Hg'|]. fold P M S in Hlo', Hhi'. split; lra.
Qed.

(** The quotients of [normalize_weights]: numbers that are not negative
    over a positive total. None overflows as long as the exact quotient is
    below 2^1023, and their exact sum is that of the weights over the total
    up to one rounding and one smallest float for each. *)
Lemma quotients_value (mT : positive) (eT : Z) (ws : list float) :
  let T := S754_finite false mT eT in
  Forall good ws ->
  Forall (fun v => F2Q v / F2Q T < 2 ^ 1023) ws ->
  Forall good (map (fun v => SFdiv prec emax v T) ws) /\
  (1 - ULP1) * (value_sum ws / F2Q T) - inject_Z (Z.of_nat (List.length ws)) * ETA
  <= value_sum (map (fun v => SFdiv prec emax v T) ws) /\
  value_sum (map (fun v => SFdiv prec emax v T) ws)
  <= (1 + ULP1) * (value_sum ws / F2Q T)
     + inject_Z (Z.of_nat (List.length ws)) * ETA.
Proof.
  intros T Hall Hsmall.
  induction Hall as [|v ws Hv Hws IH].
  - cbn [map value_sum fold_right List.length]. split; [constructor|].
    unfold Qdiv. rewrite !Qmult_0_l, Qmult_0_r.
    change (inject_Z (Z.of_nat 0)) with 0. split; lra.
  - inversion Hsmall as [|v' ws' Hvs Hwss]; subst v' ws'.
    destruct (IH Hwss) as (Hg & Hlo & Hhi).
    cbn [map value_sum fold_right List.length].
    fold (value_sum ws).
    fold (value_sum (map (fun v0 => SFdiv prec emax v0 T) ws)).
    rewrite Nat2Z.inj_succ. unfold Z.succ. rewrite inject_Z_plus.
    change (inject_Z 1) with 1.
    setoid_replace ((F2Q v + value_sum ws) / F2Q T)
      with (F2Q v / F2Q T + value_sum ws / F2Q T) by (unfold Qdiv; ring).
    destruct (div_value v mT eT Hv) as [[_ Hbig]|(Hgq & Hqlo & Hqhi)].
    + exfalso. fold T in Hbig. lra.
    + fold T in Hgq, Hqlo, Hqhi. split; [constructor; assumption|].
      split; lra.
Qed.

(** Up to 24 roundings change a number by less than six parts in 10^15. *)
Lemma roundings_small (n : nat) :
  (n <= 24)%nat ->
  1 - (6 # 1000000000000000) <= Qpown (1 - ULP1) n /\
  Qpown (1 + ULP1) n <= 1 + (6 # 1000000000000000) /\
  inject_Z (Z.of_nat n) * ETA <= (6 # 1000000000000000).
Proof.
  intros Hn. split; [|split].
  - eapply Qle_trans; [|apply (Qpown_down_le n 24 Hn)].
    vm_compute. discriminate.
  - eapply Qle_trans; [apply (Qpown_up_le n 24 Hn)|].
    vm_compute. discriminate.
  - apply Qle_trans with (24 * ETA); [|vm_compute; discriminate].
    apply Qmult_le_compat_r; [|apply Qlt_le_weak, Qpow2_pos].
    change 24 with (inject_Z 24). rewrite <- Zle_Qle. lia.
Qed.

(** The float sum of the normalised weights. *)
Lemma normalized_sum (vs : list float) (total : float) :
  total = fold_left (SFadd prec emax) vs (S754_zero false) ->
  Forall good vs -> (List.length vs <= 24)%nat ->
  is_finite total = true -> SFleb total (S754_zero false) = false ->
  Forall good (map (fun v => SFdiv prec emax v total) vs) /\
  good (fold_left (SFadd prec emax)
          (map (fun v => SFdiv prec emax v total) vs) (S754_zero false)) /\
  1 - (1 # 10000000000000)
  <= F2Q (fold_left (SFadd prec emax)
            (map (fun v => SFdiv prec emax v total) vs) (S754_zero false)) /\
  F2Q (fold_left (SFadd prec emax)
         (map (fun v => SFdiv prec emax v total) vs) (S754_zero false))
  <= 1 + (1 # 10000000000000).
Proof.
  intros Htotal Hall Hlen Hfin Hpos.
  pose proof ULP1_small as [Hu0 _].
  assert (Hu : ULP1 <= (6 # 1000000000000000)) by (vm_compute; discriminate).
  assert (Hhuge : 4 < 2 ^ 1023) by reflexivity.
  destruct (roundings_small (List.length vs) Hlen) as (HM & HP & Heta).
  pose proof (Qpown_up (List.length vs)) as HP1.
  pose proof (Qpown_down (List.length vs)) as [HM0 HM1].
  pose proof (value_sum_nonneg vs Hall) as HA0.
  assert (Hn0 : 0 <= inject_Z (Z.of_nat (List.length vs)) * ETA).
  { apply Qmult_le_0_compat; [|apply Qlt_le_weak, Qpow2_pos].
    change 0 with (inject_Z 0). rewrite <- Zle_Qle. lia. }
  destruct (sum_value vs (S754_zero false) I Hall)
    as [[Hinf _]|(Hg & Hlo & Hhi)].
  { rewrite <- Htotal in Hinf. rewrite Hinf in Hfin. discriminate. }
  rewrite <- Htotal in Hg, Hlo, Hhi. cbn [F2Q] in Hlo, Hhi.
  set (P := Qpown (1 + ULP1) (List.length vs)) in *.
  set (M := Qpown (1 - ULP1) (List.length vs)) in *.
  set (A := value_sum vs) in *.
  clear Htotal.
  destruct total as [s|s| |s mT eT]; cbn [good] in Hg; try contradiction.
  { destruct s; discriminate. }
  destruct Hg as [-> HeT].
  set (T := S754_finite false mT eT) in *.
  assert (HT : 0 < F2Q T).
  { subst T. cbn [F2Q cond_Zopp].
    apply Qmult_lt_0_compat; [reflexivity|apply Qpow2_pos]. }
  assert (HlowA : (1 - (6 # 1000000000000000)) * A <= F2Q T).
  { assert (H1 : (1 - (6 # 1000000000000000)) * A <= M * (0 + A))
      by (rewrite Qplus_0_l; apply Qmult_le_compat_r; assumption).
    lra. }
  assert (HupA : F2Q T <= (1 + (6 # 1000000000000000)) * A).
  { assert (H1 : P * (0 + A) <= (1 + (6 # 1000000000000000)) * A)
      by (rewrite Qplus_0_l; apply Qmult_le_compat_r; assumption).
    lra. }
  assert (Hxhi : A / F2Q T <= 1 + (7 # 1000000000000000)).
  { apply Qle_shift_div_r; [exact HT|]. lra. }
  assert (Hxlo : 1 - (6 # 1000000000000000) <= A / F2Q T).
  { apply Qle_shift_div_l; [exact HT|]. lra. }
  assert (Hsmall : Forall (fun v => F2Q v / F2Q T < 2 ^ 1023) vs).
  { apply Forall_forall. intros v Hv.
    pose proof (value_le_sum vs v Hall Hv) as HvA. fold A in HvA.
    apply Qle_lt_trans with (1 + (7 # 1000000000000000)); [|reflexivity].
    apply Qle_shift_div_r; [exact HT|]. lra. }
  destruct (quotients_value mT eT vs Hall Hsmall) as (Hgq & Hqlo & Hqhi).
  fold T A in Hgq, Hqlo, Hqhi.
  set (qs := map (fun v => SFdiv prec emax v T) vs) in *.
  set (x := A / F2Q T) in *.
  assert (Hsq_hi : value_sum qs <= 1 + (20 # 1000000000000000)) by nra.
  assert (Hsq_lo : 1 - (20 # 1000000000000000) <= value_sum qs) by nra.
  split; [exact Hgq|].
  assert (Hlenq : @List.length float qs = List.length vs)
    by (subst qs; apply length_map).
  clearbody qs.
  pose proof (sum_value qs (S754_zero false) I Hgq) as Hsum.
  rewrite Hlenq in Hsum. fold P M in Hsum. cbn [F2Q] in Hsum.
  destruct Hsum as [[_ Hbig]|(Hg' & Hlo' & Hhi')].
  { exfalso. assert (P * (0 + value_sum qs) <= 4) by nra. lra. }
  split; [exact Hg'|]. split; nra.
Qed.

End WeightSums.

(** C2 as the code has it, on the floats Python runs it on: for a mapping
    of at most 24 weights, none negative, whose float sum is finite and
    positive, normalize_weights returns a mapping over exactly the keys of
    the input, in the input's order (an hour missing from the input is
    missing from the result), every value the input weight divided by the
    total, finite and not negative; and the float sum of the returned values
    is finite and within 1/10^13 of 1. *)
Theorem normalize_weights_positive_total (wdict : dict F64.float) :
  let total := py_sum (dict_values wdict) in
  forallb nonneg_weight (dict_values wdict) = true ->
  (List.length wdict <= 24)%nat ->
  is_finite total = true ->
  r_le0 total = false ->
  dict_keys (normalize_weights wdict) = dict_keys wdict /\
  dict_values (normalize_weights wdict)
  = map (fun v => SFdiv F64.prec F64.emax v total) (dict_values wdict) /\
  forallb (fun q => is_finite q && F64.not_negative q)
    (dict_values (normalize_weights wdict)) = true /\
  is_finite (py_sum (dict_values (normalize_weights wdict))) = true /\
  (Qabs (F2Q (py_sum (dict_values (normalize_weights wdict))) - 1)
   <= 1 # 10000000000000)%Q.
Proof.
  intros total Hall Hlen Hfin Hpos.
  assert (Hlen' : (List.length (dict_values wdict) <= 24)%nat)
    by (unfold dict_values; rewrite length_map; exact Hlen).
  destruct (WeightSums.normalized_sum (dict_values wdict) total eq_refl
              (WeightSums.forallb_nonneg_good _ Hall) Hlen' Hfin Hpos)
    as (Hgq & Hg & Hlo & Hhi).
  rewrite (normalize_weights_values wdict Hpos).
  split; [apply normalize_weights_keys, Hpos|].
  split; [reflexivity|].
  change (py_sum (dict_values wdict)) with total.
  change (@r_div F64.float F64_real) with (SFdiv F64.prec F64.emax).
  split; [|split].
  - apply forallb_forall. intros q Hq.
    rewrite Forall_forall in Hgq. specialize (Hgq q Hq).
    destruct q as [s|s| |s m e]; cbn [good] in Hgq; try contradiction;
      [reflexivity|].
    destruct Hgq as [-> _]. reflexivity.
  - change (py_sum (map (fun v => SFdiv F64.prec F64.emax v total)
                      (dict_values wdict)))
      with (fold_left (SFadd F64.prec F64.emax)
              (map (fun v => SFdiv F64.prec F64.emax v total)
                 (dict_values wdict)) (S754_zero false)).
    destruct (fold_left _ _ _); cbn [good] in Hg; try contradiction;
      reflexivity.
  - change (py_sum (map (fun v => SFdiv F64.prec F64.emax v total)
                      (dict_values wdict)))
      with (fold_left (SFadd F64.prec F64.emax)
              (map (fun v => SFdiv F64.prec F64.emax v total)
                 (dict_values wdict)) (S754_zero false)).
    apply Qabs_Qle_condition. split; lra.
Qed.

Lemma normalize_weights_positive_total_witness :
  dict_keys (normalize_weights Examples.default_weights)
  = dict_keys Examples.default_weights /\
  dict_values (normalize_weights Examples.default_weights)
  = map (fun v => SFdiv F64.prec F64.emax v
                    (py_sum (dict_values Examples.default_weights)))
      (dict_values Examples.default_weights) /\
  forallb (fun q => is_finite q && F64.not_negative q)
    (dict_values (normalize_weights Examples.default_weights)) = true /\
  is_finite (py_sum (dict_values (normalize_weights Examples.default_weights)))
  = true /\
  (Qabs (F2Q (py_sum (dict_values (normalize_weights Examples.default_weights)))
         - 1)
   <= 1 # 10000000000000)%Q.
Proof.
  apply (normalize_weights_positive_total Examples.default_weights).
  - reflexivity.
  - apply le_n.
  - reflexivity.
  - reflexivity.
Defined.

(** C2 fails as stated: a mapping that names hour 9 only has the positive
    total 1.0, and the result names hour 9 only, so hour 0 gets no fraction;
    and with all 24 hours given, the dashboard's default weights, the float
    values returned sum to 0.9999999999999996. *)
Lemma normalize_weights_adds_no_hours :
  r_le0 (py_sum (dict_values Examples.hour9_only)) = false /\
  normalize_weights Examples.hour9_only = [ ("9"%string, F64.one) ] /\
  dict_get (normalize_weights Examples.hour9_only) "0" = None /\
  List.length (normalize_weights Examples.default_weights) = 24%nat /\
  py_sum (dict_values (normalize_weights Examples.default_weights))
  = S754_finite false 9007199254740988 (-53).
Proof. vm_compute. repeat split; reflexivity. Qed.

(** Outside these conditions the returned values need not sum to 1, even
    roughly. Two weights of 1e308 have the float sum infinity, which is
    positive, so every fraction is 0.0 and so is their sum; and the weights
    2^53, 0.75 and 3 - 2^53, one of them negative, have the float sum 3.0,
    while the fractions returned sum to 1.5. *)
Example normalize_weights_outside_the_conditions :
  py_sum (dict_values Examples.huge_weights) = S754_infinity false /\
  r_le0 (py_sum (dict_values Examples.huge_weights)) = false /\
  py_sum (dict_values (normalize_weights Examples.huge_weights)) = F64.zero /\
  nonneg_weight (Examples.lit "-9007199254740989") = false /\
  py_sum (dict_values Examples.signed_weights) = Examples.lit "3.0" /\
  py_sum (dict_values (normalize_weights Examples.signed_weights))
  = Examples.lit "1.5".
Proof. vm_compute. repeat split; reflexivity. Qed.

(** ** Duration texts *)

Section StringFacts.

Local Open Scope string_scope.

Lemma list_ascii_of_string_app (a b : string) :
  list_ascii_of_string (a ++ b)
  = (list_ascii_of_string a ++ list_ascii_of_string b)%list.
Proof.
  induction a as [|c a IH]; simpl; [reflexivity|]. now rewrite IH.
Qed.

Lemma string_of_list_ascii_app (l1 l2 : list ascii) :
  string_of_list_ascii (l1 ++ l2)%list
  = string_of_list_ascii l1 ++ string_of_list_ascii l2.
Proof.
  induction l1 as [|c l1 IH]; simpl; [reflexivity|]. now rewrite IH.
Qed.

Lemma endswith_app (body : string) (c c' : ascii) :
  Str.endswith (body ++ String c "") c' = Ascii.eqb c c'.
Proof.
  unfold Str.endswith. rewrite list_ascii_of_string_app. simpl.
  rewrite rev_app_distr. reflexivity.
Qed.

Lemma endswith_inv (t : string) (c : ascii) :
  Str.endswith t c = true -> exists body, t = body ++ String c "".
Proof.
  unfold Str.endswith. intros Hend.
  destruct (rev (list_ascii_of_string t)) as [|d r] eqn:Hrev; [discriminate|].
  apply Ascii.eqb_eq in Hend. subst d.
  exists (string_of_list_ascii (rev r)).
  rewrite <- (string_of_list_ascii_of_string t).
  rewrite <- (rev_involutive (list_ascii_of_string t)), Hrev. simpl.
  rewrite string_of_list_ascii_app. reflexivity.
Qed.

Lemma drop_last_app (body : string) (c : ascii) :
  Str.drop_last (body ++ String c "") = body.
Proof.
  unfold Str.drop_last. rewrite list_ascii_of_string_app. simpl.
  rewrite removelast_last. apply string_of_list_ascii_of_string.
Qed.

End StringFacts.

(** ** The numerals of [float] *)

Section FloatNumerals.

Import FloatParse.

Lemma prev_of_snoc (a : list ascii) (c : ascii) : prev_of (a ++ [c]) = Some c.
Proof. unfold prev_of. rewrite rev_app_distr. reflexivity. Qed.

Lemma ends_in_digit_prev (a : list ascii) :
  ends_in_digit a <-> exists d, prev_of a = Some d /\ Str.is_digit d = true.
Proof.
  unfold ends_in_digit, prev_of. split.
  - intros (l' & d & -> & Hd). exists d. rewrite rev_app_distr. auto.
  - intros (d & Hp & Hd). destruct (rev a) as [|c r] eqn:Hr; [discriminate|].
    injection Hp as ->. exists (rev r), d. split; [|exact Hd].
    rewrite <- (rev_involutive a), Hr. reflexivity.
Qed.

Lemma remove_underscores_nil (prev : option ascii) :
  remove_underscores prev [] = if is_under prev then None else Some [].
Proof.
  destruct prev as [[[] [] [] [] [] [] [] []]|]; reflexivity.
Qed.

Lemma remove_underscores_cons (prev : option ascii) (c : ascii)
  (s : list ascii) :
  remove_underscores prev (c :: s)
  = if Ascii.eqb c "_" then
      match prev with
      | Some p => if Str.is_digit p then remove_underscores (Some c) s else None
      | None => None
      end
    else if is_under prev then
           if Str.is_digit c
           then option_map (cons c) (remove_underscores (Some c) s)
           else None
         else option_map (cons c) (remove_underscores (Some c) s).
Proof.
  cbn [remove_underscores]. destruct (Ascii.eqb c "_"); [reflexivity|].
  destruct prev as [[[] [] [] [] [] [] [] []]|]; reflexivity.
Qed.

Lemma remove_underscores_spec (b a b' : list ascii) :
  remove_underscores (prev_of a) b = Some b' <->
  under_ok a b /\ b' = without_underscores b.
Proof.
  revert a b'. induction b as [|c b IH]; intros a b'.
  - rewrite remove_underscores_nil. unfold under_ok.
    destruct (is_under (prev_of a)) eqn:Hu; split.
    + discriminate.
    + intros [[_ Hp] _]. destruct (Hp eq_refl) as (d & l' & Hnil & _).
      discriminate.
    + intros [= <-]. split; [split|reflexivity]; [|discriminate].
      intros x y Hxy. destruct x; discriminate.
    + intros [_ ->]. reflexivity.
  - rewrite remove_underscores_cons.
    destruct (Ascii.eqb c "_") eqn:Hc.
    + apply Ascii.eqb_eq in Hc. subst c.
      specialize (IH (a ++ ["_"%char]) b'). rewrite prev_of_snoc in IH.
      cbn [without_underscores filter Ascii.eqb Bool.eqb negb].
      fold (without_underscores b).
      split.
      * destruct (prev_of a) as [p|] eqn:Hp; [|discriminate].
        destruct (Str.is_digit p) eqn:Hd; [|discriminate].
        intros Hru. destruct (proj1 IH Hru) as [[Hsplit Hpend] ->].
        split; [|reflexivity]. split.
        -- intros x y Hxy. destruct x as [|c x].
           ++ injection Hxy as <-. rewrite app_nil_r. split.
              ** apply ends_in_digit_prev. eauto.
              ** apply Hpend. rewrite prev_of_snoc. reflexivity.
           ++ injection Hxy as <- ->.
              destruct (Hsplit x y eq_refl) as [He Hs].
              rewrite <- app_assoc in He. auto.
        -- intros Hu. rewrite Hp in Hu. cbn [is_under] in Hu.
           apply Ascii.eqb_eq in Hu. subst p. discriminate.
      * intros [[Hsplit Hpend] ->].
        destruct (Hsplit [] b eq_refl) as [He Hs]. rewrite app_nil_r in He.
        apply ends_in_digit_prev in He as (d & -> & ->).
        apply (proj2 IH). split; [|reflexivity]. split.
        -- intros x y ->.
           destruct (Hsplit ("_"%char :: x) y eq_refl) as [He' Hs'].
           rewrite <- app_assoc. auto.
        -- intros _. exact Hs.
    + specialize (IH (a ++ [c])). rewrite prev_of_snoc in IH.
      assert (Hwo : without_underscores (c :: b) = c :: without_underscores b).
      { unfold without_underscores. cbn [filter]. rewrite Hc. reflexivity. }
      rewrite Hwo.
      assert (Hsplits :
                (forall x y, c :: b = x ++ "_"%char :: y ->
                             ends_in_digit (a ++ x) /\ starts_with_digit y)
                <-> (forall x y, b = x ++ "_"%char :: y ->
                                 ends_in_digit ((a ++ [c]) ++ x) /\
                                 starts_with_digit y)).
      { split.
        - intros H x y ->. rewrite <- app_assoc. apply (H (c :: x) y eq_refl).
        - intros H x y Hxy. destruct x as [|c' x].
          + injection Hxy as -> _. rewrite Ascii.eqb_refl in Hc. discriminate.
          + injection Hxy as <- ->. specialize (H x y eq_refl).
            rewrite <- app_assoc in H. exact H. }
      assert (Hnext : is_under (Some c) = true -> starts_with_digit b).
      { cbn [is_under]. rewrite Hc. discriminate. }
      assert (Hmap : forall b0,
                 option_map (cons c) (remove_underscores (Some c) b) = Some b0
                 <-> exists b1, remove_underscores (Some c) b = Some b1 /\
                                b0 = c :: b1).
      { intros b0. destruct (remove_underscores (Some c) b); cbn [option_map];
          split.
        - intros [= <-]. eauto.
        - intros (b1 & [= <-] & ->). reflexivity.
        - discriminate.
        - intros (b1 & Hn & _). discriminate. }
      unfold under_ok in *.
      destruct (is_under (prev_of a)) eqn:Hu.
      * destruct (Str.is_digit c) eqn:Hd.
        -- rewrite Hmap. split.
           ++ intros (b1 & Hru & ->).
              destruct (proj1 (IH b1) Hru) as [[Hs _] ->].
              split; [|reflexivity]. split; [apply Hsplits, Hs|].
              intros _. exists c, b. auto.
           ++ intros [[Hs _] ->]. exists (without_underscores b).
              split; [|reflexivity]. apply IH. split; [|reflexivity].
              split; [apply Hsplits, Hs|rewrite prev_of_snoc; exact Hnext].
        -- split; [discriminate|].
           intros [[_ Hp] _]. destruct (Hp eq_refl) as (d & l' & [= <- <-] & Hd').
           congruence.
      * rewrite Hmap. split.
        -- intros (b1 & Hru & ->).
           destruct (proj1 (IH b1) Hru) as [[Hs _] ->].
           split; [|reflexivity]. split; [apply Hsplits, Hs|discriminate].
        -- intros [[Hs _] ->]. exists (without_underscores b).
           split; [|reflexivity]. apply IH. split; [|reflexivity].
           split; [apply Hsplits, Hs|rewrite prev_of_snoc; exact Hnext].
Qed.

Lemma read_sign_eq (l : list ascii) :
  read_sign l
  = match l with
    | c :: l' =>
        if Ascii.eqb c "-" then (true, l')
        else if Ascii.eqb c "+" then (false, l')
        else (false, l)
    | [] => (false, l)
    end.
Proof.
  destruct l as [|[[] [] [] [] [] [] [] []] l]; reflexivity.
Qed.

Lemma read_sign_split (l : list ascii) :
  exists sg, is_sign sg /\ l = sg ++ snd (read_sign l).
Proof.
  rewrite read_sign_eq. destruct l as [|c l].
  - exists []. split; [left; reflexivity|reflexivity].
  - destruct (Ascii.eqb c "-") eqn:Hm; [|destruct (Ascii.eqb c "+") eqn:Hp].
    + apply Ascii.eqb_eq in Hm. subst c. exists ["-"%char].
      split; [right; right; reflexivity|reflexivity].
    + apply Ascii.eqb_eq in Hp. subst c. exists ["+"%char].
      split; [right; left; reflexivity|reflexivity].
    + exists []. split; [left; reflexivity|reflexivity].
Qed.

(** A text that starts with neither sign is left as it is. *)
Lemma read_sign_unsigned (l : list ascii) :
  (forall l', l <> "-"%char :: l') -> (forall l', l <> "+"%char :: l') ->
  snd (read_sign l) = l.
Proof.
  intros Hm Hp. rewrite read_sign_eq. destruct l as [|c l]; [reflexivity|].
  destruct (Ascii.eqb c "-") eqn:Em.
  { apply Ascii.eqb_eq in Em. subst c. exfalso. apply (Hm l). reflexivity. }
  destruct (Ascii.eqb c "+") eqn:Ep.
  { apply Ascii.eqb_eq in Ep. subst c. exfalso. apply (Hp l). reflexivity. }
  reflexivity.
Qed.

Lemma read_sign_signed (sg body : list ascii) :
  is_sign sg -> sg <> [] -> snd (read_sign (sg ++ body)) = body.
Proof.
  intros [->|[->| ->]] Hne; [congruence|reflexivity|reflexivity].
Qed.

Lemma read_digits_spec (l : list ascii) (acc cnt : Z) :
  exists ds, l = ds ++ snd (read_digits l acc cnt) /\ digits ds /\
             snd (fst (read_digits l acc cnt)) = cnt + Z.of_nat (List.length ds) /\
             ~ starts_with_digit (snd (read_digits l acc cnt)).
Proof.
  revert acc cnt. induction l as [|c l IH]; intros acc cnt;
    cbn [read_digits].
  - exists []. cbn. repeat split; [constructor|lia|].
    intros (d & l' & Hnil & _). discriminate.
  - destruct (Str.is_digit c) eqn:Hc.
    + destruct (IH (10 * acc + (Str.code c - 48)) (cnt + 1))
        as (ds & Hl & Hds & Hcnt & Hrest).
      exists (c :: ds). cbn [app List.length]. repeat split.
      * f_equal. exact Hl.
      * constructor; assumption.
      * rewrite Hcnt. lia.
      * exact Hrest.
    + exists []. cbn. repeat split; [constructor|lia|].
      intros (d & l' & [= <- <-] & Hd). congruence.
Qed.

Lemma read_digits_app (ds rest : list ascii) (acc cnt : Z) :
  digits ds -> ~ starts_with_digit rest ->
  snd (read_digits (ds ++ rest) acc cnt) = rest /\
  snd (fst (read_digits (ds ++ rest) acc cnt)) = cnt + Z.of_nat (List.length ds).
Proof.
  intros Hds Hrest. revert acc cnt.
  induction Hds as [|c ds Hc _ IH]; intros acc cnt.
  - cbn [app List.length]. destruct rest as [|c rest]; cbn [read_digits].
    + cbn. split; [reflexivity|lia].
    + destruct (Str.is_digit c) eqn:Hc.
      * exfalso. apply Hrest. exists c, rest. auto.
      * cbn. split; [reflexivity|lia].
  - cbn [app read_digits List.length]. rewrite Hc.
    destruct (IH (10 * acc + (Str.code c - 48)) (cnt + 1)) as [H1 H2].
    split; [exact H1|]. rewrite H2. lia.
Qed.

Lemma exponent_letter (c : ascii) :
  Str.lower_char c = "e"%char ->
  Str.is_digit c = false /\ c <> "."%char /\ c <> "+"%char /\ c <> "-"%char.
Proof.
  destruct c as [[] [] [] [] [] [] [] []]; vm_compute; intros H;
    try discriminate H; repeat split; discriminate.
Qed.

Lemma digit_not_sign (c : ascii) :
  Str.is_digit c = true ->
  c <> "+"%char /\ c <> "-"%char /\ c <> "."%char.
Proof.
  destruct c as [[] [] [] [] [] [] [] []]; vm_compute; intros H;
    try discriminate H; repeat split; discriminate.
Qed.

Lemma exponent_part_start (ex : list ascii) :
  exponent_part ex ->
  ~ starts_with_digit ex /\ (forall l, ex <> "."%char :: l).
Proof.
  intros [->|(c & sg & ds & -> & Hc & _)].
  - split; [intros (d & l' & Hnil & _)|intros l]; discriminate.
  - destruct (exponent_letter c Hc) as (Hd & Hdot & _). split.
    + intros (d & l' & [= <- _] & Hd'). congruence.
    + intros l [= Heq _]. contradiction.
Qed.

Lemma read_exponent_spec (s : list ascii) :
  (exists x, read_exponent s = Some x) <-> exponent_part s.
Proof.
  unfold exponent_part. destruct s as [|c s]; cbn [read_exponent].
  - split; [left; reflexivity|eauto].
  - destruct (Ascii.eqb (Str.lower_char c) "e") eqn:Hc.
    + apply Ascii.eqb_eq in Hc.
      destruct (read_sign_split s) as (sg & Hsg & Hs).
      destruct (read_sign s) as [neg s1] eqn:Hrs. cbn [snd] in Hs.
      destruct (read_digits_spec s1 0 0) as (ds & Hds1 & Hds & Hcnt & _).
      split.
      * intros [x Hx]. right. exists c, sg, ds.
        destruct (read_digits s1 0 0) as [[v cnt] rest]. cbn [fst snd] in *.
        destruct rest; [|discriminate].
        destruct (0 <? cnt) eqn:Hpos; [|discriminate].
        rewrite app_nil_r in Hds1. subst s1.
        repeat split; auto.
        -- congruence.
        -- intros ->. cbn in Hcnt. apply Z.ltb_lt in Hpos. lia.
      * intros [Hnil|(c' & sg' & ds' & [= <- Hs'] & _ & Hsg' & Hne & Hds')];
          [discriminate|].
        assert (Hs1 : s1 = ds').
        { replace s1 with (snd (read_sign s)) by (rewrite Hrs; reflexivity).
          rewrite Hs'. destruct Hsg' as [->|Hsg'].
          - cbn [app]. apply read_sign_unsigned; intros l' ->;
              inversion Hds' as [|? ? Hd0 _]; subst;
              destruct (digit_not_sign _ Hd0) as (? & ? & _); congruence.
          - apply read_sign_signed; [right; exact Hsg'|].
            destruct Hsg' as [->| ->]; discriminate. }
        subst s1.
        destruct (read_digits_app ds' [] 0 0 Hds') as [Hr Hc'].
        { intros (d & l' & Hnil & _). discriminate. }
        rewrite app_nil_r in Hr, Hc'.
        destruct (read_digits ds' 0 0) as [[v cnt] rest]. cbn [fst snd] in *.
        subst rest.
        assert (Hpos : (0 <? cnt) = true).
        { apply Z.ltb_lt. rewrite Hc'. destruct ds'; [congruence|cbn [List.length]; lia]. }
        rewrite Hpos. eauto.
    + split; [intros [x Hx]; discriminate|].
      intros [Hnil|(c' & sg' & ds' & [= <- _] & Hc' & _)]; [discriminate|].
      rewrite Hc' in Hc. discriminate.
Qed.

Lemma read_number_eq (neg : bool) (s : list ascii) :
  read_number neg s
  = let '(ip, n1, s1) := read_digits s 0 0 in
    let '(m, n2, s2) :=
      match s1 with
      | c :: s1' => if Ascii.eqb c "." then read_digits s1' ip 0
                    else (ip, 0, s1)
      | [] => (ip, 0, s1)
      end in
    if 0 <? n1 + n2 then
      match read_exponent s2 with
      | Some x => Some (of_decimal neg m (x - n2))
      | None => None
      end
    else None.
Proof.
  unfold read_number. destruct (read_digits s 0 0) as [[ip n1] s1].
  destruct s1 as [|[[] [] [] [] [] [] [] []] s1]; reflexivity.
Qed.

Lemma read_number_spec (neg : bool) (body : list ascii) :
  (exists x, read_number neg body = Some x) <-> decimal_numeral body.
Proof.
  rewrite read_number_eq. unfold decimal_numeral.
  destruct (read_digits_spec body 0 0) as (d1 & Hb & Hd1 & Hn1 & Hrest).
  split.
  - intros [x Hx].
    destruct (read_digits body 0 0) as [[ip n1] s1]. cbn [fst snd] in *.
    destruct s1 as [|c s1].
    + destruct (0 <? n1 + 0) eqn:Hpos; [|discriminate].
      exists d1, [], []. repeat split; [assumption|constructor|left; reflexivity|].
      left. split; [exact Hb|]. intros ->. cbn in Hn1.
      apply Z.ltb_lt in Hpos. lia.
    + destruct (Ascii.eqb c ".") eqn:Hc.
      * apply Ascii.eqb_eq in Hc. subst c.
        destruct (read_digits_spec s1 ip 0) as (d2 & Hs1 & Hd2 & Hn2 & _).
        destruct (read_digits s1 ip 0) as [[m n2] s2]. cbn [fst snd] in *.
        destruct (0 <? n1 + n2) eqn:Hpos; [|discriminate].
        destruct (read_exponent s2) as [e|] eqn:He; [|discriminate].
        exists d1, d2, s2. repeat split; try assumption.
        -- apply read_exponent_spec. eauto.
        -- right. split; [rewrite Hb at 1; rewrite Hs1 at 1; reflexivity|].
           apply Z.ltb_lt in Hpos.
           destruct d1; [|left; discriminate].
           destruct d2; [cbn in *; lia|right; discriminate].
      * destruct (0 <? n1 + 0) eqn:Hpos; [|discriminate].
        destruct (read_exponent (c :: s1)) as [e|] eqn:He; [|discriminate].
        exists d1, [], (c :: s1). repeat split; try assumption.
        -- constructor.
        -- apply read_exponent_spec. eauto.
        -- left. split; [exact Hb|]. intros ->. cbn in Hn1.
           apply Z.ltb_lt in Hpos. lia.
  - clear d1 Hb Hd1 Hn1 Hrest.
    intros (ip & fp & ex & Hip & Hfp & Hex & Hshape).
    destruct (exponent_part_start ex Hex) as [Hexd Hexdot].
    destruct (proj2 (read_exponent_spec ex) Hex) as [e He].
    destruct Hshape as [[-> Hne]|[-> Hne]].
    + destruct (read_digits_app ip ex 0 0 Hip Hexd) as [Hr Hn].
      destruct (read_digits (ip ++ ex) 0 0) as [[v n1] s1].
      cbn [fst snd] in *. subst s1.
      assert (Hpos : (0 <? n1 + 0) = true).
      { apply Z.ltb_lt. rewrite Hn. destruct ip; [congruence|cbn [List.length]; lia]. }
      destruct ex as [|c ex].
      * rewrite Hpos, He. eauto.
      * destruct (Ascii.eqb c ".") eqn:Hc.
        { apply Ascii.eqb_eq in Hc. subst c. exfalso.
          apply (Hexdot ex). reflexivity. }
        rewrite Hpos, He. eauto.
    + assert (Hdot : ~ starts_with_digit ("."%char :: fp ++ ex)).
      { intros (d & l' & [= <- _] & Hd). discriminate. }
      destruct (read_digits_app ip _ 0 0 Hip Hdot) as [Hr Hn].
      destruct (read_digits (ip ++ "."%char :: fp ++ ex) 0 0) as [[v n1] s1].
      cbn [fst snd] in *. subst s1. cbn [Ascii.eqb Bool.eqb].
      destruct (read_digits_app fp ex v 0 Hfp Hexd) as [Hr2 Hn2].
      destruct (read_digits (fp ++ ex) v 0) as [[m n2] s2].
      cbn [fst snd] in *. subst s2.
      assert (Hpos : (0 <? n1 + n2) = true).
      { apply Z.ltb_lt. rewrite Hn, Hn2.
        destruct Hne as [Hne|Hne]; [destruct ip|destruct fp];
          try congruence; cbn [List.length]; lia. }
      rewrite Hpos, He. eauto.
Qed.

Lemma special_numeral_start (body : list ascii) :
  special_numeral body ->
  (forall l, body <> "-"%char :: l) /\ (forall l, body <> "+"%char :: l).
Proof.
  unfold special_numeral. intros Hin.
  split; intros l ->; cbn in Hin;
    destruct Hin as [H|[H|[H|[]]]]; discriminate H.
Qed.

Lemma decimal_numeral_start (body : list ascii) :
  decimal_numeral body ->
  (forall l, body <> "-"%char :: l) /\ (forall l, body <> "+"%char :: l).
Proof.
  intros (ip & fp & ex & Hip & _ & _ & Hshape).
  assert (Hhead : exists c l, body = c :: l /\ c <> "-"%char /\ c <> "+"%char).
  { destruct ip as [|c ip].
    - destruct Hshape as [[_ Hne]|[-> _]]; [congruence|].
      exists "."%char, (fp ++ ex). repeat split; discriminate.
    - inversion Hip as [|? ? Hc _]; subst.
      destruct (digit_not_sign c Hc) as (Hp & Hm & _).
      destruct Hshape as [[-> _]|[-> _]]; cbn [app];
        eexists _, _; (split; [reflexivity|split; assumption]). }
  destruct Hhead as (c & l & -> & Hm & Hp).
  split; intros l' [= Heq _]; contradiction.
Qed.

(** The numerals: the texts [float] accepts are those described. *)
Lemma py_float_accepts (t : string) :
  (exists x, py_float t = Ok x) <-> float_literal t.
Proof.
  unfold py_float, float_literal. cbv zeta.
  set (l := trim (list_ascii_of_string t)).
  pose proof (remove_underscores_spec l []) as Hru.
  change (prev_of []) with (@None ascii) in Hru.
  assert (Hok : under_ok [] l <-> underscores_between_digits l).
  { unfold under_ok, underscores_between_digits. cbn [app prev_of rev is_under].
    split; [intros [H _]; exact H|intros H; split; [exact H|discriminate]]. }
  destruct (remove_underscores None l) as [txt|].
  - destruct (proj1 (Hru txt) eq_refl) as [Hu ->].
    apply Hok in Hu.
    destruct (read_sign_split (without_underscores l)) as (sg & Hsg & Hl).
    destruct (read_sign (without_underscores l)) as [neg body] eqn:Hrs.
    cbn [snd] in Hl.
    assert (Hwords : is_word "inf" body || is_word "infinity" body
                     || is_word "nan" body = true <-> special_numeral body).
    { unfold is_word, special_numeral. cbn [In].
      rewrite !orb_true_iff, !String.eqb_eq. intuition congruence. }
    split.
    + intros [x Hx]. split; [exact Hu|]. exists sg, body.
      split; [exact Hl|]. split; [exact Hsg|]. revert Hx.
      destruct (orb (is_word "inf" body) (is_word "infinity" body)) eqn:Hw1.
      { intros _. left. apply Hwords. reflexivity. }
      destruct (is_word "nan" body) eqn:Hw2.
      { intros _. left. apply Hwords. reflexivity. }
      intros Hx. right. apply (read_number_spec neg).
      destruct (read_number neg body); [eauto|discriminate].
    + intros [_ (sg' & body' & Hl' & Hsg' & Hbody)].
      assert (Hb : body = body').
      { replace body with (snd (read_sign (without_underscores l)))
          by (rewrite Hrs; reflexivity).
        rewrite Hl'. destruct Hsg' as [->|Hsg'].
        - cbn [app].
          destruct Hbody as [Hb|Hb];
            [apply special_numeral_start in Hb
            |apply decimal_numeral_start in Hb];
            destruct Hb; apply read_sign_unsigned; assumption.
        - apply read_sign_signed; [right; exact Hsg'|].
          destruct Hsg' as [->| ->]; discriminate. }
      subst body'.
      destruct (orb (is_word "inf" body) (is_word "infinity" body)) eqn:Hw1;
        [eauto|].
      destruct (is_word "nan" body) eqn:Hw2; [eauto|].
      destruct Hbody as [Hb|Hb].
      * apply Hwords in Hb. discriminate.
      * apply (read_number_spec neg) in Hb. destruct Hb as [x ->]. eauto.
  - split; [intros [x Hx]; discriminate|].
    intros [Hu _]. apply Hok in Hu.
    assert (Hsome : @None (list ascii) = Some (without_underscores l))
      by (apply Hru; auto).
    discriminate Hsome.
Qed.

End FloatNumerals.

Lemma py_float_raises_value_error (t : string) (x : exn) :
  FloatParse.py_float t = Raise x -> x = ValueError.
Proof.
  unfold FloatParse.py_float.
  destruct (FloatParse.remove_underscores _ _) as [txt|]; [|congruence].
  destruct (FloatParse.read_sign txt) as [neg body].
  destruct (_ || _); [discriminate|].
  destruct (FloatParse.is_word "nan" body); [discriminate|].
  destruct (FloatParse.read_number neg body); [discriminate|congruence].
Qed.

(** The text ends in a known suffix [c]: split it there and hand over the
    body that [float] read. *)
Ltac found_suffix Hend Hd :=
  let body := fresh "body" in
  let Hb := fresh "Hb" in
  let x := fresh "x" in
  let Hx := fresh "Hx" in
  destruct (endswith_inv _ _ Hend) as [body Hb];
  rewrite Hb, drop_last_app in Hd;
  destruct (FloatParse.py_float body) as [x|] eqn:Hx; [|discriminate];
  cbn [Py.bind] in Hd;
  match type of Hend with
  | Str.endswith _ ?c = true =>
      match type of Hd with
      | delta_of_float ?factor _ = _ => exists body, c, factor, x
      end
  end;
  split; [exact Hb|];
  split; [simpl; auto|];
  split; [apply py_float_accepts; eauto|];
  split; [exact Hx|exact Hd].

(** The text ends in a known suffix although it was said to have none. *)
Ltac known_suffix Hend Hother :=
  let body := fresh "body" in
  let Hb := fresh "Hb" in
  destruct (endswith_inv _ _ Hend) as [body Hb];
  exfalso; apply (Hother body _ Hb); simpl; auto.

(** C9 as the code has it, for ASCII text: parse_tick first strips the white
    space around the text and lower-cases it; it returns a duration exactly
    for the texts that then read as a body followed by [h], [m] or [s],
    where the body is a numeral of [float] and the duration of that many
    hours, minutes or seconds is one a timedelta can hold; that duration is
    what it returns. A text that, so normalised, ends in no such letter
    raises ValueError, and so does one whose body is no numeral. *)
Theorem parse_tick_grammar (s : string) :
  is_ascii s = true ->
  (forall d : timedelta,
      parse_tick s = Ok d <->
      exists (body : string) (c : ascii) (factor : Z) (x : F64.float),
        Str.lower (Str.strip s) = (body ++ String c "")%string /\
        In (c, factor) tick_units /\
        float_literal body /\
        FloatParse.py_float body = Ok x /\
        delta_of_float factor x = Ok d) /\
  ((forall (body : string) (c : ascii),
       Str.lower (Str.strip s) = (body ++ String c "")%string ->
       ~ In c ["h"; "m"; "s"]%char) ->
   parse_tick s = Raise ValueError) /\
  (forall (body : string) (c : ascii),
      Str.lower (Str.strip s) = (body ++ String c "")%string ->
      In c ["h"; "m"; "s"]%char ->
      (float_literal body <-> exists x, FloatParse.py_float body = Ok x) /\
      (~ float_literal body -> parse_tick s = Raise ValueError)).
Proof.
  intros _. unfold parse_tick. set (t := Str.lower (Str.strip s)).
  split; [|split].
  - intros d. split.
    + intros Hd.
      destruct (Str.endswith t "h") eqn:Hh;
        [|destruct (Str.endswith t "m") eqn:Hm;
          [|destruct (Str.endswith t "s") eqn:Hs; [|discriminate]]].
      * found_suffix Hh Hd.
      * found_suffix Hm Hd.
      * found_suffix Hs Hd.
    + intros (body & c & factor & x & Ht & Hin & _ & Hx & Hd).
      rewrite Ht, !endswith_app, drop_last_app, Hx.
      simpl in Hin.
      destruct Hin as [Hc|[Hc|[Hc|[]]]]; injection Hc as <- <-; exact Hd.
  - intros Hother.
    destruct (Str.endswith t "h") eqn:Hh;
      [|destruct (Str.endswith t "m") eqn:Hm;
        [|destruct (Str.endswith t "s") eqn:Hs; [|reflexivity]]].
    + known_suffix Hh Hother.
    + known_suffix Hm Hother.
    + known_suffix Hs Hother.
  - intros body c Ht Hin.
    split; [symmetry; apply py_float_accepts|].
    intros Hno. rewrite Ht, !endswith_app, drop_last_app.
    destruct (FloatParse.py_float body) as [x|e] eqn:Hx.
    { exfalso. apply Hno, py_float_accepts. eauto. }
    apply py_float_raises_value_error in Hx. subst e.
    simpl in Hin.
    destruct Hin as [<-|[<-|[<-|[]]]]; reflexivity.
Qed.

Lemma parse_tick_grammar_witness :
  parse_tick "1.5h" = Ok 5400000000 /\
  parse_tick "1d" = Raise ValueError /\
  parse_tick "1..5h" = Raise ValueError.
Proof.
  split; [|split].
  - apply (proj1 (parse_tick_grammar "1.5h" eq_refl)).
    exists "1.5"%string, "h"%char, US_PER_HOUR,
      (S754_finite false 6755399441055744 (-52)).
    split; [reflexivity|]. split; [simpl; auto|].
    split; [apply py_float_accepts; eexists; vm_compute; reflexivity|].
    split; reflexivity.
  - apply (proj1 (proj2 (parse_tick_grammar "1d" eq_refl))).
    intros body c Ht Hin.
    assert (Hend : forall c', Str.endswith "1d" c' = Ascii.eqb c c').
    { intros c'. change "1d"%string with (Str.lower (Str.strip "1d")).
      rewrite Ht. apply endswith_app. }
    simpl in Hin.
    destruct Hin as [<-|[<-|[<-|[]]]];
      [ specialize (Hend "h"%char) | specialize (Hend "m"%char)
      | specialize (Hend "s"%char) ];
      rewrite Ascii.eqb_refl in Hend; discriminate Hend.
  - apply (proj2 (proj2 (parse_tick_grammar "1..5h" eq_refl))
             "1..5"%string "h"%char eq_refl).
    + simpl. auto.
    + intros Hlit. apply py_float_accepts in Hlit as [x Hx].
      vm_compute in Hx. discriminate Hx.
Defined.

(** [float] skips less white space than [str.strip] removes: a unit
    separator at the end of the text is stripped, one before the suffix
    is left in the body and refused. *)
Example parse_tick_separators :
  parse_tick (String (ascii_of_nat 31) "1s" ++ String (ascii_of_nat 28) "")
  = Ok US_PER_SECOND /\
  parse_tick ("1" ++ String (ascii_of_nat 31) "s") = Raise ValueError /\
  parse_tick "1 h" = Ok US_PER_HOUR.
Proof. vm_compute. repeat split; reflexivity. Qed.

(** C9 fails as stated: the text ["1H"] ends in [H], which is none of [h],
    [m] and [s], and [" 30M "] ends in a space; parse_tick accepts the one
    as an hour and the other as thirty minutes. *)
Lemma parse_tick_accepts_upper_case :
  Str.endswith "1H" "h" = false /\
  Str.endswith "1H" "m" = false /\
  Str.endswith "1H" "s" = false /\
  parse_tick "1H" = Ok US_PER_HOUR /\
  Str.endswith " 30M " "h" = false /\
  Str.endswith " 30M " "m" = false /\
  Str.endswith " 30M " "s" = false /\
  parse_tick " 30M " = Ok (30 * US_PER_MINUTE).
Proof. vm_compute. repeat split; reflexivity. Qed.

(** The durations of the texts the source's error message names, and a
    fractional one. *)
Example parse_tick_examples :
  parse_tick "1h" = Ok 3600000000 /\
  parse_tick "30m" = Ok 1800000000 /\
  parse_tick "15s" = Ok 15000000 /\
  parse_tick "1.5h" = Ok 5400000000 /\
  parse_tick "0.25s" = Ok 250000 /\
  parse_tick "infh" = Raise OverflowError /\
  parse_tick "1d" = Raise ValueError /\
  parse_tick "90" = Raise ValueError /\
  parse_tick "" = Raise ValueError /\
  parse_tick "xs" = Raise ValueError.
Proof. vm_compute. repeat split; reflexivity. Qed.

(** ** One pass through the loop body *)

(** A leaf of [tick]: the result is read off and the state compared. *)
Ltac tick_leaf Htick :=
  injection Htick as <- <- <-; simpl; repeat split; auto.

(** The end of a pass that did not break: the next step is drawn and the
    clock moved, or one of the two raises. *)
Ltac advance_clock Htick :=
  let step := fresh "step" in
  let Hstep := fresh "Hstep" in
  destruct (next_step _ _) as [? step] eqn:Hstep;
  destruct step as [step|?]; cbn [Py.bind] in Htick;
  [ destruct (dt_add _ step) as [?|?] eqn:?;
    [ tick_leaf Htick; right; right; repeat split; [lia|]; exists step; auto
    | tick_leaf Htick; right; left; eauto ]
  | tick_leaf Htick; right; left; eauto ].

Lemma tick_sound (e : loop_env) (s s' : loop_state) (rows : list row)
  (c : control) :
  tick e s = (s', rows, c) -> tick_post e s s' rows c.
Proof.
  unfold tick, tick_post, pass_increment, pass_rng.
  intros Htick. cbv zeta in Htick.
  destruct (astimezone_hour (env_tz e) (ls_t s)) as [hour_local|x].
  2:{ tick_leaf Htick. left. repeat split; eauto. }
  destruct (randint_inclusive (ls_rng s) (env_inc_min e) (env_inc_max e))
    as [rng1 base].
  cbn [Py.bind snd fst].
  match type of Htick with
  | context [match ?r with Ok _ => _ | Raise _ => _ end] =>
      destruct r as [inc0|x] eqn:Hinc0
  end.
  2:{ tick_leaf Htick. left. repeat split; eauto. }
  cbn [set_rng ls_cum ls_t ls_row_no ls_rng] in Htick.
  destruct (env_target e - ls_cum s <=? 0) eqn:Hrem.
  { tick_leaf Htick. left. repeat split; auto.
    left. split; [reflexivity|lia]. }
  right. exists inc0. cbv zeta. unfold written.
  set (inc := clamp_increment _ _ _ _) in *.
  split; [reflexivity|]. split; [lia|].
  destruct (0 <? inc) eqn:Hinc;
    cbn [andb set_rng ls_cum ls_t ls_row_no ls_rng] in Htick.
  - destruct (env_target e <=? ls_cum s + inc) eqn:Hdone.
    + tick_leaf Htick. left. repeat split; auto; lia.
    + advance_clock Htick.
  - advance_clock Htick.
Qed.

Lemma clamp_increment_le_remaining (inc_min inc_max remaining inc : Z) :
  clamp_increment inc_min inc_max remaining inc <= remaining.
Proof.
  unfold clamp_increment. destruct (remaining <=? inc_min); lia.
Qed.

Lemma clamp_increment_le_cap (inc_min inc_max remaining inc cap : Z) :
  inc_min <= cap ->
  clamp_increment inc_min inc_max remaining (apply_cap (Some cap) inc) <= cap.
Proof.
  unfold clamp_increment, apply_cap. intros Hcap.
  destruct (remaining <=? inc_min) eqn:Hrem; lia.
Qed.

Lemma clamp_increment_above_cap (inc_min inc_max remaining inc cap : Z) :
  cap < inc_min -> inc_min <= inc_max -> inc_min < remaining ->
  clamp_increment inc_min inc_max remaining (apply_cap (Some cap) inc) = inc_min.
Proof.
  unfold clamp_increment, apply_cap. intros Hcap Hmax Hrem.
  destruct (remaining <=? inc_min) eqn:Hle; lia.
Qed.

Lemma dt_add_wall (t t' : datetime) (step : timedelta) :
  dt_add t step = Ok t' -> dt_wall t' = dt_wall t + step /\ dt_tz t' = dt_tz t.
Proof.
  unfold dt_add, shift_wall.
  destruct ((0 <=? dt_wall t + step) && (dt_wall t + step <? MAX_WALL));
    cbn [Py.bind]; [|discriminate].
  intros [= <-]. split; reflexivity.
Qed.

Lemma isoformat_tz_mono (t t' : datetime) :
  dt_wall t <= dt_wall t' -> isoformat_tz t <= isoformat_tz t'.
Proof.
  intros Hle. unfold isoformat_tz, US_PER_SECOND.
  apply Z.div_le_mono; lia.
Qed.

(** ** The loop of one post *)

Lemma for_range_succ (n : nat) (e : loop_env) (s : loop_state) :
  for_range (S n) e s =
  match tick e s with
  | (s', rows, Continue) =>
      let r := for_range n e s' in
      mkResult (lr_state r) (rows ++ lr_rows r) (lr_exit r) (S (lr_passes r))
  | (s', rows, BreakNoRemaining) => mkResult s' rows NoRemaining 1
  | (s', rows, BreakTarget) => mkResult s' rows TargetReached 1
  | (s', rows, Fail x) => mkResult s' rows (Raised x) 1
  end.
Proof. reflexivity. Qed.

(** A pass never takes the count past the target, and a row's running
    total lies above the count before the pass. *)
Lemma tick_below_target (e : loop_env) (s s' : loop_state) (rows : list row)
  (c : control) :
  tick e s = (s', rows, c) ->
  ls_cum s <= env_target e ->
  ls_cum s <= ls_cum s' <= env_target e /\
  Forall (fun r => ls_cum s < cum_views r /\ cum_views r = ls_cum s') rows /\
  (c = BreakTarget -> ls_cum s' = env_target e /\ rows <> []).
Proof.
  intros Ht Hcum. apply tick_sound in Ht.
  destruct Ht as [(-> & Hc & _ & _ & Hexit) | (inc0 & _ & Hlt & -> & Hc & _ & Hexit)].
  - rewrite Hc. split; [lia|]. split; [apply Forall_nil|].
    intros ->. destruct Hexit as [[? _]|[x ?]]; discriminate.
  - cbv zeta in *.
    pose proof (clamp_increment_le_remaining (env_inc_min e) (env_inc_max e)
                  (env_target e - ls_cum s) (apply_cap (env_cap e) inc0)) as Hle.
    set (inc := clamp_increment _ _ _ _) in *.
    unfold written. rewrite Hc.
    destruct (0 <? inc) eqn:Hinc.
    + apply Z.ltb_lt in Hinc. repeat split; try lia.
      * constructor; [|constructor]. simpl. lia.
      * destruct Hexit as [(_ & _ & Hge & _)|[([x Hx] & _)|(Hx & _)]];
          [lia | subst c; discriminate | subst c; discriminate].
      * discriminate.
    + apply Z.ltb_ge in Hinc. repeat split; try lia; try constructor.
      * destruct Hexit as [(_ & Hpos & _)|[([x Hx] & _)|(Hx & _)]];
          [lia | subst c; discriminate | subst c; discriminate].
      * destruct Hexit as [(_ & Hpos & _)|[([x Hx] & _)|(Hx & _)]];
          [lia | subst c; discriminate | subst c; discriminate].
Qed.

Lemma for_range_below_target (n : nat) (e : loop_env) (s : loop_state) :
  ls_cum s <= env_target e ->
  let r := for_range n e s in
  ls_cum s <= ls_cum (lr_state r) <= env_target e /\
  Forall (fun row => ls_cum s < cum_views row <= env_target e) (lr_rows r) /\
  (lr_exit r = TargetReached ->
   ls_cum (lr_state r) = env_target e /\
   exists rows last, lr_rows r = rows ++ [last] /\ cum_views last = env_target e).
Proof.
  revert s. induction n as [|n IH]; intros s Hcum; cbv zeta.
  - simpl. repeat split; try lia; [constructor | discriminate | discriminate].
  - rewrite for_range_succ.
    destruct (tick e s) as [[s' rows] c] eqn:Ht.
    destruct (tick_below_target _ _ _ _ _ Ht Hcum) as (Hs' & Hrows & Hbreak).
    assert (Hrows' : Forall (fun row => ls_cum s < cum_views row <= env_target e) rows).
    { eapply Forall_impl; [|exact Hrows]. simpl. intros row [? ?]. lia. }
    destruct c; cbn [lr_state lr_rows lr_exit].
    + destruct (IH s' ltac:(lia)) as (Hcum' & Hrest & Hexit).
      repeat split; try lia.
      * apply Forall_app. split; [exact Hrows'|].
        eapply Forall_impl; [|exact Hrest]. simpl. intros row ?. lia.
      * apply Hexit; assumption.
      * destruct (Hexit H) as (_ & rows0 & last & -> & Hlast).
        exists (rows ++ rows0), last. rewrite app_assoc. auto.
    + repeat split; try lia; try assumption; discriminate.
    + destruct (Hbreak eq_refl) as (Heq & Hne).
      repeat split; try lia; try assumption.
      destruct (exists_last Hne) as (rows0 & last & ->).
      exists rows0, last. split; [reflexivity|].
      apply Forall_app in Hrows. destruct Hrows as [_ Hlast].
      inversion Hlast; subst. lia.
    + repeat split; try lia; try assumption; discriminate.
Qed.

(** ** Order of the rows of a post *)

Lemma tick_spec_of_ordered (cfg : option tick_cfg) (spec : tick_spec) :
  tick_spec_of cfg = Ok spec -> range_ordered spec.
Proof.
  unfold tick_spec_of.
  destruct (or_default cfg (TickText "1h")) as [s|tmin tmax].
  - destruct (parse_tick s); cbn [Py.bind]; [|discriminate].
    intros [= <-]. exact I.
  - destruct (parse_tick (or_default tmin "1h"%string)) as [lo|]; cbn [Py.bind];
      [|discriminate].
    destruct (parse_tick (or_default tmax "1h"%string)) as [hi|]; cbn [Py.bind];
      [|discriminate].
    destruct (hi <? lo) eqn:Hswap; intros [= <-]; simpl; lia.
Qed.

Lemma new_delta_ok (us : Z) (d : timedelta) : new_delta us = Ok d -> d = us.
Proof.
  unfold new_delta. destruct (_ && _); [|discriminate]. now intros [= <-].
Qed.

Lemma next_step_nonneg (spec : tick_spec) (rng : Z) (step : timedelta) :
  durations_nonneg spec -> range_ordered spec ->
  snd (next_step spec rng) = Ok step -> 0 <= step.
Proof.
  destruct spec as [d|lo hi];
    unfold durations_nonneg, range_ordered, next_step.
  - cbn [snd]. intros Hd _ [= <-]. exact Hd.
  - intros [Hlo Hhi] Hord.
    unfold delta_sub.
    destruct (new_delta (hi - lo)) as [d|] eqn:Hd; cbn [Py.bind snd];
      [|discriminate].
    apply new_delta_ok in Hd. subst d.
    destruct (total_seconds (hi - lo)) as [span_seconds|] eqn:Hspan;
      cbn [snd]; [|discriminate].
    destruct (total_seconds lo) as [lo_seconds|] eqn:Hlos;
      cbn [snd]; [|discriminate].
    cbv beta zeta delta [rand]. cbn [snd].
    destruct (F64.int_truediv (lcg_next rng) (2 ^ 64)) as [u|] eqn:Hu;
      cbn [Py.bind]; [|discriminate].
    destruct (F64.to_int (F64.add lo_seconds (F64.mul u span_seconds))) as [k|] eqn:Hk;
      cbn [Py.bind]; [|discriminate].
    unfold delta_of_seconds.
    intros Hstep. apply new_delta_ok in Hstep. subst step.
    assert (0 <= k); [|unfold US_PER_SECOND; lia].
    apply (F64Facts.to_int_sign _ _) in Hk; [exact Hk|].
    apply F64Facts.add_sign.
    + apply (F64Facts.int_truediv_sign lo US_PER_SECOND); [lia|reflexivity|exact Hlos].
    + apply F64Facts.mul_sign.
      * apply (F64Facts.int_truediv_sign (lcg_next rng) (2 ^ 64));
          [apply lcg_next_range|reflexivity|exact Hu].
      * apply (F64Facts.int_truediv_sign (hi - lo) US_PER_SECOND);
          [lia|reflexivity|exact Hspan].
Qed.

(** What a pass writes and how far it moves the clock. *)
Lemma tick_rows (e : loop_env) (s s' : loop_state) (rows : list row)
  (c : control) :
  tick e s = (s', rows, c) ->
  ls_cum s <= ls_cum s' /\
  Forall (fun r => ls_cum s < cum_views r /\ cum_views r = ls_cum s' /\
                   row_datetime r = isoformat_tz (ls_t s)) rows /\
  (durations_nonneg (env_tick e) -> range_ordered (env_tick e) ->
   dt_wall (ls_t s) <= dt_wall (ls_t s')).
Proof.
  intros Ht. apply tick_sound in Ht.
  destruct Ht as [(-> & Hc & Htime & _ & _) | (inc0 & _ & _ & -> & Hc & _ & Hexit)].
  - rewrite Hc, Htime. split; [lia|]. split; [apply Forall_nil|]. intros; lia.
  - cbv zeta in *. set (inc := clamp_increment _ _ _ _) in *.
    unfold written. rewrite Hc.
    assert (Htime : durations_nonneg (env_tick e) -> range_ordered (env_tick e) ->
                    dt_wall (ls_t s) <= dt_wall (ls_t s')).
    { intros Hnn Hord.
      destruct Hexit as [(_ & _ & _ & ->)|[(_ & ->)|(_ & _ & step & Hstep & Hadd)]];
        try lia.
      apply dt_add_wall in Hadd. destruct Hadd as [-> _].
      pose proof (next_step_nonneg _ _ _ Hnn Hord Hstep). lia. }
    destruct (0 <? inc) eqn:Hinc.
    + apply Z.ltb_lt in Hinc. split; [lia|]. split; [|exact Htime].
      constructor; [|constructor]. simpl. repeat split; lia.
    + split; [lia|]. split; [apply Forall_nil|exact Htime].
Qed.

Lemma tick_writes_at_most_one (e : loop_env) (s s' : loop_state)
  (rows : list row) (c : control) :
  tick e s = (s', rows, c) -> rows = [] \/ exists r, rows = [r].
Proof.
  intros Ht.
  destruct (tick_sound _ _ _ _ _ Ht) as [(-> & _) | (inc0 & _ & _ & -> & _)].
  - left. reflexivity.
  - unfold written. destruct (0 <? _); eauto.
Qed.

Lemma for_range_sorted (n : nat) (e : loop_env) (s : loop_state) :
  durations_nonneg (env_tick e) -> range_ordered (env_tick e) ->
  let r := for_range n e s in
  Forall (fun row => ls_cum s < cum_views row /\
                     isoformat_tz (ls_t s) <= row_datetime row) (lr_rows r) /\
  StronglySorted row_before (lr_rows r).
Proof.
  intros Hnn Hord. revert s. induction n as [|n IH]; intros s; cbv zeta.
  - simpl. split; constructor.
  - rewrite for_range_succ.
    destruct (tick e s) as [[s' rows] c] eqn:Ht.
    destruct (tick_rows _ _ _ _ _ Ht) as (Hcum & Hrows & Htime).
    specialize (Htime Hnn Hord).
    pose proof (isoformat_tz_mono _ _ Htime) as Hiso.
    assert (Hhead : Forall (fun row => ls_cum s < cum_views row /\
                              isoformat_tz (ls_t s) <= row_datetime row) rows).
    { eapply Forall_impl; [|exact Hrows]. simpl. intros row (? & ? & ->). lia. }
    assert (Hsingle : StronglySorted row_before rows).
    { destruct (tick_writes_at_most_one _ _ _ _ _ Ht) as [->|[r ->]];
        repeat constructor. }
    destruct c; cbn [lr_rows]; try (split; assumption).
    destruct (IH s') as (Hrest & Hsorted).
    split.
    + apply Forall_app. split; [exact Hhead|].
      eapply Forall_impl; [|exact Hrest]. simpl. intros row [? ?]. lia.
    + destruct (tick_writes_at_most_one _ _ _ _ _ Ht) as [->|[r ->]];
        [exact Hsorted|].
      simpl. constructor; [exact Hsorted|].
      inversion Hrows as [|? ? (Hlt & Hc0 & Hd0) _]; subst.
      eapply Forall_impl; [|exact Hrest]. simpl.
      intros row' [Hc' Hd']. unfold row_before. lia.
Qed.

(** ** The claims about the loop *)

(** C3: for a post of a stage whose bounds are in order and not negative,
    after any number of passes of its loop the running total is at most the
    target drawn for it, so is the total of every row written, and when the
    loop ends on the target the last row written carries exactly the
    target. *)
Theorem cum_views_never_exceeds_target
  (g : run_env) (p : post) (sc : stage_cfg) (rng target no : Z) (n : nat) :
  dict_get (run_stage_map g) (Str.strip (stage p)) = Some sc ->
  0 <= views_min sc <= views_max sc ->
  randint_inclusive (post_rng g p) (views_min sc) (views_max sc) = (rng, Ok target) ->
  let r := for_range n (post_env g p target)
             (mkLoop rng 0 (localize (start_datetime p)) no) in
  ls_cum (lr_state r) <= target /\
  Forall (fun row => cum_views row <= target) (lr_rows r) /\
  (lr_exit r = TargetReached ->
   ls_cum (lr_state r) = target /\
   exists rows last, lr_rows r = rows ++ [last] /\ cum_views last = target).
Proof.
  intros _ Hsc Hdraw.
  destruct (randint_inclusive_lower _ _ _ _ _ (proj2 Hsc) Hdraw) as [_ Htarget].
  pose proof (for_range_below_target n (post_env g p target)
                (mkLoop rng 0 (localize (start_datetime p)) no)) as H.
  cbn [ls_cum post_env env_target] in H. cbv zeta in *.
  destruct (H ltac:(lia)) as (Hcum & Hrows & Hexit).
  split; [lia|]. split; [|exact Hexit].
  eapply Forall_impl; [|exact Hrows]. simpl. intros row ?. lia.
Qed.

Lemma cum_views_never_exceeds_target_witness :
  let r := for_range 336 (post_env Examples.run_fixed Examples.post1 17)
             (mkLoop 3533187389298662792 0
                (localize (start_datetime Examples.post1)) 1) in
  ls_cum (lr_state r) <= 17 /\
  Forall (fun row => cum_views row <= 17) (lr_rows r) /\
  (lr_exit r = TargetReached ->
   ls_cum (lr_state r) = 17 /\
   exists rows last, lr_rows r = rows ++ [last] /\ cum_views last = 17).
Proof.
  apply (cum_views_never_exceeds_target Examples.run_fixed Examples.post1
           (mkStage 10 50)).
  - vm_compute. reflexivity.
  - simpl. lia.
  - vm_compute. reflexivity.
Defined.

(** C5: when every configured tick duration is a non-negative length of
    time, the rows a post writes are in order: each later row has a
    strictly larger running total and a timestamp that is not earlier. *)
Theorem rows_of_a_post_increase
  (stages_cfg : dict stage_cfg) (engine : engine_cfg) (seed : Z)
  (spec : tick_spec) (p : post) (no : Z) :
  tick_spec_of (tick_duration engine) = Ok spec ->
  durations_nonneg spec ->
  StronglySorted row_before
    (fst (fst (simulate_post (run_env_of stages_cfg engine seed spec) p no))).
Proof.
  intros Hspec Hnn. unfold simulate_post.
  destruct (dict_get _ _) as [sc|]; [|constructor].
  destruct (randint_inclusive _ _ _) as [rng [target|x]]; [|constructor].
  cbn [fst].
  apply for_range_sorted; cbn [post_env env_tick run_env_of run_tick].
  - exact Hnn.
  - exact (tick_spec_of_ordered _ _ Hspec).
Qed.

Lemma rows_of_a_post_increase_witness :
  StronglySorted row_before
    (fst (fst (simulate_post
                 (run_env_of Examples.stages Examples.engine_ranged 42
                    (Ranged 900000000 5400000000))
                 Examples.post1 1))).
Proof.
  apply (rows_of_a_post_increase Examples.stages Examples.engine_ranged 42
           (Ranged 900000000 5400000000) Examples.post1 1).
  - vm_compute. reflexivity.
  - simpl. lia.
Defined.

Lemma for_range_passes (n : nat) (e : loop_env) (s : loop_state) :
  (lr_passes (for_range n e s) <= n)%nat.
Proof.
  revert s. induction n as [|n IH]; intros s.
  - simpl. lia.
  - rewrite for_range_succ.
    destruct (tick e s) as [[s' rows] c].
    destruct c; cbn [lr_passes]; try lia.
    specialize (IH s'). lia.
Qed.

(** C8: with [max_hours] at least 1, the loop of a post ends, for whatever
    reason, after at most [max_hours] passes through its body. *)
Theorem loop_ends_within_max_hours
  (g : run_env) (p : post) (target : Z) (s : loop_state) :
  1 <= run_max_hours g ->
  Z.of_nat (lr_passes (for_range (Z.to_nat (run_max_hours g))
                         (post_env g p target) s))
  <= run_max_hours g.
Proof.
  intros Hmax.
  pose proof (for_range_passes (Z.to_nat (run_max_hours g))
                (post_env g p target) s).
  lia.
Qed.

Lemma loop_ends_within_max_hours_witness :
  Z.of_nat (lr_passes (for_range (Z.to_nat (run_max_hours Examples.run_ranged))
                         (post_env Examples.run_ranged Examples.post1 17)
                         Examples.start1))
  <= run_max_hours Examples.run_ranged.
Proof.
  apply (loop_ends_within_max_hours Examples.run_ranged Examples.post1 17
           Examples.start1).
  vm_compute. discriminate.
Defined.

(** ** The hourly cap *)

Lemma for_range_capped (n : nat) (e : loop_env) (s : loop_state) (cap : Z) :
  env_cap e = Some cap -> env_inc_min e <= cap ->
  Forall (fun r => views_inc r <= cap) (lr_rows (for_range n e s)).
Proof.
  intros Hcap Hmin. revert s. induction n as [|n IH]; intros s.
  - constructor.
  - rewrite for_range_succ.
    destruct (tick e s) as [[s' rows] c] eqn:Ht.
    assert (Hrows : Forall (fun r => views_inc r <= cap) rows).
    { destruct (tick_sound _ _ _ _ _ Ht) as [(-> & _) | (inc0 & _ & _ & -> & _)].
      - constructor.
      - unfold written. rewrite Hcap.
        destruct (0 <? _); repeat constructor. simpl.
        apply clamp_increment_le_cap, Hmin. }
    destruct c; cbn [lr_rows]; try exact Hrows.
    apply Forall_app. split; [exact Hrows | apply IH].
Qed.

Lemma simulate_post_capped (g : run_env) (p : post) (no cap : Z) :
  run_cap g = Some cap -> run_inc_min g <= cap ->
  Forall (fun r => views_inc r <= cap) (fst (fst (simulate_post g p no))).
Proof.
  intros Hcap Hmin. unfold simulate_post.
  destruct (dict_get _ _) as [sc|]; [|constructor].
  destruct (randint_inclusive _ _ _) as [rng [target|x]]; [|constructor].
  cbn [fst]. apply for_range_capped; assumption.
Qed.

Lemma simulate_posts_capped (g : run_env) (ps : list post) (no cap : Z) :
  run_cap g = Some cap -> run_inc_min g <= cap ->
  Forall (fun r => views_inc r <= cap) (fst (simulate_posts g ps no)).
Proof.
  intros Hcap Hmin. revert no. induction ps as [|p ps IH]; intros no; simpl.
  - constructor.
  - pose proof (simulate_post_capped g p no cap Hcap Hmin) as Hp.
    destruct (simulate_post g p no) as [[rows no'] [[]|x]]; cbn [fst] in *.
    + specialize (IH no').
      destruct (simulate_posts g ps no') as [rows' res]. cbn [fst] in *.
      apply Forall_app. split; assumption.
    + exact Hp.
Qed.

(** A pass that computes its hour-weighted increment with the target not
    yet reached goes through the clamp: it writes the row of the clamped
    increment when that is positive, and adds it to the total. *)
Lemma tick_clamps (e : loop_env) (s s' : loop_state) (rows : list row)
  (c : control) (inc0 : Z) :
  pass_increment e s = Ok inc0 ->
  ls_cum s < env_target e ->
  tick e s = (s', rows, c) ->
  let inc := clamp_increment (env_inc_min e) (env_inc_max e)
               (env_target e - ls_cum s) (apply_cap (env_cap e) inc0) in
  rows = written e s inc /\
  ls_cum s' = (if 0 <? inc then ls_cum s + inc else ls_cum s).
Proof.
  unfold tick, pass_increment, written. cbv zeta.
  destruct (astimezone_hour (env_tz e) (ls_t s)) as [hour_local|y];
    cbn [Py.bind]; [|discriminate].
  destruct (randint_inclusive (ls_rng s) (env_inc_min e) (env_inc_max e))
    as [rng1 base].
  cbn [snd]. intros -> Hrem.
  cbn [set_rng ls_cum ls_t ls_row_no ls_rng].
  destruct (env_target e - ls_cum s <=? 0) eqn:Hr; [lia|].
  set (inc := clamp_increment _ _ _ _).
  destruct (0 <? inc) eqn:Hinc;
    cbn [andb set_rng ls_cum ls_t ls_row_no ls_rng].
  - destruct (env_target e <=? ls_cum s + inc).
    + intros [= <- <- <-]. auto.
    + destruct (next_step _ _) as [rng2 [step|x]]; cbn [Py.bind].
      * destruct (dt_add _ step); intros [= <- <- <-]; auto.
      * intros [= <- <- <-]. auto.
  - destruct (next_step _ _) as [rng2 [step|x]]; cbn [Py.bind].
    + destruct (dt_add _ step); intros [= <- <- <-]; auto.
    + intros [= <- <- <-]. auto.
Qed.

(** C10: when an hourly cap is configured that is at least the smallest
    increment, no row of the run has an increment above the cap. A cap
    below the smallest increment does not bound the rows: the cap is
    applied before the increment is raised to the minimum, so every pass
    that computes its increment with more than the minimum remaining
    writes a row, and the row has exactly the minimum, above the cap. *)
Theorem hour_cap_bounds_increments :
  (forall (stages_cfg : dict stage_cfg) (engine : engine_cfg) (seed : Z)
          (spec : tick_spec) (posts : list post) (no cap : Z),
      limits_system_hour_cap engine = Some cap ->
      increment_min engine <= cap ->
      Forall (fun r => views_inc r <= cap)
        (fst (simulate_posts (run_env_of stages_cfg engine seed spec) posts no)))
  /\
  (forall (e : loop_env) (s s' : loop_state) (rows : list row) (c : control)
          (cap inc0 : Z),
      env_cap e = Some cap ->
      0 <= cap < env_inc_min e ->
      env_inc_min e <= env_inc_max e ->
      env_inc_min e < env_target e - ls_cum s ->
      pass_increment e s = Ok inc0 ->
      tick e s = (s', rows, c) ->
      rows = [mkRow (ls_row_no s) (env_post_id e) (env_inc_min e)
                    (ls_cum s + env_inc_min e) (isoformat_tz (ls_t s))] /\
      Exists (fun r => cap < views_inc r) rows /\
      ls_cum s' = ls_cum s + env_inc_min e).
Proof.
  split.
  - intros stages_cfg engine seed spec posts no cap Hcap Hmin.
    apply simulate_posts_capped; assumption.
  - intros e s s' rows c cap inc0 Hcap Hlow Hmax Hrem Hinc0 Ht.
    destruct (tick_clamps _ _ _ _ _ _ Hinc0 ltac:(lia) Ht) as [Hrows Hcum].
    cbv zeta in Hrows, Hcum. rewrite Hcap in Hrows, Hcum.
    rewrite clamp_increment_above_cap in Hrows, Hcum by lia.
    unfold written in Hrows.
    assert (Hpos : (0 <? env_inc_min e) = true) by (apply Z.ltb_lt; lia).
    rewrite Hpos in Hrows, Hcum. subst rows.
    split; [reflexivity|]. split; [|exact Hcum].
    constructor. cbn [views_inc]. lia.
Qed.

Lemma hour_cap_bounds_increments_witness :
  Forall (fun r => views_inc r <= 7)
    (fst (simulate_posts
            (run_env_of Examples.stages Examples.engine_capped 42
               (Fixed US_PER_HOUR))
            [Examples.post1; Examples.post2] 1))
  /\
  (let res := tick (post_env Examples.run_ranged Examples.post1 17)
                Examples.start1 in
   snd (fst res) = [mkRow 1 "p1" 5 5 63871286400] /\
   Exists (fun r => 3 < views_inc r) (snd (fst res)) /\
   ls_cum (fst (fst res)) = 5).
Proof.
  split.
  - apply (proj1 hour_cap_bounds_increments).
    + reflexivity.
    + simpl. lia.
  - cbv zeta.
    apply (proj2 hour_cap_bounds_increments
             (post_env Examples.run_ranged Examples.post1 17) Examples.start1
             (fst (fst (tick (post_env Examples.run_ranged Examples.post1 17)
                          Examples.start1)))
             (snd (fst (tick (post_env Examples.run_ranged Examples.post1 17)
                          Examples.start1)))
             (snd (tick (post_env Examples.run_ranged Examples.post1 17)
                          Examples.start1))
             3 4).
    + reflexivity.
    + simpl. lia.
    + simpl. lia.
    + simpl. lia.
    + vm_compute. reflexivity.
    + vm_compute. reflexivity.
Defined.

(** ** Hours of weight zero *)

Lemma weighted_increment_zero_weight (w : F64.float) (base inc0 : Z) :
  F64.is_zero w = true -> weighted_increment w base = Ok inc0 -> inc0 = 0.
Proof.
  intros Hw. unfold weighted_increment, F64.truediv.
  replace mean_weight_norm with (S754_finite false 6004799503160661 (-57))
    by (vm_compute; reflexivity).
  cbn [F64.is_zero Py.bind].
  destruct w as [sw| | |]; try discriminate. cbn [SFdiv].
  unfold F64.of_int.
  destruct (binary_normalize F64.prec F64.emax base 0 false) as [s|s| |s m e];
    cbn [F64.finite_or_overflow Py.bind]; try discriminate;
    cbn; intros [= <-]; reflexivity.
Qed.

(** C1 as the code has it: on a pass whose local hour has normalised weight
    zero (the target not yet reached) the hour-weighted increment is 0, and
    the clamp to the increment bounds decides what is written. With a
    smallest increment of at least 1 (and the bounds in order) a pass that
    goes on or ends on the target writes a row, of the smallest increment or
    of what remains if that is less, and the running total grows by it; only
    with a smallest increment of 0 or less is no row written and the total
    left as it was. A pass that goes on advances the clock by the next
    step. *)
Theorem zero_weight_pass
  (e : loop_env) (s s' : loop_state) (rows : list row) (c : control)
  (hour_local : Z) (w : F64.float) :
  astimezone_hour (env_tz e) (ls_t s) = Ok hour_local ->
  dict_get (env_weights e) (Str.of_Z hour_local) = Some w ->
  F64.is_zero w = true ->
  ls_cum s < env_target e ->
  tick e s = (s', rows, c) ->
  let inc := Z.min (env_inc_min e) (env_target e - ls_cum s) in
  (forall inc0, pass_increment e s = Ok inc0 -> inc0 = 0) /\
  (env_inc_min e <= 0 -> rows = [] /\ ls_cum s' = ls_cum s) /\
  (0 < env_inc_min e <= env_inc_max e -> c = Continue \/ c = BreakTarget ->
   rows = [mkRow (ls_row_no s) (env_post_id e) inc (ls_cum s + inc)
                 (isoformat_tz (ls_t s))] /\
   ls_cum s' = ls_cum s + inc) /\
  (c = Continue ->
   exists step,
     snd (next_step (env_tick e) (pass_rng e s)) = Ok step /\
     dt_wall (ls_t s') = dt_wall (ls_t s) + step).
Proof.
  intros Hhour Hw Hzero Hcum Ht. cbv zeta.
  assert (Hinc0 : forall inc0, pass_increment e s = Ok inc0 -> inc0 = 0).
  { intros inc0. unfold pass_increment. rewrite Hhour. cbn [Py.bind].
    rewrite Hw.
    destruct (snd (randint_inclusive _ _ _)) as [base|]; cbn [Py.bind];
      [|discriminate].
    apply weighted_increment_zero_weight, Hzero. }
  split; [exact Hinc0|].
  destruct (tick_sound _ _ _ _ _ Ht)
    as [(-> & Hc & _ & _ & Hexit)
       | (inc0 & Hpass & _ & -> & Hc & _ & Hexit)].
  - split; [auto|]. split.
    + intros _ [->| ->]; destruct Hexit as [[? ?]|[x ?]]; try discriminate; lia.
    + intros ->. destruct Hexit as [[? _]|[x ?]]; discriminate.
  - apply Hinc0 in Hpass. subst inc0. cbv zeta in *.
    assert (Hcap : apply_cap (env_cap e) 0 <= 0).
    { unfold apply_cap. destruct (env_cap e); lia. }
    set (capped := apply_cap (env_cap e) 0) in *.
    unfold written. rewrite Hc. clear Hc.
    unfold clamp_increment in *.
    split; [|split].
    + intros Hmin.
      destruct (env_target e - ls_cum s <=? env_inc_min e) eqn:Hrem; [lia|].
      assert (Hno : (0 <? Z.min (Z.min (Z.max capped (env_inc_min e))
                                   (env_inc_max e))
                            (env_target e - ls_cum s)) = false)
        by (apply Z.ltb_ge; lia).
      rewrite Hno. auto.
    + intros Hmin _.
      destruct (env_target e - ls_cum s <=? env_inc_min e) eqn:Hrem.
      * apply Z.leb_le in Hrem.
        rewrite Z.min_r by lia.
        assert (Hpos : (0 <? env_target e - ls_cum s) = true)
          by (apply Z.ltb_lt; lia).
        rewrite Hpos. auto.
      * apply Z.leb_gt in Hrem.
        rewrite (Z.max_r capped) by lia.
        rewrite (Z.min_l (env_inc_min e) (env_inc_max e)) by lia.
        assert (Hpos : (0 <? Z.min (env_inc_min e) (env_target e - ls_cum s)) = true)
          by (apply Z.ltb_lt; lia).
        rewrite Hpos. auto.
    + intros ->.
      destruct Hexit as [(Hx & _)|[([x Hx] & _)|(_ & _ & step & Hstep & Hadd)]];
        try discriminate.
      exists step. split; [exact Hstep|].
      apply dt_add_wall in Hadd. tauto.
Qed.

Lemma zero_weight_pass_witness :
  let e := post_env Examples.run_zero Examples.post2 10 in
  let s := mkLoop (fst (randint_inclusive (post_rng Examples.run_zero Examples.post2) 10 10))
             0 (localize (start_datetime Examples.post2)) 1 in
  let inc := Z.min (env_inc_min e) (env_target e - ls_cum s) in
  (forall inc0, pass_increment e s = Ok inc0 -> inc0 = 0) /\
  (env_inc_min e <= 0 ->
   snd (fst (tick e s)) = [] /\ ls_cum (fst (fst (tick e s))) = ls_cum s) /\
  (0 < env_inc_min e <= env_inc_max e ->
   snd (tick e s) = Continue \/ snd (tick e s) = BreakTarget ->
   snd (fst (tick e s))
   = [mkRow (ls_row_no s) (env_post_id e) inc (ls_cum s + inc)
            (isoformat_tz (ls_t s))] /\
   ls_cum (fst (fst (tick e s))) = ls_cum s + inc) /\
  (snd (tick e s) = Continue ->
   exists step,
     snd (next_step (env_tick e) (pass_rng e s)) = Ok step /\
     dt_wall (ls_t (fst (fst (tick e s)))) = dt_wall (ls_t s) + step).
Proof.
  cbv zeta.
  apply (zero_weight_pass _ _ _ _ _ 0 (S754_zero false)).
  - vm_compute. reflexivity.
  - vm_compute. reflexivity.
  - reflexivity.
  - vm_compute. reflexivity.
  - vm_compute. reflexivity.
Defined.

(** C1 fails as stated: with the weights all zero except hour 9, hourly
    ticks from midnight, increments from 5 to 10 and the target 10, the
    passes at hours 0 and 1, both of normalised weight zero, each write a
    row of 5 views. *)
Lemma zero_weight_hours_write_rows :
  dict_get (normalize_weights (hourly_weights Examples.engine_zero)) "0"
  = Some (S754_zero false) /\
  dict_get (normalize_weights (hourly_weights Examples.engine_zero)) "1"
  = Some (S754_zero false) /\
  simulate Examples.stages Examples.engine_zero [Examples.post2] 42
    (mkOut [] false)
  = (mkOut [ Header;
             Data (mkRow 1 "p2" 5 5 (Examples.new_year_2025 / US_PER_SECOND));
             Data (mkRow 2 "p2" 5 10
                     (Examples.new_year_2025 / US_PER_SECOND + 3600)) ]
           false,
     Ok tt).
Proof. vm_compute. repeat split; reflexivity. Qed.

(** ** The run as a whole *)

(** The run does not read the output file. Whatever the file holds and
    whether it is open when the run starts, the run ends the same way, and
    once it has opened the file it leaves the same lines in it; a run that
    fails before opening the file leaves it as it found it. *)
Lemma simulate_replaces_output
  (stages_cfg : dict stage_cfg) (engine : engine_cfg) (posts : list post)
  (seed : Z) (out1 out2 : out_file) :
  snd (simulate stages_cfg engine posts seed out1)
  = snd (simulate stages_cfg engine posts seed out2) /\
  (fst (simulate stages_cfg engine posts seed out1)
   = fst (simulate stages_cfg engine posts seed out2)
   \/
   (is_ok (tick_spec_of (tick_duration engine)) = false /\
    fst (simulate stages_cfg engine posts seed out1) = out1 /\
    fst (simulate stages_cfg engine posts seed out2) = out2)).
Proof.
  unfold simulate.
  destruct (tick_spec_of (tick_duration engine)) as [spec|x].
  - destruct (simulate_posts _ posts 1) as [rows [[]|x]]; simpl; auto.
  - simpl. auto.
Qed.

(** A run that raises once the file is open leaves the handle open. *)
Lemma simulate_failure_leaves_handle (stages_cfg : dict stage_cfg)
  (engine : engine_cfg) (posts : list post) (seed : Z) (out : out_file)
  (spec : tick_spec) (x : exn) :
  tick_spec_of (tick_duration engine) = Ok spec ->
  snd (simulate stages_cfg engine posts seed out) = Raise x ->
  out_open (fst (simulate stages_cfg engine posts seed out)) = true.
Proof.
  unfold simulate. intros ->.
  destruct (simulate_posts _ posts 1) as [rows [[]|y]]; simpl;
    [discriminate|reflexivity].
Qed.

(** C7, at an input where the code keeps the handle: the second post names
    stage 99, which the stage table does not have; the run ends in KeyError
    with the rows of the first post written and the output file still
    open. *)
Theorem unknown_stage_leaves_file_open :
  simulate Examples.stages Examples.engine_fixed
    [Examples.post1; Examples.post9; Examples.post2] 42 Examples.stale_file
  = (mkOut [ Header;
             Data (mkRow 1 "p1" 6 6 63871286400);
             Data (mkRow 2 "p1" 5 11 63871290000);
             Data (mkRow 3 "p1" 5 16 63871293600);
             Data (mkRow 4 "p1" 1 17 63871297200) ]
           true,
     Raise KeyError).
Proof. vm_compute. reflexivity. Qed.


(** * Further properties of the engine *)

(** ** What one pass writes *)

(** A pass writes nothing and leaves the total and the row counter alone,
    or it writes one row: numbered by the counter, tagged with the post,
    of a positive increment that takes the total no further than the
    target and is no larger than the larger bound; an increment below the
    smaller bound lands on the target; and a pass that goes on has not
    reached the target. *)
Lemma tick_row (e : loop_env) (s s' : loop_state) (rows : list row)
  (c : control) :
  tick e s = (s', rows, c) ->
  (rows = [] /\ ls_cum s' = ls_cum s /\ ls_row_no s' = ls_row_no s)
  \/
  (exists inc,
      0 < inc /\
      rows = [mkRow (ls_row_no s) (env_post_id e) inc (ls_cum s + inc)
                    (isoformat_tz (ls_t s))] /\
      ls_cum s' = ls_cum s + inc /\
      ls_row_no s' = ls_row_no s + 1 /\
      ls_cum s + inc <= env_target e /\
      inc <= Z.max (env_inc_min e) (env_inc_max e) /\
      (env_inc_min e <= env_inc_max e -> inc < env_inc_min e ->
       ls_cum s + inc = env_target e) /\
      (c = Continue -> ls_cum s + inc < env_target e)).
Proof.
  intros Ht.
  destruct (tick_sound _ _ _ _ _ Ht)
    as [(-> & Hc & _ & Hno & _) | (inc0 & _ & Hlt & -> & Hc & Hno & Hexit)].
  - left. auto.
  - cbv zeta in *. unfold written.
    set (capped := apply_cap (env_cap e) inc0) in *.
    set (inc := clamp_increment _ _ _ capped) in *.
    destruct (0 <? inc) eqn:Hinc.
    + right. apply Z.ltb_lt in Hinc. exists inc.
      assert (Hclamp : inc <= env_target e - ls_cum s /\
                       inc <= Z.max (env_inc_min e) (env_inc_max e) /\
                       (env_inc_min e <= env_inc_max e -> inc < env_inc_min e ->
                        inc = env_target e - ls_cum s)).
      { subst inc. unfold clamp_increment.
        destruct (env_target e - ls_cum s <=? env_inc_min e) eqn:Hrem; lia. }
      repeat split; try tauto; try lia.
      intros ->.
      destruct Hexit as [(Hx & _)|[([x Hx] & _)|(_ & Hgo & _)]];
        try discriminate.
      apply Hgo, Hinc.
    + left. auto.
Qed.

(** ** Row numbers *)

Lemma map_seq_offset (no : Z) (m a b : nat) :
  map (fun k => no + Z.of_nat k) (seq (a + b) m)
  = map (fun k => no + Z.of_nat a + Z.of_nat k) (seq b m).
Proof.
  revert b. induction m as [|m IH]; intros b; simpl.
  - reflexivity.
  - f_equal; [lia|]. rewrite <- IH. f_equal. f_equal. lia.
Qed.

Lemma count_from_app (no : Z) (n m : nat) :
  count_from no (n + m) = count_from no n ++ count_from (no + Z.of_nat n) m.
Proof.
  unfold count_from. rewrite seq_app, map_app. f_equal.
  rewrite <- (map_seq_offset no m n 0). f_equal. f_equal. lia.
Qed.

Lemma for_range_row_numbers (n : nat) (e : loop_env) (s : loop_state) :
  let r := for_range n e s in
  map row_no (lr_rows r) = count_from (ls_row_no s) (List.length (lr_rows r)) /\
  ls_row_no (lr_state r) = ls_row_no s + Z.of_nat (List.length (lr_rows r)).
Proof.
  revert s. induction n as [|n IH]; intros s; cbv zeta.
  - simpl. split; [reflexivity|lia].
  - rewrite for_range_succ.
    destruct (tick e s) as [[s' rows] c] eqn:Ht.
    assert (Hone : map row_no rows = count_from (ls_row_no s) (List.length rows) /\
                   ls_row_no s' = ls_row_no s + Z.of_nat (List.length rows)).
    { destruct (tick_row _ _ _ _ _ Ht)
        as [(-> & _ & Hno) | (inc & _ & -> & _ & Hno & _)].
      - simpl. split; [reflexivity|lia].
      - simpl. unfold count_from. simpl. split; [f_equal; lia|lia]. }
    destruct Hone as [Hrows Hno].
    destruct c; cbn [lr_rows lr_state]; try (split; assumption).
    destruct (IH s') as (Hrest & Hfinal).
    rewrite length_app, map_app, count_from_app, Hrows, Hrest, Hno, Hfinal.
    split; [reflexivity|lia].
Qed.

Lemma simulate_post_row_numbers (g : run_env) (p : post) (no : Z) :
  map row_no (fst (fst (simulate_post g p no)))
  = count_from no (List.length (fst (fst (simulate_post g p no)))) /\
  snd (fst (simulate_post g p no))
  = no + Z.of_nat (List.length (fst (fst (simulate_post g p no)))).
Proof.
  unfold simulate_post.
  destruct (dict_get _ _) as [sc|]; [|simpl; split; [reflexivity|lia]].
  destruct (randint_inclusive _ _ _) as [rng [target|x]];
    [|simpl; split; [reflexivity|lia]].
  cbn [fst snd].
  apply (for_range_row_numbers _ _ (mkLoop rng 0 _ no)).
Qed.

Lemma simulate_posts_row_numbers (g : run_env) (ps : list post) (no : Z) :
  map row_no (fst (simulate_posts g ps no))
  = count_from no (List.length (fst (simulate_posts g ps no))).
Proof.
  revert no. induction ps as [|p ps IH]; intros no; simpl.
  - reflexivity.
  - destruct (simulate_post_row_numbers g p no) as [Hrows Hno].
    destruct (simulate_post g p no) as [[rows no'] [[]|x]]; cbn [fst snd] in *.
    + specialize (IH no').
      destruct (simulate_posts g ps no') as [rows' res]. cbn [fst] in *.
      rewrite length_app, map_app, count_from_app, Hrows, IH, Hno.
      reflexivity.
    + exact Hrows.
Qed.

(** X1: a run that gets as far as opening the output file leaves in it the
    header line followed by data lines only, and the data lines are
    numbered 1, 2, 3, ... in the order written, through all posts and also
    when the run ends in an exception. *)
Theorem rows_are_numbered_from_one
  (stages_cfg : dict stage_cfg) (engine : engine_cfg) (posts : list post)
  (seed : Z) (out : out_file) (spec : tick_spec) :
  tick_spec_of (tick_duration engine) = Ok spec ->
  exists rows,
    out_lines (fst (simulate stages_cfg engine posts seed out))
    = Header :: map Data rows /\
    map row_no rows = count_from 1 (List.length rows).
Proof.
  intros Hspec. unfold simulate. rewrite Hspec.
  pose proof (simulate_posts_row_numbers
                (run_env_of stages_cfg engine seed spec) posts 1) as Hno.
  destruct (simulate_posts _ posts 1) as [rows [[]|x]]; cbn [fst] in *;
    exists rows; split; (reflexivity || exact Hno).
Qed.

Lemma rows_are_numbered_from_one_witness :
  exists rows,
    out_lines (fst (simulate Examples.stages Examples.engine_fixed
                      [Examples.post1; Examples.post9; Examples.post2] 42
                      Examples.stale_file))
    = Header :: map Data rows /\
    map row_no rows = count_from 1 (List.length rows).
Proof.
  apply (rows_are_numbered_from_one _ _ _ _ _ (Fixed US_PER_HOUR)).
  vm_compute. reflexivity.
Defined.

(** ** Running totals *)

Lemma running_totals_app (start : Z) (l1 l2 : list Z) :
  running_totals start (l1 ++ l2)
  = running_totals start l1 ++ running_totals (start + fold_right Z.add 0 l1) l2.
Proof.
  revert start. induction l1 as [|i l1 IH]; intros start; simpl.
  - f_equal. lia.
  - f_equal. rewrite IH. f_equal. f_equal. lia.
Qed.

Lemma for_range_running_totals (n : nat) (e : loop_env) (s : loop_state) :
  let r := for_range n e s in
  map cum_views (lr_rows r)
  = running_totals (ls_cum s) (map views_inc (lr_rows r)) /\
  ls_cum (lr_state r)
  = ls_cum s + fold_right Z.add 0 (map views_inc (lr_rows r)).
Proof.
  revert s. induction n as [|n IH]; intros s; cbv zeta.
  - simpl. split; [reflexivity|lia].
  - rewrite for_range_succ.
    destruct (tick e s) as [[s' rows] c] eqn:Ht.
    assert (Hone : map cum_views rows
                   = running_totals (ls_cum s) (map views_inc rows) /\
                   ls_cum s' = ls_cum s + fold_right Z.add 0 (map views_inc rows)).
    { destruct (tick_row _ _ _ _ _ Ht)
        as [(-> & Hc & _) | (inc & _ & -> & Hc & _)].
      - simpl. split; [reflexivity|lia].
      - simpl. split; [reflexivity|lia]. }
    destruct Hone as [Hrows Hcum].
    destruct c; cbn [lr_rows lr_state]; try (split; assumption).
    destruct (IH s') as (Hrest & Hfinal).
    rewrite !map_app, running_totals_app, Hrows, Hrest, Hfinal, Hcum.
    split; [reflexivity|].
    rewrite fold_right_app.
    generalize (map views_inc rows) as l1.
    intros l1. induction l1 as [|i l1 IHl]; simpl; lia.
Qed.

(** X2: within a post every row's cum_views is the sum of the views_inc of
    the post's rows up to and including it: the first row carries its own
    increment, every later row the total of the row before plus its
    increment. *)
Theorem cum_views_is_the_running_sum (g : run_env) (p : post) (no : Z) :
  map cum_views (fst (fst (simulate_post g p no)))
  = running_totals 0 (map views_inc (fst (fst (simulate_post g p no)))).
Proof.
  unfold simulate_post.
  destruct (dict_get _ _) as [sc|]; [|reflexivity].
  destruct (randint_inclusive _ _ _) as [rng [target|x]]; [|reflexivity].
  cbn [fst].
  apply (for_range_running_totals _ _ (mkLoop rng 0 _ no)).
Qed.

(** ** Bounds of the increments *)

Lemma for_range_increment_bounds (n : nat) (e : loop_env) (s : loop_state) :
  env_inc_min e <= env_inc_max e ->
  let r := for_range n e s in
  Forall (fun row => 1 <= views_inc row <= env_inc_max e) (lr_rows r) /\
  Forall (fun row => env_inc_min e <= views_inc row) (removelast (lr_rows r)).
Proof.
  intros Hord. revert s. induction n as [|n IH]; intros s; cbv zeta.
  - simpl. split; constructor.
  - rewrite for_range_succ.
    destruct (tick e s) as [[s' rows] c] eqn:Ht.
    destruct (tick_row _ _ _ _ _ Ht)
      as [(-> & _) | (inc & Hpos & -> & _ & _ & _ & Hmax & Hmin & Hgo)].
    + destruct c; cbn [lr_rows app]; try (split; constructor). apply IH.
    + assert (Hrow : Forall (fun row => 1 <= views_inc row <= env_inc_max e)
                       [mkRow (ls_row_no s) (env_post_id e) inc (ls_cum s + inc)
                              (isoformat_tz (ls_t s))]).
      { constructor; [simpl; lia|constructor]. }
      destruct c; cbn [lr_rows]; try (split; [exact Hrow|constructor]).
      destruct (IH s') as (Hall & Hinit).
      split.
      * apply Forall_app. split; assumption.
      * cbn [app].
        destruct (lr_rows (for_range n e s')) as [|row' rest] eqn:Hrest.
        -- constructor.
        -- change (removelast (?a :: row' :: rest))
             with (a :: removelast (row' :: rest)).
           constructor; [|exact Hinit].
           simpl. specialize (Hgo eq_refl). lia.
Qed.

(** X3: with the increment bounds in order, every row of a post has an
    increment of at least 1 and at most increment.max, and every row but
    the post's last has at least increment.min: only the row that finishes
    a post can fall below the minimum. *)
Theorem increments_within_bounds (g : run_env) (p : post) (no : Z) :
  run_inc_min g <= run_inc_max g ->
  Forall (fun row => 1 <= views_inc row <= run_inc_max g)
    (fst (fst (simulate_post g p no))) /\
  Forall (fun row => run_inc_min g <= views_inc row)
    (removelast (fst (fst (simulate_post g p no)))).
Proof.
  intros Hord. unfold simulate_post.
  destruct (dict_get _ _) as [sc|]; [|split; constructor].
  destruct (randint_inclusive _ _ _) as [rng [target|x]]; [|split; constructor].
  cbn [fst].
  apply (for_range_increment_bounds _ (post_env g p target)
           (mkLoop rng 0 _ no) Hord).
Qed.

Lemma increments_within_bounds_witness :
  Forall (fun row => 1 <= views_inc row <= run_inc_max Examples.run_fixed)
    (fst (fst (simulate_post Examples.run_fixed Examples.post1 1))) /\
  Forall (fun row => run_inc_min Examples.run_fixed <= views_inc row)
    (removelast (fst (fst (simulate_post Examples.run_fixed Examples.post1 1)))).
Proof.
  apply (increments_within_bounds Examples.run_fixed Examples.post1 1).
  vm_compute. discriminate.
Defined.

(** ** Posts in the output *)

Lemma for_range_post_id (n : nat) (e : loop_env) (s : loop_state) :
  Forall (fun row => row_post_id row = env_post_id e) (lr_rows (for_range n e s)).
Proof.
  revert s. induction n as [|n IH]; intros s.
  - constructor.
  - rewrite for_range_succ.
    destruct (tick e s) as [[s' rows] c] eqn:Ht.
    assert (Hrows : Forall (fun row => row_post_id row = env_post_id e) rows).
    { destruct (tick_row _ _ _ _ _ Ht) as [(-> & _) | (inc & _ & -> & _)];
        repeat constructor. }
    destruct c; cbn [lr_rows]; try exact Hrows.
    apply Forall_app. split; [exact Hrows | apply IH].
Qed.

Lemma simulate_post_post_id (g : run_env) (p : post) (no : Z) :
  Forall (fun row => row_post_id row = post_id p)
    (fst (fst (simulate_post g p no))).
Proof.
  unfold simulate_post.
  destruct (dict_get _ _) as [sc|]; [|constructor].
  destruct (randint_inclusive _ _ _) as [rng [target|x]]; [|constructor].
  cbn [fst]. apply (for_range_post_id _ (post_env g p target)).
Qed.

(** X4: the rows of a run come post by post in the order of the posts
    file, never interleaved: they split into one block per post reached,
    block [i] holding only rows that carry the id of post [i]. *)
Theorem rows_are_grouped_by_post (g : run_env) (ps : list post) (no : Z) :
  exists blocks : list (list row),
    fst (simulate_posts g ps no) = List.concat blocks /\
    Forall2 (fun p block => Forall (fun row => row_post_id row = post_id p) block)
      (firstn (List.length blocks) ps) blocks.
Proof.
  revert no. induction ps as [|p ps IH]; intros no; simpl.
  - exists []. split; [reflexivity|constructor].
  - pose proof (simulate_post_post_id g p no) as Hp.
    destruct (simulate_post g p no) as [[rows no'] [[]|x]]; cbn [fst] in *.
    + destruct (IH no') as (blocks & Hcat & Hall).
      destruct (simulate_posts g ps no') as [rows' res]. cbn [fst] in *.
      exists (rows :: blocks). simpl. split; [now rewrite Hcat|].
      constructor; assumption.
    + exists [rows]. simpl. split; [now rewrite app_nil_r|].
      constructor; [assumption|constructor].
Qed.

(** ** A post's rows and the posts before it *)

Lemma tick_shift_row_no (d : Z) (e : loop_env) (s : loop_state) :
  tick e (shift_row_no d s)
  = (shift_row_no d (fst (fst (tick e s))),
     map (renumber d) (snd (fst (tick e s))),
     snd (tick e s)).
Proof.
  unfold tick, shift_row_no.
  cbn [ls_rng ls_cum ls_t ls_row_no set_rng].
  destruct (astimezone_hour (env_tz e) (ls_t s)) as [hour_local|x];
    [|reflexivity].
  destruct (randint_inclusive (ls_rng s) (env_inc_min e) (env_inc_max e))
    as [rng1 base].
  match goal with
  | |- context [match ?r with Ok _ => _ | Raise _ => _ end] =>
      destruct r as [inc0|x]
  end; [|reflexivity].
  cbv zeta.
  destruct (env_target e - ls_cum s <=? 0); [reflexivity|].
  set (inc := clamp_increment _ _ _ _).
  destruct (0 <? inc); cbn [andb ls_rng ls_cum ls_t ls_row_no set_rng].
  - replace (ls_row_no s + d + 1) with (ls_row_no s + 1 + d) by lia.
    destruct (env_target e <=? ls_cum s + inc); [reflexivity|].
    destruct (next_step (env_tick e) rng1) as [rng2 [step|x]];
      cbn [Py.bind]; [|reflexivity].
    destruct (dt_add (ls_t s) step); reflexivity.
  - destruct (next_step (env_tick e) rng1) as [rng2 [step|x]];
      cbn [Py.bind]; [|reflexivity].
    destruct (dt_add (ls_t s) step); reflexivity.
Qed.

Lemma for_range_shift_row_no (d : Z) (n : nat) (e : loop_env) (s : loop_state) :
  for_range n e (shift_row_no d s)
  = mkResult (shift_row_no d (lr_state (for_range n e s)))
             (map (renumber d) (lr_rows (for_range n e s)))
             (lr_exit (for_range n e s))
             (lr_passes (for_range n e s)).
Proof.
  revert s. induction n as [|n IH]; intros s.
  - reflexivity.
  - rewrite !for_range_succ, tick_shift_row_no.
    destruct (tick e s) as [[s' rows] c]. cbn [fst snd].
    destruct c; try reflexivity.
    rewrite IH. cbn [lr_state lr_rows lr_exit lr_passes].
    now rewrite map_app.
Qed.

(** X5: what a post writes does not depend on the posts before it, apart
    from the numbering: started at row number [no + d] instead of [no],
    the post writes the same rows with every number moved by [d], hands on
    a counter moved by [d], and ends the same way. *)
Theorem post_rows_only_shift_with_numbering
  (g : run_env) (p : post) (no d : Z) :
  simulate_post g p (no + d)
  = (map (renumber d) (fst (fst (simulate_post g p no))),
     snd (fst (simulate_post g p no)) + d,
     snd (simulate_post g p no)).
Proof.
  unfold simulate_post.
  destruct (dict_get _ _) as [sc|]; [|reflexivity].
  destruct (randint_inclusive _ _ _) as [rng [target|x]]; [|reflexivity].
  change (mkLoop rng 0 (localize (start_datetime p)) (no + d))
    with (shift_row_no d (mkLoop rng 0 (localize (start_datetime p)) no)).
  rewrite for_range_shift_row_no. reflexivity.
Qed.


(** ** How the loop of a post ends *)

Lemma for_range_exits (n : nat) (e : loop_env) (s : loop_state) :
  ls_cum s < env_target e ->
  let r := for_range n e s in
  lr_exit r <> NoRemaining /\
  (lr_exit r = RangeExhausted ->
   lr_passes r = n /\ ls_cum (lr_state r) < env_target e).
Proof.
  revert s. induction n as [|n IH]; intros s Hcum; cbv zeta.
  - simpl. split; [discriminate|]. auto.
  - rewrite for_range_succ.
    destruct (tick e s) as [[s' rows] c] eqn:Ht.
    pose proof (tick_sound _ _ _ _ _ Ht) as Hpost.
    destruct c; cbn [lr_exit lr_passes lr_state].
    + assert (Hcum' : ls_cum s' < env_target e).
      { destruct Hpost as [(_ & _ & _ & _ & [[? _]|[x ?]]) | (inc0 & _ & _ & _ & Hc & _ & Hexit)];
          try discriminate.
        cbv zeta in *. rewrite Hc.
        destruct Hexit as [(? & _)|[([x ?] & _)|(_ & Hgo & _)]]; try discriminate.
        destruct (0 <? _) eqn:Hinc; [apply Z.ltb_lt in Hinc|]; lia. }
      destruct (IH s' Hcum') as (Hno & Hex).
      split; [exact Hno|]. intros Hexh. destruct (Hex Hexh). split; lia.
    + exfalso.
      destruct Hpost as [(_ & _ & _ & _ & [[_ ?]|[x ?]]) | (inc0 & _ & _ & _ & _ & _ & Hexit)];
        try discriminate; try lia.
      destruct Hexit as [(? & _)|[([x ?] & _)|(? & _)]]; discriminate.
    + split; discriminate.
    + split; discriminate.
Qed.

(** X6: the loop of a post whose target is at least 1 never leaves by the
    test [remaining <= 0]; and when it uses up its [max_hours] passes it
    has made exactly that many and its total is still strictly below the
    target. *)
Theorem loop_exhausted_means_short
  (g : run_env) (p : post) (target rng no : Z) (n : nat) :
  1 <= target ->
  let r := for_range n (post_env g p target)
             (mkLoop rng 0 (localize (start_datetime p)) no) in
  lr_exit r <> NoRemaining /\
  (lr_exit r = RangeExhausted ->
   lr_passes r = n /\ ls_cum (lr_state r) < target).
Proof.
  intros Htarget.
  apply (for_range_exits n (post_env g p target)
           (mkLoop rng 0 (localize (start_datetime p)) no)).
  simpl. lia.
Qed.

Lemma loop_exhausted_means_short_witness :
  let r := for_range 2 (post_env Examples.run_fixed Examples.post1 17)
             (mkLoop 3533187389298662792 0
                (localize (start_datetime Examples.post1)) 1) in
  lr_exit r <> NoRemaining /\
  (lr_exit r = RangeExhausted ->
   lr_passes r = 2%nat /\ ls_cum (lr_state r) < 17).
Proof.
  apply (loop_exhausted_means_short Examples.run_fixed Examples.post1 17).
  lia.
Defined.

Lemma for_range_progress (n : nat) (e : loop_env) (s : loop_state) :
  1 <= env_inc_min e <= env_inc_max e ->
  ls_cum s <= env_target e ->
  let r := for_range n e s in
  Z.of_nat (List.length (lr_rows r)) * env_inc_min e
  < env_target e - ls_cum s + env_inc_min e /\
  (lr_exit r = RangeExhausted ->
   ls_cum s + Z.of_nat n * env_inc_min e <= ls_cum (lr_state r)).
Proof.
  intros Hord. revert s. induction n as [|n IH]; intros s Hcum; cbv zeta.
  - simpl. split; [lia|]. intros _. lia.
  - rewrite for_range_succ.
    destruct (tick e s) as [[s' rows] c] eqn:Ht.
    pose proof (tick_sound _ _ _ _ _ Ht) as Hpost.
    destruct (tick_row _ _ _ _ _ Ht)
      as [(-> & Hc & _) | (inc & Hpos & -> & Hc & _ & Hle & _ & Hmin & Hgo)].
    + (* nothing written: with a smallest increment of 1 the pass stopped early *)
      assert (Hstop : c <> Continue).
      { intros ->.
        destruct Hpost as [(_ & _ & _ & _ & [[? _]|[x ?]]) | (inc0 & _ & Hlt & Hw & _)];
          try discriminate.
        cbv zeta in Hw. unfold written in Hw.
        destruct (0 <? clamp_increment _ _ _ _) eqn:Hinc; [discriminate|].
        apply Z.ltb_ge in Hinc. unfold clamp_increment in Hinc.
        destruct (env_target e - ls_cum s <=? env_inc_min e) eqn:Hrem; lia. }
      destruct c; try contradiction; cbn [lr_rows lr_exit List.length];
        (split; [lia|discriminate]).
    + destruct c; cbn [lr_rows lr_exit lr_state List.length app];
        try (split; [lia|discriminate]).
      specialize (Hgo eq_refl).
      destruct (IH s' ltac:(lia)) as (Hlen & Hex).
      rewrite Hc in *.
      split; [|intros Hexh; specialize (Hex Hexh)]; nia.
Qed.

(** X7: with increment bounds 1 <= min <= max, a post writes fewer than
    target / min + 1 rows, and its loop uses up [n] passes only when
    [n * min] is still below the target: given at least target / min
    passes, the loop ends on the target or on an exception, not on the
    pass budget. *)
Theorem pass_budget_suffices
  (g : run_env) (p : post) (target rng no : Z) (n : nat) :
  1 <= run_inc_min g <= run_inc_max g ->
  0 <= target ->
  let r := for_range n (post_env g p target)
             (mkLoop rng 0 (localize (start_datetime p)) no) in
  Z.of_nat (List.length (lr_rows r)) * run_inc_min g < target + run_inc_min g /\
  (target <= Z.of_nat n * run_inc_min g -> 1 <= target ->
   lr_exit r <> RangeExhausted).
Proof.
  intros Hord Htarget. cbv zeta.
  pose proof (for_range_progress n (post_env g p target)
                (mkLoop rng 0 (localize (start_datetime p)) no) Hord) as Hprog.
  cbn [post_env env_inc_min env_target ls_cum] in Hprog. cbv zeta in Hprog.
  destruct (Hprog Htarget) as (Hlen & Hex).
  split; [lia|].
  intros Hbudget Hpos Hexh.
  pose proof (for_range_exits n (post_env g p target)
                (mkLoop rng 0 (localize (start_datetime p)) no)) as Hexit.
  cbn [post_env env_target ls_cum] in Hexit. cbv zeta in Hexit.
  destruct (Hexit ltac:(lia)) as (_ & Hshort).
  specialize (Hex Hexh). destruct (Hshort Hexh). lia.
Qed.

Lemma pass_budget_suffices_witness :
  let r := for_range 336 (post_env Examples.run_fixed Examples.post1 17)
             (mkLoop 3533187389298662792 0
                (localize (start_datetime Examples.post1)) 1) in
  Z.of_nat (List.length (lr_rows r)) * run_inc_min Examples.run_fixed
  < 17 + run_inc_min Examples.run_fixed /\
  (17 <= Z.of_nat 336 * run_inc_min Examples.run_fixed -> 1 <= 17 ->
   lr_exit r <> RangeExhausted).
Proof.
  apply (pass_budget_suffices Examples.run_fixed Examples.post1 17).
  - vm_compute. split; discriminate.
  - lia.
Defined.

(** ** Fixed ticks *)

Lemma tick_fixed_continue (e : loop_env) (s s' : loop_state) (rows : list row)
  (d : timedelta) :
  env_tick e = Fixed d ->
  1 <= env_inc_min e <= env_inc_max e ->
  tick e s = (s', rows, Continue) ->
  (exists row, rows = [row]) /\ dt_wall (ls_t s') = dt_wall (ls_t s) + d.
Proof.
  intros Hfixed Hord Ht.
  destruct (tick_sound _ _ _ _ _ Ht)
    as [(_ & _ & _ & _ & [[? _]|[x ?]]) | (inc0 & _ & Hlt & -> & _ & _ & Hexit)];
    try discriminate.
  cbv zeta in *.
  destruct Hexit as [(? & _)|[([x ?] & _)|(_ & _ & step & Hstep & Hadd)]];
    try discriminate.
  rewrite Hfixed in Hstep. cbn [next_step snd] in Hstep.
  injection Hstep as <-.
  apply dt_add_wall in Hadd. split; [|tauto].
  unfold written.
  assert (Hinc : (0 <? clamp_increment (env_inc_min e) (env_inc_max e)
                         (env_target e - ls_cum s)
                         (apply_cap (env_cap e) inc0)) = true).
  { apply Z.ltb_lt. unfold clamp_increment.
    destruct (env_target e - ls_cum s <=? env_inc_min e) eqn:Hrem; lia. }
  rewrite Hinc. eauto.
Qed.

Lemma for_range_fixed_grid (n : nat) (e : loop_env) (s : loop_state)
  (d : timedelta) :
  env_tick e = Fixed d ->
  1 <= env_inc_min e <= env_inc_max e ->
  map row_datetime (lr_rows (for_range n e s))
  = map (fun k => (dt_wall (ls_t s) + Z.of_nat k * d) / US_PER_SECOND)
      (seq 0 (List.length (lr_rows (for_range n e s)))).
Proof.
  intros Hfixed Hord. revert s. induction n as [|n IH]; intros s.
  - reflexivity.
  - rewrite for_range_succ.
    destruct (tick e s) as [[s' rows] c] eqn:Ht.
    assert (Hone : map row_datetime rows
                   = map (fun k => (dt_wall (ls_t s) + Z.of_nat k * d) / US_PER_SECOND)
                       (seq 0 (List.length rows))).
    { destruct (tick_row _ _ _ _ _ Ht) as [(-> & _) | (inc & _ & -> & _)].
      - reflexivity.
      - simpl. unfold isoformat_tz. do 2 f_equal. lia. }
    destruct c; cbn [lr_rows]; try exact Hone.
    destruct (tick_fixed_continue _ _ _ _ _ Hfixed Hord Ht) as ([row ->] & Hwall).
    cbn [app List.length seq map] in *.
    injection Hone as Hrow. rewrite Hrow. f_equal.
    rewrite IH, Hwall, <- seq_shift, map_map.
    apply map_ext. intros k. f_equal. lia.
Qed.

(** X8: with a fixed tick [d] and increment bounds 1 <= min <= max, every
    pass that goes on writes a row, so the rows of a post lie one tick
    apart: row [k] (from 0) is stamped with the post's start time plus
    [k] ticks. *)
Theorem fixed_tick_rows_are_one_tick_apart
  (g : run_env) (p : post) (no : Z) (d : timedelta) :
  run_tick g = Fixed d ->
  1 <= run_inc_min g <= run_inc_max g ->
  map row_datetime (fst (fst (simulate_post g p no)))
  = map (fun k => (start_wall (start_datetime p) + Z.of_nat k * d) / US_PER_SECOND)
      (seq 0 (List.length (fst (fst (simulate_post g p no))))).
Proof.
  intros Hfixed Hord. unfold simulate_post.
  destruct (dict_get _ _) as [sc|]; [|reflexivity].
  destruct (randint_inclusive _ _ _) as [rng [target|x]]; [|reflexivity].
  cbn [fst].
  apply (for_range_fixed_grid _ (post_env g p target)
           (mkLoop rng 0 (localize (start_datetime p)) no) d Hfixed Hord).
Qed.

Lemma fixed_tick_rows_are_one_tick_apart_witness :
  map row_datetime (fst (fst (simulate_post Examples.run_fixed Examples.post1 1)))
  = map (fun k => (start_wall (start_datetime Examples.post1)
                   + Z.of_nat k * US_PER_HOUR) / US_PER_SECOND)
      (seq 0 (List.length
                (fst (fst (simulate_post Examples.run_fixed Examples.post1 1))))).
Proof.
  apply (fixed_tick_rows_are_one_tick_apart Examples.run_fixed Examples.post1 1
           US_PER_HOUR).
  - reflexivity.
  - vm_compute. split; discriminate.
Defined.

(** ** The hour-weighted increment *)

Lemma floor_of_max_zero (x : F64.float) (k : Z) :
  F64.floor (F64.max F64.zero x) = Ok k -> 0 <= k.
Proof.
  unfold F64.max, F64.ltb, F64.zero, SFltb.
  destruct x as [s|s| |s m e]; cbn [SFcompare].
  - unfold F64.floor. intros [= <-]. lia.
  - destruct s; unfold F64.floor; [intros [= <-]; lia|discriminate].
  - unfold F64.floor. intros [= <-]. lia.
  - destruct s; unfold F64.floor; [intros [= <-]; lia|].
    unfold cond_Zopp. intros Hk.
    replace k with (if 0 <=? e then Z.pos m * 2 ^ e else Z.pos m / 2 ^ (- e))
      by congruence.
    apply F64Facts.trunc_magnitude_nonneg.
Qed.

(** X9: the increment a pass computes from the hour's weight, before the
    cap and the clamp, is never negative, whatever the weight (a negative
    weight or a NaN counts as zero) and whatever the base increment. *)
Theorem weighted_increment_never_negative (w : F64.float) (base inc0 : Z) :
  weighted_increment w base = Ok inc0 -> 0 <= inc0.
Proof.
  unfold weighted_increment.
  destruct (F64.truediv w mean_weight_norm) as [ratio|]; cbn [Py.bind];
    [|discriminate].
  destruct (F64.of_int base) as [fbase|]; cbn [Py.bind]; [|discriminate].
  apply floor_of_max_zero.
Qed.

Lemma weighted_increment_never_negative_witness :
  (weighted_increment (Examples.lit "-0.5") 7 = Ok 0 /\ 0 <= 0) /\
  (weighted_increment (Examples.lit "0.125") 57 = Ok 171 /\ 0 <= 171).
Proof.
  assert (H1 : weighted_increment (Examples.lit "-0.5") 7 = Ok 0)
    by (vm_compute; reflexivity).
  assert (H2 : weighted_increment (Examples.lit "0.125") 57 = Ok 171)
    by (vm_compute; reflexivity).
  split; (split; [assumption|]).
  - exact (weighted_increment_never_negative _ _ _ H1).
  - exact (weighted_increment_never_negative _ _ _ H2).
Defined.

(** ** The generator's states *)

Lemma land_mask64 (x : Z) : Z.land x MASK64 = x mod 2 ^ 64.
Proof.
  unfold MASK64. change 0xFFFFFFFFFFFFFFFF with (Z.ones 64).
  apply Z.land_ones. lia.
Qed.

(** X10: the state a generator starts from is the seed reduced modulo
    2^64, for negative seeds too, except that a seed divisible by 2^64
    starts from the constant 0xDEADBEEFCAFEBABE; so the starting state is
    never 0 and always below 2^64, and seeds that differ by a multiple of
    2^64 start the same stream. *)
Theorem rng_from_seed_state (seed_int : Z) :
  0 < rng_from_seed seed_int < 2 ^ 64 /\
  (seed_int mod 2 ^ 64 <> 0 -> rng_from_seed seed_int = seed_int mod 2 ^ 64) /\
  (seed_int mod 2 ^ 64 = 0 -> rng_from_seed seed_int = 0xDEADBEEFCAFEBABE) /\
  (forall k, rng_from_seed (seed_int + k * 2 ^ 64) = rng_from_seed seed_int).
Proof.
  unfold rng_from_seed. rewrite land_mask64.
  pose proof (Z.mod_pos_bound seed_int (2 ^ 64) eq_refl) as Hb.
  repeat split.
  - destruct (seed_int mod 2 ^ 64 =? 0) eqn:Hz; [reflexivity|].
    apply Z.eqb_neq in Hz. lia.
  - destruct (seed_int mod 2 ^ 64 =? 0) eqn:Hz; [reflexivity|]. lia.
  - intros Hnz. apply Z.eqb_neq in Hnz. now rewrite Hnz.
  - intros Hz. now rewrite Hz.
  - intros k. rewrite land_mask64, Z.mod_add by discriminate. reflexivity.
Qed.

Lemma lcg_next_mod (state : Z) :
  lcg_next state = (6364136223846793005 * state + 1) mod 2 ^ 64.
Proof. apply land_mask64. Qed.

Lemma lcg_next_injective (s1 s2 : Z) :
  0 <= s1 < 2 ^ 64 -> 0 <= s2 < 2 ^ 64 ->
  lcg_next s1 = lcg_next s2 -> s1 = s2.
Proof.
  intros H1 H2. rewrite !lcg_next_mod. intros Heq.
  set (a := 6364136223846793005) in *.
  pose proof (Z.div_mod (a * s1 + 1) (2 ^ 64) ltac:(discriminate)) as E1.
  pose proof (Z.div_mod (a * s2 + 1) (2 ^ 64) ltac:(discriminate)) as E2.
  set (q1 := (a * s1 + 1) / 2 ^ 64) in *.
  set (q2 := (a * s2 + 1) / 2 ^ 64) in *.
  rewrite Heq in E1.
  (* the multiplier has an inverse modulo 2^64 *)
  assert (Hinv : 13877824140714322085 * a = 1 + 2 ^ 64 * 4787856489426250814)
    by reflexivity.
  assert (Hdiv : s1 - s2
                 = 2 ^ 64 * (13877824140714322085 * (q1 - q2)
                             - 4787856489426250814 * (s1 - s2))).
  { assert (Ha : a * (s1 - s2) = 2 ^ 64 * (q1 - q2)) by lia.
    assert (Hm : 13877824140714322085 * (a * (s1 - s2))
                 = 13877824140714322085 * (2 ^ 64 * (q1 - q2))) by (now rewrite Ha).
    rewrite Z.mul_assoc, Hinv in Hm. lia. }
  change (2 ^ 64) with 18446744073709551616 in *. lia.
Qed.

(** X11: every draw, [randint_inclusive] with any bounds and [rand] alike,
    and also a draw that raises, replaces the state by the same successor,
    [(6364136223846793005 * state + 1) mod 2^64]; the successor is below
    2^64, and two different 64-bit states never have the same successor,
    so two streams never run together. *)
Theorem draws_step_the_state_alike (state a b : Z) :
  fst (randint_inclusive state a b) = fst (rand state) /\
  fst (rand state) = (6364136223846793005 * state + 1) mod 2 ^ 64 /\
  0 <= fst (rand state) < 2 ^ 64 /\
  (forall state', 0 <= state < 2 ^ 64 -> 0 <= state' < 2 ^ 64 ->
                  state <> state' -> fst (rand state) <> fst (rand state')).
Proof.
  cbv beta zeta delta [randint_inclusive rand]. cbn [fst].
  split; [reflexivity|]. split; [apply lcg_next_mod|].
  split; [apply lcg_next_range|].
  intros state' H1 H2 Hne Heq. apply Hne.
  apply lcg_next_injective; assumption.
Qed.

Lemma draws_step_the_state_alike_witness :
  fst (rand 5) <> fst (rand 6) /\ 0 <= fst (rand 5) < 2 ^ 64.
Proof.
  split.
  - apply (proj2 (proj2 (proj2 (draws_step_the_state_alike 5 1 6))) 6);
      (split; (discriminate || reflexivity)) || discriminate.
  - apply (proj1 (proj2 (proj2 (draws_step_the_state_alike 5 1 6)))).
Defined.

(** ** The text behind a post's seed *)

Lemma has_bar_app (a b : string) :
  has_bar (a ++ b) = has_bar a || has_bar b.
Proof.
  induction a as [|c a IH]; [reflexivity|].
  cbn [String.append has_bar]. rewrite IH. apply orb_assoc.
Qed.

Lemma string_of_uint_no_bar (d : Decimal.uint) :
  has_bar (NilEmpty.string_of_uint d) = false.
Proof.
  induction d; cbn [NilEmpty.string_of_uint has_bar]; try rewrite IHd;
    reflexivity.
Qed.

Lemma of_Z_no_bar (z : Z) : has_bar (Str.of_Z z) = false.
Proof.
  unfold Str.of_Z.
  assert (Hu : forall d, has_bar (NilZero.string_of_uint d) = false).
  { intros d. destruct d; try apply string_of_uint_no_bar. reflexivity. }
  destruct (Z.to_int z) as [d|d]; cbn [NilZero.string_of_int has_bar].
  - apply Hu.
  - rewrite Hu. reflexivity.
Qed.

Lemma of_Z_injective (a b : Z) : Str.of_Z a = Str.of_Z b -> a = b.
Proof.
  unfold Str.of_Z. intros Heq.
  assert (Hread : forall z, NilZero.int_of_string
                              (NilZero.string_of_int (Z.to_int z))
                            = Some (Z.to_int z)).
  { intros z. apply NilZero.isi; destruct z; cbn [Z.to_int]; try discriminate;
      intros [= Hnil]; exact (DecimalPos.Unsigned.to_uint_nonnil _ Hnil). }
  apply DecimalZ.to_int_inj.
  pose proof (Hread a) as Ha. rewrite Heq, Hread in Ha.
  congruence.
Qed.

(** The text before the first bar and the text after it. *)
Lemma split_at_first_bar (a a' r r' : string) :
  has_bar a = false -> has_bar a' = false ->
  (a ++ String "|" r = a' ++ String "|" r')%string -> a = a' /\ r = r'.
Proof.
  revert a'. induction a as [|c a IH]; intros [|c' a'];
    cbn [String.append has_bar]; intros Ha Ha' Heq.
  - injection Heq as ->. auto.
  - injection Heq as <- _. discriminate.
  - injection Heq as -> _. discriminate.
  - injection Heq as -> Heq.
    apply orb_false_elim in Ha as [_ Ha]. apply orb_false_elim in Ha' as [_ Ha'].
    destruct (IH a' Ha Ha' Heq) as [-> ->]. auto.
Qed.

(** The text before the last bar and the text after it. *)
Lemma split_at_last_bar (i i' o o' : string) :
  has_bar o = false -> has_bar o' = false ->
  (i ++ String "|" o = i' ++ String "|" o')%string -> i = i' /\ o = o'.
Proof.
  intros Ho Ho'. revert i'. induction i as [|c i IH]; intros [|c' i'];
    cbn [String.append]; intros Heq.
  - injection Heq as ->. auto.
  - injection Heq as _ ->.
    rewrite has_bar_app in Ho. cbn [has_bar] in Ho.
    rewrite Ascii.eqb_refl, orb_true_r in Ho. discriminate.
  - injection Heq as _ <-.
    rewrite has_bar_app in Ho'. cbn [has_bar] in Ho'.
    rewrite Ascii.eqb_refl, orb_true_r in Ho'. discriminate.
  - injection Heq as -> Heq. destruct (IH i' Heq) as [-> ->]. auto.
Qed.

Lemma seed_text_injective (g g' : Z) (i i' : string) (o o' : Z) :
  seed_text g i o = seed_text g' i' o' -> g = g' /\ i = i' /\ o = o'.
Proof.
  unfold seed_text. intros Heq.
  change (Str.of_Z g ++ String "|" (i ++ String "|" (Str.of_Z o))
          = Str.of_Z g' ++ String "|" (i' ++ String "|" (Str.of_Z o')))%string
    in Heq.
  apply split_at_first_bar in Heq as [Hg Heq]; try apply of_Z_no_bar.
  apply split_at_last_bar in Heq as [Hi Ho]; try apply of_Z_no_bar.
  apply of_Z_injective in Hg, Ho. auto.
Qed.


(** ** The range of a post's seed *)

Lemma from_be_bytes_range (bs : list Z) (acc : Z) :
  Forall (fun b => 0 <= b < 256) bs -> 0 <= acc ->
  0 <= fold_left (fun acc b => 256 * acc + b) bs acc
  < (acc + 1) * 256 ^ Z.of_nat (List.length bs).
Proof.
  intros Hbs. revert acc.
  induction Hbs as [|b bs Hb _ IH]; intros acc Hacc.
  - cbn. lia.
  - cbn [fold_left List.length]. rewrite Nat2Z.inj_succ, Z.pow_succ_r by lia.
    specialize (IH (256 * acc + b) ltac:(lia)).
    assert (0 < 256 ^ Z.of_nat (List.length bs)) by (apply Z.pow_pos_nonneg; lia).
    nia.
Qed.

Lemma be_bytes_range (n : nat) (x : Z) :
  Forall (fun b => 0 <= b < 256) (SHA256.be_bytes n x).
Proof.
  induction n as [|n IH]; cbn [SHA256.be_bytes]; constructor; [|exact IH].
  change 255 with (Z.ones 8). rewrite Z.land_ones by lia.
  apply Z.mod_pos_bound. reflexivity.
Qed.

Lemma digest_bytes (msg : list Z) :
  Forall (fun b => 0 <= b < 256) (SHA256.digest msg).
Proof.
  unfold SHA256.digest. cbv zeta.
  generalize (SHA256.blocks (List.length (SHA256.pad msg) / 64) SHA256.H0 (SHA256.pad msg)).
  intros ws. induction ws as [|w ws IH]; cbn [flat_map]; [constructor|].
  apply Forall_app. split; [apply be_bytes_range|exact IH].
Qed.

Lemma seed_for_post_range (g : Z) (i : string) (o : Z) :
  0 <= seed_for_post g i o < 2 ^ 64.
Proof.
  unfold seed_for_post, SHA256.from_be_bytes. cbv zeta.
  change (Str.of_Z g ++ "|" ++ i ++ "|" ++ Str.of_Z o)%string
    with (seed_text g i o).
  set (h := SHA256.digest _).
  assert (Hh : Forall (fun b => 0 <= b < 256) (firstn 8 h)).
  { pose proof (digest_bytes (encode (seed_text g i o))) as Hall.
    fold h in Hall. rewrite <- (firstn_skipn 8 h) in Hall.
    apply Forall_app in Hall. apply Hall. }
  pose proof (from_be_bytes_range _ 0 Hh ltac:(lia)) as [Hlo Hhi].
  split; [exact Hlo|].
  eapply Z.lt_le_trans; [exact Hhi|].
  pose proof (firstn_le_length 8 h) as Hlen.
  change (2 ^ 64) with (256 ^ 8). rewrite Z.mul_1_l.
  apply Z.pow_le_mono_r; lia.
Qed.

(** ** Posts with the same seed *)

Lemma encode_injective (a b : string) : encode a = encode b -> a = b.
Proof.
  unfold encode. revert b.
  induction a as [|c a IH]; intros [|d b]; cbn [list_ascii_of_string map];
    try discriminate; [reflexivity|].
  intros [= Hc Hab]. f_equal; [|apply IH, Hab].
  unfold Str.code in Hc. apply N2Z.inj in Hc.
  rewrite <- (ascii_N_embedding c), <- (ascii_N_embedding d), Hc.
  reflexivity.
Qed.

Lemma from_be_bytes_injective (l1 l2 : list Z) (a1 a2 : Z) :
  List.length l1 = List.length l2 ->
  Forall (fun b => 0 <= b < 256) l1 -> Forall (fun b => 0 <= b < 256) l2 ->
  fold_left (fun acc b => 256 * acc + b) l1 a1
  = fold_left (fun acc b => 256 * acc + b) l2 a2 ->
  a1 = a2 /\ l1 = l2.
Proof.
  revert l2 a1 a2. induction l1 as [|b1 l1 IH]; intros [|b2 l2] a1 a2;
    cbn [List.length fold_left]; try discriminate.
  - auto.
  - intros [= Hlen] H1 H2 Heq.
    inversion H1 as [|? ? Hb1 H1']; inversion H2 as [|? ? Hb2 H2']; subst.
    destruct (IH l2 _ _ Hlen H1' H2' Heq) as [Ha ->].
    assert (a1 = a2) by lia. subst. split; [reflexivity|]. f_equal. lia.
Qed.

Lemma round_length (h : list Z) (kw : Z * Z) :
  List.length (SHA256.round h kw) = List.length h.
Proof.
  unfold SHA256.round.
  do 9 (destruct h as [|? h]; try reflexivity).
Qed.

Lemma compress_length (h block : list Z) :
  List.length (SHA256.compress h block) = List.length h.
Proof.
  unfold SHA256.compress. cbv zeta.
  rewrite length_map, length_combine.
  assert (Hfold : forall kws h0,
             List.length (fold_left SHA256.round kws h0) = List.length h0).
  { intros kws. induction kws as [|kw kws IH]; intros h0; cbn [fold_left];
      [reflexivity|]. rewrite IH. apply round_length. }
  rewrite Hfold. apply Nat.min_id.
Qed.

Lemma blocks_length (n : nat) (h bs : list Z) :
  List.length (SHA256.blocks n h bs) = List.length h.
Proof.
  revert h bs. induction n as [|n IH]; intros h bs; cbn [SHA256.blocks];
    [reflexivity|]. rewrite IH. apply compress_length.
Qed.

Lemma be_bytes_length (n : nat) (x : Z) :
  List.length (SHA256.be_bytes n x) = n.
Proof. induction n as [|n IH]; cbn [SHA256.be_bytes List.length]; congruence. Qed.

Lemma digest_length (msg : list Z) : List.length (SHA256.digest msg) = 32%nat.
Proof.
  unfold SHA256.digest. cbv zeta.
  pose proof (blocks_length (List.length (SHA256.pad msg) / 64) SHA256.H0
                (SHA256.pad msg)) as Hlen.
  revert Hlen. generalize (SHA256.blocks (List.length (SHA256.pad msg) / 64)
                             SHA256.H0 (SHA256.pad msg)).
  intros ws Hlen. change (List.length SHA256.H0) with 8%nat in Hlen.
  do 9 (destruct ws as [|? ws]; try discriminate Hlen).
  cbn [flat_map]. rewrite !length_app, !be_bytes_length. reflexivity.
Qed.

(** X12: [seed_for_post] hashes the bytes of the text of the seed, the post
    id and the offset joined by bars. Two different triples never give the
    same bytes to hash, also when the post id has bars or digits of its
    own; and two triples get the same seed exactly when the digests of
    their texts agree in the first eight bytes. *)
Theorem seed_text_tells_posts_apart (g g' : Z) (i i' : string) (o o' : Z) :
  ((g, i, o) <> (g', i', o') ->
   encode (seed_text g i o) <> encode (seed_text g' i' o')) /\
  (seed_for_post g i o = seed_for_post g' i' o' <->
   firstn 8 (SHA256.digest (encode (seed_text g i o)))
   = firstn 8 (SHA256.digest (encode (seed_text g' i' o')))).
Proof.
  split.
  - intros Hne Heq. apply Hne. apply encode_injective in Heq.
    destruct (seed_text_injective _ _ _ _ _ _ Heq) as (-> & -> & ->).
    reflexivity.
  - change (seed_for_post g i o)
      with (SHA256.from_be_bytes
              (firstn 8 (SHA256.digest (encode (seed_text g i o))))).
    change (seed_for_post g' i' o')
      with (SHA256.from_be_bytes
              (firstn 8 (SHA256.digest (encode (seed_text g' i' o'))))).
    split; [|intros ->; reflexivity].
    assert (Hfirst : forall msg,
               List.length (firstn 8 (SHA256.digest msg)) = 8%nat /\
               Forall (fun b => 0 <= b < 256) (firstn 8 (SHA256.digest msg))).
    { intros msg. split.
      - rewrite length_firstn, digest_length. reflexivity.
      - pose proof (digest_bytes msg) as Hall.
        rewrite <- (firstn_skipn 8 (SHA256.digest msg)) in Hall.
        apply Forall_app in Hall. apply Hall. }
    intros Heq.
    destruct (Hfirst (encode (seed_text g i o))) as [Hl1 Hb1].
    destruct (Hfirst (encode (seed_text g' i' o'))) as [Hl2 Hb2].
    eapply from_be_bytes_injective; [congruence|exact Hb1|exact Hb2|exact Heq].
Qed.

Lemma seed_text_tells_posts_apart_witness :
  encode (seed_text 1 "2|3" 4) <> encode (seed_text 12 "3" 4) /\
  seed_text 1 "2|3" 4 = "1|2|3|4"%string /\
  seed_text 12 "3" 4 = "12|3|4"%string.
Proof.
  split; [|split; reflexivity].
  apply (proj1 (seed_text_tells_posts_apart 1 12 "2|3" "3" 4 4)).
  discriminate.
Defined.

(** X13: the seed of a post is the first eight bytes of the digest read as
    an unsigned integer, so it lies from 0 to 2^64 - 1 and the mask of the
    generator cuts nothing off: the generator of a post starts from the
    seed itself, or from the fixed constant should the seed be 0. *)
Theorem seed_for_post_is_a_generator_state (g : run_env) (p : post) :
  let seed := seed_for_post (run_seed g) (post_id p)
                (or_default (seed_offset p) 0) in
  0 <= seed < 2 ^ 64 /\
  (seed <> 0 -> post_rng g p = seed) /\
  (seed = 0 -> post_rng g p = 0xDEADBEEFCAFEBABE).
Proof.
  cbv zeta. unfold post_rng, rng_from_seed.
  set (seed := seed_for_post _ _ _).
  pose proof (seed_for_post_range (run_seed g) (post_id p)
                (or_default (seed_offset p) 0)) as Hr.
  fold seed in Hr. split; [exact Hr|].
  rewrite land_mask64, Z.mod_small by exact Hr.
  split; intros Hs.
  - apply Z.eqb_neq in Hs. rewrite Hs. reflexivity.
  - rewrite Hs. reflexivity.
Qed.

(** ** Weights without a positive total *)

(** X14: when the weights do not sum to a positive total (an empty mapping,
    all zeros, a negative sum), [normalize_weights] drops the mapping and
    returns the 24 hours ["0"] to ["23"], each with weight 1/24; the loop
    then finds every hour, and the ratio of that weight to the mean weight
    is exactly 1. *)
Theorem nonpositive_total_gives_uniform_weights
  (wdict : dict F64.float) (h : Z) :
  F64.leb (py_sum (dict_values wdict)) F64.zero = true ->
  0 <= h < 24 ->
  List.length (normalize_weights wdict) = 24%nat /\
  dict_get (normalize_weights wdict) (Str.of_Z h) = Some mean_weight_norm /\
  F64.truediv mean_weight_norm mean_weight_norm = Ok F64.one.
Proof.
  intros Htotal Hh. unfold normalize_weights. cbv zeta.
  change (r_le0 (py_sum (dict_values wdict)))
    with (F64.leb (py_sum (dict_values wdict)) F64.zero).
  rewrite Htotal.
  split; [reflexivity|]. split; [|vm_compute; reflexivity].
  replace h with (Z.of_nat (Z.to_nat h)) by lia.
  assert (Hn : (Z.to_nat h < 24)%nat) by lia.
  revert Hn. generalize (Z.to_nat h). intros n Hn.
  do 24 (destruct n as [|n]; [vm_compute; reflexivity|]).
  lia.
Qed.

Lemma nonpositive_total_gives_uniform_weights_witness :
  dict_get (normalize_weights
              [ ("9"%string, Examples.lit "-1.5");
                ("10"%string, Examples.lit "0.5") ])
           (Str.of_Z 10) = Some mean_weight_norm.
Proof.
  apply (nonpositive_total_gives_uniform_weights
           [ ("9"%string, Examples.lit "-1.5");
             ("10"%string, Examples.lit "0.5") ] 10);
    [vm_compute; reflexivity | lia].
Defined.

Lemma positive_total_is_not_zero (total : F64.float) :
  F64.leb total F64.zero = false -> F64.is_zero total = false.
Proof.
  destruct total as [[|]| | |]; intros H; try reflexivity; discriminate H.
Qed.

Lemma divide_values_ok (total : F64.float) (wdict : dict F64.float) :
  F64.is_zero total = false ->
  divide_values total wdict
  = Ok (map (fun kv => (fst kv, SFdiv F64.prec F64.emax (snd kv) total)) wdict).
Proof.
  intros Hz. induction wdict as [|[k v] rest IH]; [reflexivity|].
  cbn [divide_values map fst snd]. unfold F64.truediv. rewrite Hz, IH.
  reflexivity.
Qed.

(** X15: [normalize_weights] never divides by zero. With the float division
    that raises ZeroDivisionError on a zero divisor, the function returns
    for every mapping of floats, and returns what the function written
    without the check returns: the test [total <= 0] sends both zeros to
    the uniform branch, and the constant 24 is not zero. *)
Theorem normalize_weights_never_divides_by_zero (wdict : dict F64.float) :
  normalize_weights_checked wdict = Ok (normalize_weights wdict).
Proof.
  unfold normalize_weights_checked, normalize_weights. cbv zeta.
  change (r_le0 (py_sum (dict_values wdict)))
    with (F64.leb (py_sum (dict_values wdict)) F64.zero).
  destruct (F64.leb (py_sum (dict_values wdict)) F64.zero) eqn:Hle.
  - reflexivity.
  - apply divide_values_ok, positive_total_is_not_zero, Hle.
Qed.

(** ** A range of tick durations *)

(** X16: when [tick_duration] is a mapping whose [min] and [max] both parse,
    the engine uses the shorter duration as the lower end and the longer as
    the upper end, so a configuration that gives the two the other way
    round runs the same. *)
Theorem tick_range_in_either_order (a b : string) (da db : timedelta) :
  parse_tick a = Ok da -> parse_tick b = Ok db ->
  tick_spec_of (Some (TickDict (Some a) (Some b)))
  = Ok (Ranged (Z.min da db) (Z.max da db)) /\
  tick_spec_of (Some (TickDict (Some b) (Some a)))
  = tick_spec_of (Some (TickDict (Some a) (Some b))).
Proof.
  intros Ha Hb. unfold tick_spec_of. cbn [or_default]. rewrite Ha, Hb.
  cbn [Py.bind].
  destruct (db <? da) eqn:H1; destruct (da <? db) eqn:H2;
    rewrite ?Z.ltb_lt, ?Z.ltb_ge in *;
    split; f_equal; f_equal; lia.
Qed.

Lemma tick_range_in_either_order_witness :
  tick_spec_of (Some (TickDict (Some "90m"%string) (Some "15m"%string)))
  = Ok (Ranged (Z.min 5400000000 900000000) (Z.max 5400000000 900000000)) /\
  tick_spec_of (Some (TickDict (Some "15m"%string) (Some "90m"%string)))
  = tick_spec_of (Some (TickDict (Some "90m"%string) (Some "15m"%string))).
Proof.
  apply (tick_range_in_either_order "90m" "15m" 5400000000 900000000);
    vm_compute; reflexivity.
Defined.

(** ** More passes *)

Lemma for_range_add (n m : nat) (e : loop_env) (s : loop_state) :
  let r := for_range n e s in
  (lr_exit r <> RangeExhausted -> for_range (n + m) e s = r) /\
  (lr_exit r = RangeExhausted ->
   let r' := for_range m e (lr_state r) in
   for_range (n + m) e s
   = mkResult (lr_state r') (lr_rows r ++ lr_rows r') (lr_exit r')
              (lr_passes r + lr_passes r')).
Proof.
  revert s. induction n as [|n IH]; intros s; cbv zeta.
  - cbn [for_range Nat.add lr_exit lr_state lr_rows lr_passes app].
    split; [congruence|]. intros _. destruct (for_range m e s); reflexivity.
  - change (S n + m)%nat with (S (n + m)). rewrite !for_range_succ.
    destruct (tick e s) as [[s' rows] [| | |x]];
      cbn [lr_exit lr_state lr_rows lr_passes];
      try (split; [reflexivity|discriminate]).
    destruct (IH s') as [Hdone Hmore]. cbv zeta in Hmore. split; intros Hex.
    + rewrite (Hdone Hex). reflexivity.
    + rewrite (Hmore Hex). cbn [lr_exit lr_state lr_rows lr_passes].
      rewrite app_assoc. reflexivity.
Qed.

(** X17: a larger [max_hours] never changes a row already written. The
    rows of [n + m] passes start with the rows of [n] passes; a loop that
    ended within [n] passes (target reached, nothing remaining, or an
    exception) is the same loop under [n + m]; and a loop that used up its
    [n] passes goes on from the state it stopped in. *)
Theorem more_passes_only_append_rows
  (n m : nat) (e : loop_env) (s : loop_state) :
  (exists more,
      lr_rows (for_range (n + m) e s) = lr_rows (for_range n e s) ++ more) /\
  (lr_exit (for_range n e s) <> RangeExhausted ->
   for_range (n + m) e s = for_range n e s) /\
  (lr_exit (for_range n e s) = RangeExhausted ->
   lr_rows (for_range (n + m) e s)
   = lr_rows (for_range n e s)
     ++ lr_rows (for_range m e (lr_state (for_range n e s)))).
Proof.
  destruct (for_range_add n m e s) as [Hdone Hmore]. cbv zeta in *.
  assert (Hdec : lr_exit (for_range n e s) = RangeExhausted \/
                 lr_exit (for_range n e s) <> RangeExhausted).
  { destruct (lr_exit (for_range n e s)); auto; right; discriminate. }
  split; [|split].
  - destruct Hdec as [Hex|Hex].
    + rewrite (Hmore Hex). eexists. reflexivity.
    + rewrite (Hdone Hex). exists []. symmetry. apply app_nil_r.
  - exact Hdone.
  - intros Hex. rewrite (Hmore Hex). reflexivity.
Qed.

Lemma more_passes_only_append_rows_witness :
  for_range (5 + 300) (post_env Examples.run_fixed Examples.post1 17)
            Examples.start1
  = for_range 5 (post_env Examples.run_fixed Examples.post1 17)
              Examples.start1.
Proof.
  apply (proj1 (proj2 (more_passes_only_append_rows 5 300 _ _))).
  vm_compute. discriminate.
Defined.

(** ** A post that reaches its target *)

Lemma tick_break_target (e : loop_env) (s s' : loop_state) (rows : list row) :
  tick e s = (s', rows, BreakTarget) ->
  ls_cum s' = env_target e /\
  exists r, rows = [r] /\ cum_views r = env_target e.
Proof.
  intros Ht.
  destruct (tick_sound _ _ _ _ _ Ht)
    as [(_ & _ & _ & _ & [[Hc _]|[x Hc]])
       |(inc0 & _ & _ & -> & Hcum & _ & Hexit)]; try discriminate.
  cbv zeta in *. unfold written.
  set (inc := clamp_increment _ _ _ _) in *.
  pose proof (clamp_increment_le_remaining (env_inc_min e) (env_inc_max e)
                (env_target e - ls_cum s) (apply_cap (env_cap e) inc0)) as Hle.
  fold inc in Hle.
  destruct Hexit as [(_ & Hinc & Hge & _)|[([x Hx] & _)|(Hx & _)]];
    try discriminate.
  apply Z.ltb_lt in Hinc. rewrite Hinc in *.
  split; [lia|]. eexists. split; [reflexivity|]. cbn [cum_views]. lia.
Qed.

Lemma for_range_target_reached (n : nat) (e : loop_env) (s : loop_state) :
  lr_exit (for_range n e s) = TargetReached ->
  ls_cum (lr_state (for_range n e s)) = env_target e /\
  exists rows r, lr_rows (for_range n e s) = rows ++ [r] /\
                 cum_views r = env_target e.
Proof.
  revert s. induction n as [|n IH]; intros s; [discriminate|].
  rewrite for_range_succ.
  destruct (tick e s) as [[s' rows] c] eqn:Ht.
  destruct c as [| | |x]; cbn [lr_exit lr_state lr_rows]; try discriminate.
  - intros Hex. destruct (IH s' Hex) as (Hcum & rows0 & r & -> & Hr).
    split; [exact Hcum|]. exists (rows ++ rows0), r.
    rewrite app_assoc. auto.
  - intros _. destruct (tick_break_target _ _ _ _ Ht) as (Hcum & r & -> & Hr).
    split; [exact Hcum|]. exists [], r. auto.
Qed.

(** X18: a post whose loop ends because the target is reached ends exactly
    on it: the total stands at the target, the last row written carries the
    target as its cum_views, and the views_inc of the post's rows add up to
    the target. *)
Theorem finished_post_ends_on_its_target
  (g : run_env) (p : post) (target rng no : Z) (n : nat) :
  let r := for_range n (post_env g p target)
             (mkLoop rng 0 (localize (start_datetime p)) no) in
  lr_exit r = TargetReached ->
  ls_cum (lr_state r) = target /\
  (exists rows last_row,
      lr_rows r = rows ++ [last_row] /\ cum_views last_row = target) /\
  fold_right Z.add 0 (map views_inc (lr_rows r)) = target.
Proof.
  cbv zeta. intros Hex.
  destruct (for_range_target_reached _ _ _ Hex) as (Hcum & rows & r & Hrows & Hr).
  cbn [post_env env_target] in Hcum, Hr.
  split; [exact Hcum|]. split; [eauto|].
  pose proof (for_range_running_totals n (post_env g p target)
                (mkLoop rng 0 (localize (start_datetime p)) no)) as [_ Hsum].
  cbn [ls_cum] in Hsum. lia.
Qed.

Lemma finished_post_ends_on_its_target_witness :
  ls_cum (lr_state (for_range 336 (post_env Examples.run_fixed Examples.post1 17)
                      Examples.start1)) = 17 /\
  (exists rows last_row,
      lr_rows (for_range 336 (post_env Examples.run_fixed Examples.post1 17)
                 Examples.start1) = rows ++ [last_row] /\
      cum_views last_row = 17) /\
  fold_right Z.add 0
    (map views_inc
       (lr_rows (for_range 336 (post_env Examples.run_fixed Examples.post1 17)
                   Examples.start1))) = 17.
Proof.
  apply (finished_post_ends_on_its_target Examples.run_fixed Examples.post1
           17 3533187389298662792 1 336).
  vm_compute. reflexivity.
Defined.

(** ** The exceptions of a run *)

Lemma bind_raises {A B : Type} (c : result A) (k : A -> result B) (x : exn) :
  Py.bind c k = Raise x -> c = Raise x \/ exists a, c = Ok a /\ k a = Raise x.
Proof.
  destruct c as [a|y]; cbn [Py.bind]; intros H; [right; eauto|left; congruence].
Qed.

(** Splits the hypothesis that a chain of calls raised [x] into the call
    that raised it. *)
Ltac raised_in H :=
  let Ha := fresh "Ha" in
  apply bind_raises in H as [H|(? & Ha & H)].

Lemma finite_or_overflow_raises (v : F64.float) (x : exn) :
  F64.finite_or_overflow v = Raise x -> arithmetic_exn x.
Proof. destruct v; intros [= <-]. right. reflexivity. Qed.

Lemma of_int_raises (z : Z) (x : exn) :
  F64.of_int z = Raise x -> arithmetic_exn x.
Proof. apply finite_or_overflow_raises. Qed.

Lemma int_truediv_raises (a b : Z) (x : exn) :
  b <> 0 -> F64.int_truediv a b = Raise x -> arithmetic_exn x.
Proof.
  unfold F64.int_truediv. intros Hb. apply Z.eqb_neq in Hb. rewrite Hb.
  apply finite_or_overflow_raises.
Qed.

Lemma to_int_raises (v : F64.float) (x : exn) :
  F64.to_int v = Raise x -> arithmetic_exn x.
Proof. destruct v; intros [= <-]; [right|left]; reflexivity. Qed.

Lemma floor_raises (v : F64.float) (x : exn) :
  F64.floor v = Raise x -> arithmetic_exn x.
Proof. destruct v; intros [= <-]; [right|left]; reflexivity. Qed.

Lemma modf_raises (v : F64.float) (x : exn) :
  F64.modf v = Raise x -> arithmetic_exn x.
Proof.
  destruct v as [s| | |s m e]; cbn [F64.modf];
    try (intros [= <-]; [right|left]; reflexivity); try discriminate.
  - intros [= <-]. right. reflexivity.
  - intros [= <-]. left. reflexivity.
  - destruct (0 <=? e); discriminate.
Qed.

Lemma new_delta_raises (us : Z) (x : exn) :
  new_delta us = Raise x -> arithmetic_exn x.
Proof.
  unfold new_delta. cbv zeta.
  destruct (_ && _); intros [= <-]. right. reflexivity.
Qed.

Lemma shift_wall_raises (w : Z) (d : timedelta) (x : exn) :
  shift_wall w d = Raise x -> arithmetic_exn x.
Proof.
  unfold shift_wall. cbv zeta.
  destruct (_ && _); intros [= <-]. right. reflexivity.
Qed.

Create HintDb raises.

#[local] Hint Resolve finite_or_overflow_raises of_int_raises to_int_raises
  floor_raises modf_raises new_delta_raises shift_wall_raises : raises.

Lemma delta_of_float_raises (factor : Z) (v : F64.float) (x : exn) :
  delta_of_float factor v = Raise x -> arithmetic_exn x.
Proof.
  unfold delta_of_float. intros H.
  raised_in H; [eauto with raises|].
  match goal with p : (Z * F64.float)%type |- _ => destruct p as [ip fp] end.
  destruct (F64.is_zero fp); [eauto with raises|].
  raised_in H; [eauto with raises|].
  raised_in H; [eauto with raises|].
  match goal with p : (Z * F64.float)%type |- _ => destruct p as [ip2 fp2] end.
  eauto with raises.
Qed.

Lemma py_float_raises (s : string) (x : exn) :
  FloatParse.py_float s = Raise x -> arithmetic_exn x.
Proof.
  unfold FloatParse.py_float.
  destruct (FloatParse.remove_underscores _ _) as [txt|];
    [|intros [= <-]; left; reflexivity].
  destruct (FloatParse.read_sign txt) as [neg body].
  destruct (_ || _); [discriminate|].
  destruct (FloatParse.is_word "nan" body); [discriminate|].
  destruct (FloatParse.read_number neg body); [discriminate|].
  intros [= <-]. left. reflexivity.
Qed.

Lemma parse_tick_raises (s : string) (x : exn) :
  parse_tick s = Raise x -> arithmetic_exn x.
Proof.
  unfold parse_tick. cbv zeta. intros H.
  repeat match type of H with
         | (if ?b then _ else _) = _ => destruct b
         end;
    try (raised_in H; [eapply py_float_raises|eapply delta_of_float_raises];
         eassumption).
  injection H as <-. left. reflexivity.
Qed.

Lemma tick_spec_of_raises (cfg : option tick_cfg) (x : exn) :
  tick_spec_of cfg = Raise x -> arithmetic_exn x.
Proof.
  unfold tick_spec_of. destruct (or_default cfg _) as [s|tmin tmax]; intros H.
  - raised_in H; [eapply parse_tick_raises; eassumption|discriminate].
  - raised_in H; [eapply parse_tick_raises; eassumption|].
    raised_in H; [eapply parse_tick_raises; eassumption|discriminate].
Qed.

Lemma randint_inclusive_raises (state a b : Z) (x : exn) :
  snd (randint_inclusive state a b) = Raise x -> arithmetic_exn x.
Proof.
  unfold randint_inclusive. cbv zeta. cbn [snd]. intros H.
  raised_in H; [eapply int_truediv_raises; [|eassumption]; discriminate|].
  raised_in H; [eauto with raises|].
  raised_in H; [eauto with raises|discriminate].
Qed.

Lemma weighted_increment_raises (w : F64.float) (base : Z) (x : exn) :
  weighted_increment w base = Raise x -> arithmetic_exn x.
Proof.
  unfold weighted_increment. intros H.
  raised_in H; [discriminate|].
  raised_in H; eauto with raises.
Qed.

Lemma total_seconds_raises (td : timedelta) (x : exn) :
  total_seconds td = Raise x -> arithmetic_exn x.
Proof. apply int_truediv_raises. discriminate. Qed.

Lemma next_step_raises (spec : tick_spec) (rng : Z) (x : exn) :
  snd (next_step spec rng) = Raise x -> arithmetic_exn x.
Proof.
  unfold next_step. destruct spec as [d|lo hi]; [discriminate|].
  destruct (Py.bind (delta_sub hi lo) _) as [span|y] eqn:Hspan.
  2:{ cbn [snd]. intros [= <-].
      raised_in Hspan; [eapply new_delta_raises|eapply total_seconds_raises];
        eassumption. }
  destruct (total_seconds lo) as [lo_seconds|y] eqn:Hlo.
  2:{ cbn [snd]. intros [= <-]. eapply total_seconds_raises; eassumption. }
  unfold rand. cbv zeta. cbn [snd]. intros H.
  raised_in H; [eapply int_truediv_raises; [|eassumption]; discriminate|].
  raised_in H; [eauto with raises|].
  unfold delta_of_seconds in H. eauto with raises.
Qed.

Lemma dt_add_raises (t : datetime) (step : timedelta) (x : exn) :
  dt_add t step = Raise x -> arithmetic_exn x.
Proof.
  unfold dt_add. intros H. raised_in H; [eauto with raises|discriminate].
Qed.

Lemma astimezone_hour_raises (zone : Z -> timedelta) (t : datetime) (x : exn) :
  astimezone_hour zone t = Raise x -> arithmetic_exn x.
Proof.
  unfold astimezone_hour. destruct (dt_tz t); [discriminate|]. intros H.
  raised_in H; [eauto with raises|].
  raised_in H; [eauto with raises|discriminate].
Qed.

Lemma tick_raises (e : loop_env) (s s' : loop_state) (rows : list row)
  (x : exn) :
  tick e s = (s', rows, Fail x) -> arithmetic_exn x.
Proof.
  unfold tick. intros Htick. cbv zeta in Htick.
  destruct (astimezone_hour (env_tz e) (ls_t s)) as [hour_local|y] eqn:Hh.
  2:{ injection Htick as _ _ <-. eapply astimezone_hour_raises; eassumption. }
  destruct (randint_inclusive (ls_rng s) (env_inc_min e) (env_inc_max e))
    as [rng1 base] eqn:Hdraw.
  match type of Htick with
  | context [match ?r with Ok _ => _ | Raise _ => _ end] =>
      destruct r as [inc0|y] eqn:Hinc0
  end.
  2:{ injection Htick as _ _ <-.
      raised_in Hinc0.
      - apply (randint_inclusive_raises (ls_rng s) (env_inc_min e) (env_inc_max e)).
        rewrite Hdraw. exact Hinc0.
      - eapply weighted_increment_raises; eassumption. }
  destruct (_ <=? 0); [discriminate|].
  match type of Htick with
  | context [if ?b then (mkLoop _ _ _ _, _) else _] => destruct b
  end;
    (destruct (_ && _); [discriminate|]);
    (destruct (next_step _ _) as [rng2 step] eqn:Hstep;
     match type of Htick with
     | context [match ?r with Ok _ => _ | Raise _ => _ end] =>
         destruct r as [t'|y] eqn:Hmove
     end; [discriminate|];
     injection Htick as _ _ <-;
     raised_in Hmove;
     [ apply (f_equal snd) in Hstep; cbn [snd] in Hstep;
       rewrite <- Hstep in Hmove; eapply next_step_raises; exact Hmove
     | eapply dt_add_raises; eassumption ]).
Qed.

Lemma for_range_raises (n : nat) (e : loop_env) (s : loop_state) (x : exn) :
  lr_exit (for_range n e s) = Raised x -> arithmetic_exn x.
Proof.
  revert s. induction n as [|n IH]; intros s; [discriminate|].
  rewrite for_range_succ.
  destruct (tick e s) as [[s' rows] c] eqn:Ht.
  destruct c as [| | |y]; cbn [lr_exit]; try discriminate.
  - apply IH.
  - intros [= <-]. eapply tick_raises; eassumption.
Qed.

Lemma simulate_post_raises (g : run_env) (p : post) (no : Z) (x : exn) :
  snd (simulate_post g p no) = Raise x ->
  arithmetic_exn x \/
  (x = KeyError /\ dict_get (run_stage_map g) (Str.strip (stage p)) = None).
Proof.
  unfold simulate_post.
  destruct (dict_get (run_stage_map g) (Str.strip (stage p))) as [sc|].
  2:{ cbn [snd]. intros [= <-]. right. auto. }
  destruct (randint_inclusive (post_rng g p) (views_min sc) (views_max sc))
    as [rng target] eqn:Hdraw.
  destruct target as [target|y].
  - cbn [snd].
    destruct (lr_exit (for_range _ _ _)) eqn:Hex; try discriminate.
    intros [= <-]. left. eapply for_range_raises; eassumption.
  - cbn [snd]. intros [= <-]. left.
    apply (randint_inclusive_raises (post_rng g p) (views_min sc) (views_max sc)).
    rewrite Hdraw. reflexivity.
Qed.

Lemma simulate_posts_raises (g : run_env) (ps : list post) (no : Z) (x : exn) :
  snd (simulate_posts g ps no) = Raise x ->
  arithmetic_exn x \/
  (x = KeyError /\
   exists p, In p ps /\ dict_get (run_stage_map g) (Str.strip (stage p)) = None).
Proof.
  revert no. induction ps as [|p ps IH]; intros no; [discriminate|].
  cbn [simulate_posts].
  destruct (simulate_post g p no) as [[rows no'] res] eqn:Hp.
  destruct res as [[]|y].
  - destruct (simulate_posts g ps no') as [rows' res'] eqn:Hps.
    cbn [snd]. intros ->.
    destruct (IH no' ) as [Ha|(Hk & q & Hq & Hnone)].
    + rewrite Hps. reflexivity.
    + left. exact Ha.
    + right. split; [exact Hk|]. exists q. split; [right; exact Hq|exact Hnone].
  - cbn [snd]. intros [= <-].
    destruct (simulate_post_raises g p no y) as [Ha|(Hk & Hnone)].
    + rewrite Hp. reflexivity.
    + left. exact Ha.
    + right. split; [exact Hk|]. exists p. split; [left; reflexivity|exact Hnone].
Qed.

(** X19: a run never divides by zero. Every division of the engine has a
    divisor that is not zero (2^64, the microseconds of a second, the mean
    weight 1/24), so a run that ends in an exception ends in ValueError,
    OverflowError or KeyError, never in ZeroDivisionError; and KeyError
    means that one of the posts names a stage the stage table does not
    have. *)
Theorem simulate_raises_no_division_by_zero
  (stages_cfg : dict stage_cfg) (engine : engine_cfg) (posts : list post)
  (seed : Z) (out : out_file) (x : exn) :
  snd (simulate stages_cfg engine posts seed out) = Raise x ->
  x <> ZeroDivisionError /\
  (x = KeyError ->
   exists p, In p posts /\ dict_get stages_cfg (Str.strip (stage p)) = None).
Proof.
  unfold simulate.
  destruct (tick_spec_of (tick_duration engine)) as [spec|y] eqn:Hspec.
  - destruct (simulate_posts _ posts 1) as [rows [[]|y]] eqn:Hps;
      cbn [snd]; [discriminate|]. intros [= <-].
    destruct (simulate_posts_raises (run_env_of stages_cfg engine seed spec)
                posts 1 y) as [[-> | ->]|(-> & q & Hq)].
    + rewrite Hps. reflexivity.
    + split; discriminate.
    + split; discriminate.
    + split; [discriminate|]. intros _. exists q. exact Hq.
  - cbn [snd]. intros [= <-].
    destruct (tick_spec_of_raises _ _ Hspec) as [-> | ->]; split; discriminate.
Qed.

Lemma simulate_raises_no_division_by_zero_witness :
  KeyError <> ZeroDivisionError /\
  (KeyError = KeyError ->
   exists p, In p [Examples.post1; Examples.post9; Examples.post2] /\
             dict_get Examples.stages (Str.strip (stage p)) = None).
Proof.
  apply (simulate_raises_no_division_by_zero Examples.stages
           Examples.engine_fixed [Examples.post1; Examples.post9; Examples.post2]
           42 Examples.stale_file KeyError).
  vm_compute. reflexivity.
Defined.

(** ** The dashboard's id for a new post *)

Lemma all_digits_read (s : string) :
  all_digits s = true -> exists d, NilEmpty.uint_of_string s = Some d.
Proof.
  induction s as [|c s IH]; cbn [all_digits NilEmpty.uint_of_string].
  - eauto.
  - intros H. apply andb_prop in H as [Hc Hs].
    destruct (IH Hs) as [d ->].
    destruct c as [[] [] [] [] [] [] [] []]; try discriminate Hc;
      cbn [uint_of_char]; eauto.
Qed.

Lemma int_of_digits_ok (s : string) :
  isdigit s = true -> Z.of_nat (String.length s) <= MAX_STR_DIGITS ->
  exists n, int_of_digits s = Ok n.
Proof.
  unfold isdigit, int_of_digits. intros H Hlen.
  apply Z.ltb_ge in Hlen. rewrite Hlen.
  destruct s as [|c s]; [discriminate|].
  destruct (all_digits_read _ H) as [d Hd].
  cbn [NilZero.uint_of_string]. rewrite Hd. eauto.
Qed.

Lemma int_of_digits_nonneg (s : string) (n : Z) :
  int_of_digits s = Ok n -> 0 <= n.
Proof.
  unfold int_of_digits. destruct (_ <? _); [discriminate|].
  destruct (NilZero.uint_of_string s); [|discriminate].
  intros [= <-]. unfold Z.of_uint. apply N2Z.is_nonneg.
Qed.

Lemma string_of_uint_digits (d : Decimal.uint) :
  all_digits (NilEmpty.string_of_uint d) = true.
Proof.
  induction d; cbn [NilEmpty.string_of_uint all_digits]; try rewrite IHd;
    reflexivity.
Qed.

(** The text of an int that is not negative is a numeral, and reads back as
    the int. *)
Lemma of_Z_digits (n : Z) :
  0 <= n ->
  isdigit (Str.of_Z n) = true /\
  forall m, int_of_digits (Str.of_Z n) = Ok m -> m = n.
Proof.
  intros Hn. unfold int_of_digits.
  destruct (_ <? _); [split; [|discriminate]|split].
  1,2: destruct n as [|p|p]; [reflexivity| |lia];
    unfold Str.of_Z; cbn [Z.to_int NilZero.string_of_int];
    pose proof (DecimalPos.Unsigned.to_uint_nonnil p) as Hnil;
    pose proof (string_of_uint_digits (Pos.to_uint p)) as Hall;
    unfold NilZero.string_of_uint;
    destruct (Pos.to_uint p); try congruence; exact Hall.
  destruct n as [|p|p]; [intros m [= <-]; reflexivity| |lia].
  unfold Str.of_Z. cbn [Z.to_int NilZero.string_of_int].
  rewrite NilZero.usu by apply DecimalPos.Unsigned.to_uint_nonnil.
  unfold Z.of_uint. rewrite DecimalPos.Unsigned.of_to. intros m [= <-].
  reflexivity.
Qed.

Lemma existing_ids_sound (post_ids : list string) (ids : list Z) :
  existing_ids post_ids = Ok ids ->
  Forall (fun n => 0 <= n) ids /\
  forall i, In i post_ids -> isdigit i = true ->
            exists n, int_of_digits i = Ok n /\ In n ids.
Proof.
  revert ids. induction post_ids as [|i rest IH]; intros ids;
    cbn [existing_ids].
  - intros [= <-]. split; [constructor|]. intros ? [].
  - destruct (isdigit i) eqn:Hi.
    + destruct (int_of_digits i) as [n|] eqn:Hn; cbn [Py.bind]; [|discriminate].
      destruct (existing_ids rest) as [ns|]; cbn [Py.bind]; [|discriminate].
      intros [= <-]. destruct (IH ns eq_refl) as [Hpos Hin].
      split; [constructor; [eapply int_of_digits_nonneg; eassumption|exact Hpos]|].
      intros j [<-|Hj] Hd.
      * exists n. split; [exact Hn|left; reflexivity].
      * destruct (Hin j Hj Hd) as (m & Hm & Hmem). exists m.
        split; [exact Hm|right; exact Hmem].
    + intros Hids. destruct (IH ids Hids) as [Hpos Hin].
      split; [exact Hpos|].
      intros j [<-|Hj] Hd; [congruence|]. apply Hin; assumption.
Qed.

Lemma existing_ids_ok (post_ids : list string) :
  Forall (fun i => Z.of_nat (String.length i) <= MAX_STR_DIGITS) post_ids ->
  exists ids, existing_ids post_ids = Ok ids.
Proof.
  induction 1 as [|i rest Hi _ [ids IH]]; cbn [existing_ids]; [eauto|].
  destruct (isdigit i) eqn:Hd; [|eauto].
  destruct (int_of_digits_ok i Hd Hi) as [n ->]. rewrite IH.
  cbn [Py.bind]. eauto.
Qed.

Lemma fold_max_bounds (ns : list Z) (n m : Z) :
  In m (n :: ns) -> m <= fold_left Z.max ns n.
Proof.
  revert n m. induction ns as [|k ns IH]; intros n m; cbn [fold_left].
  - intros [Hm|[]]. lia.
  - intros [Hm|[Hm|Hm]].
    + specialize (IH (Z.max n k) (Z.max n k) (or_introl eq_refl)). lia.
    + specialize (IH (Z.max n k) (Z.max n k) (or_introl eq_refl)). lia.
    + apply IH. right. exact Hm.
Qed.

Lemma of_uint_acc_bound (d : Decimal.uint) (acc : positive) :
  Z.pos (Pos.of_uint_acc d acc)
  < (Z.pos acc + 1) * 10 ^ Z.of_nat (Decimal.nb_digits d).
Proof.
  revert acc. induction d; intros acc;
    cbn [Pos.of_uint_acc Decimal.nb_digits];
    [rewrite Z.pow_0_r; lia|..];
    rewrite Nat2Z.inj_succ, Z.pow_succ_r by lia;
    match goal with
    | |- Z.pos (Pos.of_uint_acc _ ?a) < _ => specialize (IHd a)
    end;
    assert (0 < 10 ^ Z.of_nat (Decimal.nb_digits d))
      by (apply Z.pow_pos_nonneg; lia);
    nia.
Qed.

Lemma of_uint_bound (d : Decimal.uint) :
  Z.of_uint d < 10 ^ Z.of_nat (Decimal.nb_digits d).
Proof.
  unfold Z.of_uint.
  induction d; cbn [Pos.of_uint Decimal.nb_digits];
    [rewrite Z.pow_0_r; reflexivity|..];
    rewrite Nat2Z.inj_succ, Z.pow_succ_r by lia;
    assert (0 < 10 ^ Z.of_nat (Decimal.nb_digits d))
      by (apply Z.pow_pos_nonneg; lia);
    [lia|..];
    cbn [Z.of_N];
    match goal with
    | |- Z.pos (Pos.of_uint_acc _ ?a) < _ =>
        pose proof (of_uint_acc_bound d a)
    end; nia.
Qed.

Lemma string_of_uint_length (d : Decimal.uint) :
  String.length (NilEmpty.string_of_uint d) = Decimal.nb_digits d.
Proof.
  induction d; cbn [NilEmpty.string_of_uint String.length Decimal.nb_digits];
    congruence.
Qed.

(** A numeral of [k] digits denotes a number below [10 ^ k]. *)
Lemma int_of_digits_bound (s : string) (n : Z) :
  int_of_digits s = Ok n -> 0 <= n < 10 ^ Z.of_nat (String.length s).
Proof.
  intros Hn. split; [eapply int_of_digits_nonneg; eassumption|].
  revert Hn. unfold int_of_digits. destruct (_ <? _); [discriminate|].
  destruct (NilZero.uint_of_string s) as [d|] eqn:Hd; [|discriminate].
  intros [= <-].
  assert (Hs : NilEmpty.string_of_uint d = s).
  { apply NilEmpty.sus. destruct s; [discriminate|exact Hd]. }
  rewrite <- Hs, string_of_uint_length. apply of_uint_bound.
Qed.

Lemma existing_ids_bound (post_ids : list string) (ids : list Z) (k : Z) :
  0 <= k ->
  Forall (fun i => Z.of_nat (String.length i) <= k) post_ids ->
  existing_ids post_ids = Ok ids ->
  Forall (fun n => n < 10 ^ k) ids.
Proof.
  intros Hk Hlen. revert ids.
  induction Hlen as [|i rest Hi _ IH]; intros ids; cbn [existing_ids].
  - intros [= <-]. constructor.
  - destruct (isdigit i); [|apply IH].
    destruct (int_of_digits i) as [n|] eqn:Hn; cbn [Py.bind]; [|discriminate].
    destruct (existing_ids rest) as [ns|]; cbn [Py.bind]; [|discriminate].
    intros [= <-]. constructor; [|apply IH; reflexivity].
    apply int_of_digits_bound in Hn.
    eapply Z.lt_le_trans; [apply Hn|]. apply Z.pow_le_mono_r; lia.
Qed.

Lemma fold_max_in (ns : list Z) (n : Z) : In (fold_left Z.max ns n) (n :: ns).
Proof.
  revert n. induction ns as [|k ns IH]; intros n; cbn [fold_left].
  - left. reflexivity.
  - destruct (IH (Z.max n k)) as [Hm|Hm].
    + rewrite <- Hm.
      destruct (Z.max_spec n k) as [[_ Hk]|[_ Hk]]; rewrite Hk.
      * right. left. reflexivity.
      * left. reflexivity.
    + right. right. exact Hm.
Qed.

Lemma py_str_ok (n : Z) (t : string) : py_str n = Ok t -> t = Str.of_Z n.
Proof. unfold py_str. destruct (_ <=? _); [discriminate|]. congruence. Qed.

Lemma next_id_text_spec (post_ids : list string) :
  next_id_text post_ids = (let? n := next_id post_ids in py_str n).
Proof.
  unfold next_id_text, next_id. destruct post_ids as [|i rest]; [reflexivity|].
  destruct (existing_ids (i :: rest)) as [[|n ns]|]; reflexivity.
Qed.

(** X20: the id the dashboard gives a new post is not in use. The form for
    one post shows [str(max + 1)], or "1001": when every id among the posts
    has fewer characters than the longest numeral the interpreter converts,
    that text is computed, and whenever it is computed it is the id of no
    existing post, written in digits or not. The batch starts from the
    number [n] and writes [str(n)], [str(n + 1)], ...: [n] is at least 1,
    and each of these texts that [str] returns is the id of no existing
    post and differs from the others. *)
Theorem next_id_is_unused (post_ids : list string) :
  (Forall (fun i => Z.of_nat (String.length i) < MAX_STR_DIGITS) post_ids ->
   exists t, next_id_text post_ids = Ok t) /\
  (forall t, next_id_text post_ids = Ok t -> ~ In t post_ids) /\
  (forall n, next_id post_ids = Ok n ->
             1 <= n /\
             forall k t, 0 <= k -> py_str (n + k) = Ok t ->
                         ~ In t post_ids /\
                         forall k' t', py_str (n + k') = Ok t' -> t = t' ->
                                       k = k').
Proof.
  assert (Hnext : forall n, next_id post_ids = Ok n ->
            1 <= n /\ forall k, 0 <= k -> ~ In (Str.of_Z (n + k)) post_ids).
  { intros n Hn.
    assert (Hfresh : forall ids, existing_ids post_ids = Ok ids ->
                     1 <= n -> (forall m, In m ids -> m < n) ->
                     forall k, 0 <= k -> ~ In (Str.of_Z (n + k)) post_ids).
    { intros ids Hids Hn1 Hbelow k Hk Hmem.
      destruct (of_Z_digits (n + k) ltac:(lia)) as [Hd Hv].
      destruct (proj2 (existing_ids_sound _ _ Hids) _ Hmem Hd)
        as (m & Hm & Hin).
      rewrite (Hv m Hm) in Hin. specialize (Hbelow _ Hin). lia. }
    unfold next_id in Hn. destruct post_ids as [|i rest].
    - injection Hn as <-. split; [lia|]. intros k _ [].
    - destruct (existing_ids (i :: rest)) as [ids|] eqn:Hids;
        cbn [Py.bind] in Hn; [|discriminate].
      destruct ids as [|n0 ns]; injection Hn as <-.
      + split; [lia|]. apply (Hfresh [] eq_refl); [lia|]. intros m [].
      + pose proof (fold_max_bounds ns n0 n0 (or_introl eq_refl)) as Hmax.
        destruct (existing_ids_sound _ _ Hids) as [Hpos _].
        inversion Hpos; subst.
        split; [lia|]. apply (Hfresh (n0 :: ns) eq_refl); [lia|].
        intros m Hm. pose proof (fold_max_bounds ns n0 m Hm). lia. }
  split; [|split].
  - intros Hlen. unfold next_id_text. destruct post_ids as [|i rest]; [eauto|].
    assert (Hlen' : Forall (fun i => Z.of_nat (String.length i)
                                     <= MAX_STR_DIGITS - 1) (i :: rest)).
    { eapply Forall_impl; [|exact Hlen]. cbv beta. intros; lia. }
    assert (Hlen'' : Forall (fun i => Z.of_nat (String.length i)
                                      <= MAX_STR_DIGITS) (i :: rest)).
    { eapply Forall_impl; [|exact Hlen]. cbv beta. intros; lia. }
    destruct (existing_ids_ok _ Hlen'') as [ids Hids].
    pose proof (existing_ids_bound _ _ (MAX_STR_DIGITS - 1)
                  ltac:(unfold MAX_STR_DIGITS; lia) Hlen' Hids) as Hb.
    destruct (existing_ids_sound _ _ Hids) as [Hpos _].
    rewrite Hids. cbn [Py.bind]. destruct ids as [|n ns]; [eauto|].
    unfold py_str.
    pose proof (fold_max_in ns n) as Hin.
    pose proof (proj1 (Forall_forall _ _) Hb _ Hin) as Hlt.
    pose proof (proj1 (Forall_forall _ _) Hpos _ Hin) as Hge.
    cbv beta in Hlt, Hge.
    assert (Hpow : 10 ^ MAX_STR_DIGITS = 10 * 10 ^ (MAX_STR_DIGITS - 1)).
    { rewrite <- Z.pow_succ_r by (unfold MAX_STR_DIGITS; lia).
      f_equal; try lia. }
    assert (Hsmall : (10 ^ MAX_STR_DIGITS <=? Z.abs (fold_left Z.max ns n + 1))
                     = false).
    { apply Z.leb_gt. rewrite Hpow. lia. }
    rewrite Hsmall. eauto.
  - intros t Ht. rewrite next_id_text_spec in Ht.
    destruct (next_id post_ids) as [n|] eqn:Hn; cbn [Py.bind] in Ht;
      [|discriminate].
    apply py_str_ok in Ht. subst t.
    destruct (Hnext n eq_refl) as [_ Hun].
    replace n with (n + 0) by lia. apply Hun. lia.
  - intros n Hn. destruct (Hnext n Hn) as [Hn1 Hun]. split; [exact Hn1|].
    intros k t Hk Ht. apply py_str_ok in Ht. subst t.
    split; [apply Hun, Hk|].
    intros k' t' Ht' Heq. apply py_str_ok in Ht'. subst t'.
    apply of_Z_injective in Heq. lia.
Qed.

Lemma next_id_is_unused_witness :
  next_id_text ["1001"; "post-7"; "0999"; "1003"]%string = Ok "1004"%string /\
  ~ In "1004"%string ["1001"; "post-7"; "0999"; "1003"]%string.
Proof.
  split; [reflexivity|].
  apply (proj1 (proj2 (next_id_is_unused
                         ["1001"; "post-7"; "0999"; "1003"]%string))).
  reflexivity.
Defined.

(** At the limit of the conversion: the id of 4300 nines is read, and the
    number after it has one digit too many to be written. *)
Example next_id_at_the_digit_limit :
  let nines := string_of_list_ascii (repeat "9"%char 4300) in
  next_id [nines] = Ok (10 ^ 4300) /\
  next_id_text [nines] = Raise ValueError.
Proof. vm_compute. split; reflexivity. Qed.
